(** * BuildXL macOS sandbox: process tracker and concurrent trie

    A shallow embedding of
    - [BuildXLSandbox.cpp] / [ProcessObject.hpp]: the process tracker
      ([TrackRootProcess], [TrackChildProcess], [UntrackProcess],
      [FreeReportQueuesForClientProcess]);
    - [Trie.hpp]: the dictionary keyed by unsigned integers or ASCII paths.

    Pointers to heap objects are modelled as locations into an explicit
    store, so that a child's dictionary entry aliases its root's
    [ProcessObject] exactly as in the C++ code.  Both components are
    modelled for calls made one after the other (the tracker's mutators
    run under its monitor lock); interleavings of the trie's lock-free
    operations are outside this development. *)

From Stdlib Require Import ZArith String Ascii.
From stdpp Require Import gmap list strings.

Open Scope Z_scope.

(** ** Machine integers *)

(** [SInt32] arithmetic as performed by [OSIncrementAtomic] /
    [OSDecrementAtomic] on an [int]. *)
Definition wrap32 (z : Z) : Z := (z + 2 ^ 31) mod 2 ^ 32 - 2 ^ 31.

(** [UInt32] arithmetic, for a [uint] counter. *)
Definition wrapu32 (z : Z) : Z := z mod 2 ^ 32.

(** ** The process tracker *)

Module Tracker.

(** [pid_t] and [pipid_t] are signed machine integers; the tracker only
    compares them for equality. *)
Definition pid_t := Z.
Definition pipid_t := Z.

(** Address of a heap-allocated [ProcessObject]. *)
Definition loc := positive.

(** [ProcessObject.hpp]: the fields the tracker reads or writes.
    [pipId_] stands for [fam_.GetPipId()->PipId]. *)
Record ProcessObject := mkProcessObject {
  clientPid_ : pid_t;
  processId_ : pid_t;
  pipId_ : pipid_t;
  processTreeCount_ : Z
}.

Definition setTreeCount (c : Z) (p : ProcessObject) : ProcessObject :=
  {| clientPid_ := clientPid_ p; processId_ := processId_ p;
     pipId_ := pipId_ p; processTreeCount_ := c |}.

(** Observable effects: the tree-completion report and [log_error]
    lines.  ([log_debug] and [log_verbose] lines are diagnostics only and
    are not recorded.) *)
Inductive Event :=
  | ReportProcessTreeCompleted (process : loc)
  | ErrNotFoundInTracked (pid : pid_t)
  | ErrChildMismatch (existing root : loc).

Global Instance Event_eq_dec : EqDecision Event.
Proof. solve_decision. Defined.

Inductive IOReturn := kIOReturnSuccess | kIOReturnError.

(** The state of a [BuildXLSandbox] instance.  [reportQueues_] records,
    per client pid, how many queues the client owns. *)
Record Sandbox := mkSandbox {
  heap : gmap loc ProcessObject;
  trackedProcesses_ : gmap pid_t loc;
  reportQueues_ : gmap pid_t nat;
  trace : list Event
}.

Definition emptySandbox : Sandbox :=
  {| heap := ∅; trackedProcesses_ := ∅; reportQueues_ := ∅; trace := [] |}.

Definition setHeap (h : gmap loc ProcessObject) (s : Sandbox) : Sandbox :=
  {| heap := h; trackedProcesses_ := trackedProcesses_ s;
     reportQueues_ := reportQueues_ s; trace := trace s |}.

Definition setTracked (t : gmap pid_t loc) (s : Sandbox) : Sandbox :=
  {| heap := heap s; trackedProcesses_ := t;
     reportQueues_ := reportQueues_ s; trace := trace s |}.

Definition setQueues (q : gmap pid_t nat) (s : Sandbox) : Sandbox :=
  {| heap := heap s; trackedProcesses_ := trackedProcesses_ s;
     reportQueues_ := q; trace := trace s |}.

Definition addEvent (e : Event) (s : Sandbox) : Sandbox :=
  {| heap := heap s; trackedProcesses_ := trackedProcesses_ s;
     reportQueues_ := reportQueues_ s; trace := trace s ++ [e] |}.

(** A state-and-failure monad: [None] is a dereference of a pointer
    that does not address a live [ProcessObject]. *)
Definition M (A : Type) : Type := Sandbox -> option (A * Sandbox).

Global Instance M_ret : MRet M := fun A a s => Some (a, s).

Global Instance M_bind : MBind M := fun A B k m s =>
  match m s with
  | Some (a, s') => k a s'
  | None => None
  end.

Definition ret {A} (a : A) : M A := mret a.

Definition modify (f : Sandbox -> Sandbox) : M unit := fun s => Some (tt, f s).

Definition deref (p : loc) : M ProcessObject :=
  fun s => match heap s !! p with
           | Some o => Some (o, s)
           | None => None
           end.

Definition emit (e : Event) : M unit := modify (addEvent e).

(** *** [ProcessObject] accessors *)

Definition getClientPid (p : loc) : M pid_t :=
  o ← deref p; ret (clientPid_ o).
Definition getProcessId (p : loc) : M pid_t :=
  o ← deref p; ret (processId_ o).
Definition getPipId (p : loc) : M pipid_t :=
  o ← deref p; ret (pipId_ o).
Definition getProcessTreeCount (p : loc) : M Z :=
  o ← deref p; ret (processTreeCount_ o).

(** [OSCompareAndSwap(0, 0, &processTreeCount_)]: succeeds exactly when
    the count is 0, and then stores 0 again. *)
Definition hasEmptyProcessTree (p : loc) : M bool :=
  o ← deref p; ret (bool_decide (processTreeCount_ o = 0)).

(** [OSIncrementAtomic] / [OSDecrementAtomic] return the old value. *)
Definition incrementProcessTreeCount (p : loc) : M Z :=
  o ← deref p;
  modify (fun s =>
    setHeap (<[p := setTreeCount (wrap32 (processTreeCount_ o + 1)) o]> (heap s)) s);;
  ret (processTreeCount_ o).

Definition decrementProcessTreeCount (p : loc) : M Z :=
  o ← deref p;
  modify (fun s =>
    setHeap (<[p := setTreeCount (wrap32 (processTreeCount_ o - 1)) o]> (heap s)) s);;
  ret (processTreeCount_ o).

(** Modelled from the spec: [ProcessObject::withPayload] / [init] live in
    ProcessObject.cpp, which is not part of the sources.  The object is
    allocated at a fresh address; [initialTreeCount] is the value [init]
    gives to [processTreeCount_] (the spec says 0); the pip id is read
    from the manifest payload. *)
Definition withPayload (initialTreeCount : Z) (clientPid processPid : pid_t)
    (pipId : pipid_t) : M loc :=
  fun s =>
    let p := fresh (dom (heap s)) in
    let o := mkProcessObject clientPid processPid pipId initialTreeCount in
    Some (p, setHeap (<[p := o]> (heap s)) s).

(** *** [ConcurrentDictionary] *)

(** ConcurrentDictionary.cpp is not part of the sources; the spec
    describes the tracker's dictionary as a map from process id to
    tracked entity, one entry per id. *)

(** Modelled from the spec: [ConcurrentDictionary::getProcess], the
    lookup of a process id. *)
Definition getProcess (pid : pid_t) : M (option loc) :=
  fun s => Some (trackedProcesses_ s !! pid, s).

(** Modelled from the spec: [ConcurrentDictionary::insert] stores the
    reference under the key.  (The tracker only inserts under a key it has
    just found absent or removed.) *)
Definition insert (key : pid_t) (value : loc) : M bool :=
  modify (fun s => setTracked (<[key := value]> (trackedProcesses_ s)) s);;
  ret true.

(** Modelled from the spec: [ConcurrentDictionary::insertProcess] stores
    a process under its own id. *)
Definition insertProcess (process : loc) : M bool :=
  pid ← getProcessId process; insert pid process.

(** Modelled from the spec: [ConcurrentDictionary::removeProcess] removes
    the mapping of a process id and reports whether there was one. *)
Definition removeProcess (pid : pid_t) : M bool :=
  fun s => Some (bool_decide (is_Some (trackedProcesses_ s !! pid)),
                 setTracked (delete pid (trackedProcesses_ s)) s).

(** Modelled from the spec: [ConcurrentDictionary::forEach] calls back
    on every entry; the entries visited are those present when the scan
    starts. *)
Fixpoint forEachEntry (callback : pid_t -> loc -> M unit)
    (entries : list (pid_t * loc)) : M unit :=
  match entries with
  | [] => ret tt
  | (key, value) :: rest => callback key value;; forEachEntry callback rest
  end.

Definition forEach (callback : pid_t -> loc -> M unit) : M unit :=
  fun s => forEachEntry callback (map_to_list (trackedProcesses_ s)) s.

(** Modelled from the spec: [ConcurrentMultiplexingQueue::removeQueues]
    (not part of the sources) releases all queues of a client and reports
    whether the client had any. *)
Definition removeQueues (key : pid_t) : M bool :=
  fun s => Some (bool_decide (is_Some (reportQueues_ s !! key)),
                 setQueues (delete key (reportQueues_ s)) s).

(** Modelled from the spec: [ConcurrentMultiplexingQueue::insertQueue]
    (not part of the sources) gives the client one more queue. *)
Definition insertQueue (key : pid_t) : M bool :=
  modify (fun s =>
    let owned := default 0%nat (reportQueues_ s !! key) in
    setQueues (<[key := S owned]> (reportQueues_ s)) s);;
  ret true.

(** *** [BuildXLSandbox] *)

Definition FindTrackedProcess (pid : pid_t) : M (option loc) := getProcess pid.

(** [UntrackProcess] on a pid and a process pointer.  ([retain] and
    [release] keep the object alive across the call; the store never
    frees.) *)
Definition UntrackProcess (pid : pid_t) (process : loc) : M unit :=
  removed ← removeProcess pid;
  if negb (removed : bool) then emit (ErrNotFoundInTracked pid)
  else
    decrementProcessTreeCount process;;
    empty ← hasEmptyProcessTree process;
    if (empty : bool) then emit (ReportProcessTreeCompleted process) else ret tt.

(** [UntrackProcess] on a pid and an expected pip id. *)
Definition UntrackProcessPip (pid : pid_t) (expectedPipId : pipid_t) : M bool :=
  found ← FindTrackedProcess pid;
  match (found : option loc) with
  | Some process =>
      pip ← getPipId process;
      if bool_decide (expectedPipId = -1) || bool_decide (pip = expectedPipId)
      then UntrackProcess pid process;; ret true
      else ret false
  | None => ret false
  end.

Definition TrackRootProcess (process : loc) : M bool :=
  pid ← getProcessId process;
  existingProcess ← getProcess pid;
  match (existingProcess : option loc) with
  | Some existing => UntrackProcess pid existing
  | None => ret tt
  end;;
  insertProcess process.

Definition TrackChildProcess (childPid : pid_t) (rootProcess : loc) : M bool :=
  existingProcess ← getProcess childPid;
  match (existingProcess : option loc) with
  | Some existing =>
      ePip ← getPipId existing;
      rPip ← getPipId rootProcess;
      eClient ← getClientPid existing;
      rClient ← getClientPid rootProcess;
      (if negb (bool_decide (ePip = rPip)) && negb (bool_decide (eClient = rClient))
       then emit (ErrChildMismatch existing rootProcess) else ret tt);;
      ret false
  | None =>
      insert childPid rootProcess;;
      incrementProcessTreeCount rootProcess;;
      ret true
  end.

(** The [forEach] callback of [FreeReportQueuesForClientProcess]; note
    that it removes the entry keyed by [ctxPid]. *)
Definition releaseCallback (ctxPid : pid_t) (key : pid_t) (value : loc) : M unit :=
  client ← getClientPid value;
  if bool_decide (client = ctxPid)
  then removeProcess ctxPid;; ret tt
  else ret tt.

Definition AllocateReportQueueForClientProcess (pid : pid_t) : M IOReturn :=
  success ← insertQueue pid;
  ret (if (success : bool) then kIOReturnSuccess else kIOReturnError).

Definition FreeReportQueuesForClientProcess (pid : pid_t) : M IOReturn :=
  success ← removeQueues pid;
  forEach (releaseCallback pid);;
  ret (if (success : bool) then kIOReturnSuccess else kIOReturnError).

(** *** Scenarios: a whole process tree *)

Definition getTrace : M (list Event) := fun s => Some (trace s, s).

Fixpoint trackChildren (children : list pid_t) (root : loc) : M unit :=
  match children with
  | [] => ret tt
  | child :: rest => TrackChildProcess child root;; trackChildren rest root
  end.

(** Untracks the given pids one by one (no expected pip id) and returns,
    for each call, the events that call emitted. *)
Fixpoint untrackEach (pids : list pid_t) : M (list (list Event)) :=
  match pids with
  | [] => ret []
  | pid :: rest =>
      before ← getTrace;
      UntrackProcessPip pid (-1);;
      after ← getTrace;
      more ← untrackEach rest;
      ret (drop (length (before : list Event)) (after : list Event) :: more)
  end.

(** Creates a root process, tracks it, links [children] to it, then
    untracks the pids of [order]. *)
Definition processTree (initialTreeCount : Z) (clientPid rootPid : pid_t)
    (pipId : pipid_t) (children order : list pid_t) : M (list (list Event)) :=
  root ← withPayload initialTreeCount clientPid rootPid pipId;
  TrackRootProcess root;;
  trackChildren children root;;
  untrackEach order.

(** Every tracked reference addresses a live object. *)
Definition wf (s : Sandbox) : Prop :=
  map_Forall (fun _ p => is_Some (heap s !! p)) (trackedProcesses_ s).

Global Instance wf_dec s : Decision (wf s).
Proof. unfold wf. apply _. Defined.

(** The state [UntrackProcess pid process] leaves behind when [pid] is
    tracked and [process] addresses [o]. *)
Definition untracked (pid : pid_t) (process : loc) (o : ProcessObject)
    (s : Sandbox) : Sandbox :=
  {| heap := <[process := setTreeCount (wrap32 (processTreeCount_ o - 1)) o]> (heap s);
     trackedProcesses_ := delete pid (trackedProcesses_ s);
     reportQueues_ := reportQueues_ s;
     trace := trace s ++
       (if bool_decide (wrap32 (processTreeCount_ o - 1) = 0)
        then [ReportProcessTreeCompleted process] else []) |}.

(** What each of [n] successive untrack calls emits when the shared
    object's count is [c] before the first of them. *)
Fixpoint expectedReports (root : loc) (c : Z) (n : nat) : list (list Event) :=
  match n with
  | O => []
  | S n' =>
      (if bool_decide (c - 1 = 0) then [ReportProcessTreeCompleted root] else [])
        :: expectedReports root (c - 1) n'
  end.

(** A state with two pips of client 7: root 100 (pip 55) with child 101,
    and root 200 (pip 66); the client owns one report queue. *)
Definition sampleSandbox : Sandbox :=
  {| heap := {[ 1%positive := mkProcessObject 7 100 55 2;
                2%positive := mkProcessObject 7 200 66 1 ]};
     trackedProcesses_ := {[ 100 := 1%positive; 101 := 1%positive; 200 := 2%positive ]};
     reportQueues_ := {[ 7 := 1%nat ]};
     trace := [] |}.

(** The same state after a nested client 8 created a root process object
    (pip 77) whose pid, 100, is still tracked for client 7. *)
Definition nestedSandbox : Sandbox :=
  setHeap (<[ 3%positive := mkProcessObject 8 100 77 1 ]> (heap sampleSandbox))
    sampleSandbox.

End Tracker.

(** ** The trie *)

Module Trie.

(** A value stored in a trie is a pointer to a retained [OSObject]; it is
    modelled by the address of the object, [None] being [nullptr].
    (Retain and release counts are not modelled.) *)
Definition OSObject := positive.

(** [Node]: an optional record and the array of children, whose length
    is [childrenLength_]. *)
#[local] Unset Elimination Schemes.
Inductive Node := mkNode {
  record_ : option OSObject;
  children_ : list (option Node)
}.
#[local] Set Elimination Schemes.

(** The length of the [children_] array. *)
Definition childrenLength_ (n : Node) : nat := length (children_ n).

Definition s_pathNodeChildrenCount : nat := 65.
Definition s_uintNodeChildrenCount : nat := 10.

(** Modelled from the spec: [Node::create] is defined in Trie.cpp, which
    is not part of the sources; a fresh node has no record and
    [numChildren] absent children.  Allocation never fails here. *)
Definition create (numChildren : nat) : Node :=
  mkNode None (replicate numChildren None).

Definition createUintNode : Node := create s_uintNodeChildrenCount.
Definition createPathNode : Node := create s_pathNodeChildrenCount.

Inductive TrieKind := kUintTrie | kPathTrie.

Global Instance TrieKind_eq_dec : EqDecision TrieKind.
Proof. solve_decision. Defined.

Inductive TrieResult :=
  | kTrieResultInserted
  | kTrieResultReplaced
  | kTrieResultRemoved
  | kTrieResultAlreadyEmpty
  | kTrieResultAlreadyExists
  | kTrieResultRace
  | kTrieResultFailure.

Global Instance TrieResult_eq_dec : EqDecision TrieResult.
Proof. solve_decision. Defined.

(** An [on_change_fn] together with its payload, by name. *)
Definition on_change_fn := nat.

(** [Trie]: the fields of the class, and [onChangeCalls], the history of
    invocations of the change callback with their (old, new) counts. *)
Record Trie := mkTrie {
  root_ : Node;
  kind_ : TrieKind;
  size_ : Z;
  onChangeCallback_ : option on_change_fn;
  onChangeCalls : list (on_change_fn * Z * Z)
}.

Definition setRoot (r : Node) (t : Trie) : Trie :=
  {| root_ := r; kind_ := kind_ t; size_ := size_ t;
     onChangeCallback_ := onChangeCallback_ t; onChangeCalls := onChangeCalls t |}.

Definition createNode (kind : TrieKind) : Node :=
  match kind with
  | kUintTrie => createUintNode
  | kPathTrie => createPathNode
  end.

(** Modelled from the spec: [Trie::create] / [init] (Trie.cpp) build an
    empty trie of the given kind: a root node, count 0, no callback. *)
Definition createTrie (kind : TrieKind) : Trie :=
  {| root_ := createNode kind; kind_ := kind; size_ := 0;
     onChangeCallback_ := None; onChangeCalls := [] |}.

Definition createUintTrie : Trie := createTrie kUintTrie.
Definition createPathTrie : Trie := createTrie kPathTrie.

Definition getCount (t : Trie) : Z := size_ t.

(** Modelled from the spec: [onChange] registers the callback. *)
Definition onChange (callback : on_change_fn) (t : Trie) : bool * Trie :=
  (true, {| root_ := root_ t; kind_ := kind_ t; size_ := size_ t;
            onChangeCallback_ := Some callback; onChangeCalls := onChangeCalls t |}).

(** Modelled from the spec: "invokes the [onChangeCallback_] if it's set
    and [newCount] is different from [oldCount]". *)
Definition triggerOnChange (oldCount newCount : Z) (t : Trie) : Trie :=
  match onChangeCallback_ t with
  | Some callback =>
      if bool_decide (newCount = oldCount) then t
      else {| root_ := root_ t; kind_ := kind_ t; size_ := size_ t;
              onChangeCallback_ := onChangeCallback_ t;
              onChangeCalls := onChangeCalls t ++ [(callback, oldCount, newCount)] |}
  | None => t
  end.

(** Modelled from the spec: the atomic update of the [uint] counter
    followed by the change notification. *)
Definition setSize (newCount : Z) (t : Trie) : Trie :=
  triggerOnChange (size_ t) newCount
    {| root_ := root_ t; kind_ := kind_ t; size_ := newCount;
       onChangeCallback_ := onChangeCallback_ t; onChangeCalls := onChangeCalls t |}.

Definition incrementSize (t : Trie) : Trie := setSize (wrapu32 (size_ t + 1)) t.
Definition decrementSize (t : Trie) : Trie := setSize (wrapu32 (size_ t - 1)) t.

(** *** Nodes inside the tree

    Every node has exactly one parent, so a [Node*] handed out by a
    traversal is modelled by the node's address: the child indices
    leading to it from the root.  [None] is [nullptr]. *)
Definition NodePtr := option (list nat).

Fixpoint nodeAt (a : list nat) (n : Node) : option Node :=
  match a with
  | [] => Some n
  | i :: a' =>
      match children_ n !! i with
      | Some (Some c) => nodeAt a' c
      | _ => None
      end
  end.

Definition recordAt (a : list nat) (n : Node) : option OSObject :=
  match nodeAt a n with
  | Some m => record_ m
  | None => None
  end.

(** Stores [r] in the [record_] field of the node at address [a]. *)
Fixpoint setRecordAt (a : list nat) (r : option OSObject) (n : Node) : Node :=
  match a with
  | [] => mkNode r (children_ n)
  | i :: a' =>
      match children_ n !! i with
      | Some (Some c) =>
          mkNode (record_ n) (<[i := Some (setRecordAt a' r c)]> (children_ n))
      | _ => n
      end
  end.

(** Modelled from the spec: [ensureChildNodeExists] (Trie.cpp); by its
    documentation [idx] "must be between 0 (inclusive) and [node.length()]
    (exclusive); otherwise this method returns false", and otherwise a
    child is created at [idx] unless one is there.  The result is the
    node afterwards, [None] standing for [false]. *)
Definition ensureChildNodeExists (kind : TrieKind) (node : Node) (idx : Z) : option Node :=
  if (idx <? 0) || (Z.of_nat (childrenLength_ node) <=? idx) then None
  else
    match children_ node !! Z.to_nat idx with
    | Some (Some _) => Some node
    | _ => Some (mkNode (record_ node)
                   (<[Z.to_nat idx := Some (createNode kind)]> (children_ node)))
    end.

(** Modelled from the spec: the traversal shared by [findUintNode] and
    [findPathNode] (Trie.cpp): one key symbol per level, "creating new
    nodes as necessary"; as soon as a symbol has no slot the traversal
    returns [nullptr], the nodes created so far staying in the tree.
    Returns the subtree afterwards and the address of the node reached. *)
Fixpoint findNode (kind : TrieKind) (idxs : list Z) (node : Node) : Node * NodePtr :=
  match idxs with
  | [] => (node, Some [])
  | idx :: rest =>
      match ensureChildNodeExists kind node idx with
      | None => (node, None)
      | Some node' =>
          let i := Z.to_nat idx in
          match children_ node' !! i with
          | Some (Some child) =>
              let '(child', found) := findNode kind rest child in
              (mkNode (record_ node') (<[i := Some child']> (children_ node')),
               (fun a => i :: a) <$> found)
          | _ => (node', None)
          end
      end
  end.

(** *** Keys *)

(** The characters of a C string: those before the first NUL, each as
    the [int] value of a (signed) [char]. *)
Definition charToInt (c : ascii) : Z :=
  let z := Z.of_nat (nat_of_ascii c) in
  if z <? 128 then z else z - 256.

Fixpoint c_str (s : string) : list Z :=
  match s with
  | EmptyString => []
  | String c rest => if bool_decide (charToInt c = 0) then [] else charToInt c :: c_str rest
  end.

Definition toupper (ch : Z) : Z :=
  if (97 <=? ch) && (ch <=? 122) then ch - 32 else ch.

(** [toupper(ch) - 32], the index of a path character. *)
Definition pathIndex (ch : Z) : Z := toupper ch - 32.

(** Modelled from the spec: the symbols of an integer key are its
    decimal digits (fan-out 10), here least significant first; the order
    is not fixed by the spec and nothing below depends on it.  A
    [uint64_t] has at most 20 digits. *)
Fixpoint uintDigits (fuel : nat) (key : Z) : list Z :=
  match fuel with
  | O => []
  | S fuel' =>
      key mod 10 :: (if key <? 10 then [] else uintDigits fuel' (key / 10))
  end.

(** Modelled from the spec: [findUintNode] (Trie.cpp) traverses the
    digits of the key. *)
Definition findUintNode (key : Z) (t : Trie) : NodePtr * Trie :=
  let '(root', found) := findNode (kind_ t) (uintDigits 20 key) (root_ t) in
  (found, setRoot root' t).

(** Modelled from the spec: [findPathNode] (Trie.cpp) traverses the
    characters of the path, each addressed by [toupper(ch) - 32]. *)
Definition findPathNode (key : string) (t : Trie) : NodePtr * Trie :=
  let '(root', found) := findNode (kind_ t) (pathIndex <$> c_str key) (root_ t) in
  (found, setRoot root' t).

(** *** Node-level operations

    Their bodies are in Trie.cpp, which is not part of the sources; each
    definition follows the documentation of its declaration in Trie.hpp.
    Calls made one after the other never observe [kTrieResultRace]. *)

(** Modelled from the spec: [get] on a node "returns the record
    associated with [node] or NULL if either [node] is NULL or no record
    is associated with it". *)
Definition getNode (node : NodePtr) (t : Trie) : option OSObject :=
  match node with
  | Some a => recordAt a (root_ t)
  | None => None
  end.

Definition storeRecord (a : list nat) (r : option OSObject) (t : Trie) : Trie :=
  setRoot (setRecordAt a r (root_ t)) t.

(** Modelled from the spec: [insert] on a node associates [value] with
    it "ONLY if no value is already associated"; failure "if either
    [node] or [value] is NULL". *)
Definition insertNode (node : NodePtr) (value : option OSObject) (t : Trie)
    : TrieResult * Trie :=
  match node, value with
  | Some a, Some v =>
      match recordAt a (root_ t) with
      | Some _ => (kTrieResultAlreadyExists, t)
      | None => (kTrieResultInserted, incrementSize (storeRecord a (Some v) t))
      end
  | _, _ => (kTrieResultFailure, t)
  end.

(** Modelled from the spec: [replace] on a node; without a previous
    record it "increments size, and returns [kTrieResultInserted]", with
    one it "releases the previous record, and returns
    [kTrieResultReplaced]". *)
Definition replaceNode (node : NodePtr) (value : option OSObject) (t : Trie)
    : TrieResult * Trie :=
  match node, value with
  | Some a, Some v =>
      match recordAt a (root_ t) with
      | Some _ => (kTrieResultReplaced, storeRecord a (Some v) t)
      | None => (kTrieResultInserted, incrementSize (storeRecord a (Some v) t))
      end
  | _, _ => (kTrieResultFailure, t)
  end.

(** Modelled from the spec: [remove] on a node; with a record it
    "releases that record, decrements the size, and returns
    [kTrieResultRemoved]", without one [kTrieResultAlreadyEmpty]. *)
Definition removeNode (node : NodePtr) (t : Trie) : TrieResult * Trie :=
  match node with
  | Some a =>
      match recordAt a (root_ t) with
      | Some _ => (kTrieResultRemoved, decrementSize (storeRecord a None t))
      | None => (kTrieResultAlreadyEmpty, t)
      end
  | None => (kTrieResultFailure, t)
  end.

(** The factory is a function of its argument that produces the address
    of a new object. *)
Definition factory_fn := positive -> OSObject.

(** Modelled from the spec: [makeSentinel] gives the node a record made
    by the factory unless it has one ([kTrieResultAlreadyExists]). *)
Definition makeSentinel (a : list nat) (factoryArgs : positive) (factory : factory_fn)
    (t : Trie) : TrieResult * Trie :=
  match recordAt a (root_ t) with
  | Some _ => (kTrieResultAlreadyExists, t)
  | None => (kTrieResultInserted,
             incrementSize (storeRecord a (Some (factory factoryArgs)) t))
  end.

(** Modelled from the spec: [getOrAdd] on a node returns "the record
    associated with [node] or NULL if [node] is NULL"; the second
    component is what is written to [*result] ([None]: nothing). *)
Definition getOrAddNode (node : NodePtr) (factoryArgs : positive) (factory : factory_fn)
    (t : Trie) : option OSObject * option TrieResult * Trie :=
  match node with
  | Some a =>
      let '(result, t') := makeSentinel a factoryArgs factory t in
      (recordAt a (root_ t'), Some result, t')
  | None => (None, None, t)
  end.

(** *** Methods for path keys *)

Definition getPath (path : string) (t : Trie) : option OSObject * Trie :=
  if bool_decide (kind_ t <> kPathTrie) then (None, t)
  else let '(node, t') := findPathNode path t in (getNode node t', t').

(** [getAs<T>]: [isT] is the dynamic type test of [OSDynamicCast(T, _)]. *)
Definition getAsPath (isT : OSObject -> bool) (key : string) (t : Trie)
    : option OSObject * Trie :=
  if bool_decide (kind_ t <> kPathTrie) then (None, t)
  else let '(value, t') := getPath key t in
       (match value with
        | Some v => if isT v then Some v else None
        | None => None
        end, t').

Definition getOrAddPath (path : string) (factoryArgs : positive) (factory : factory_fn)
    (t : Trie) : option OSObject * option TrieResult * Trie :=
  if bool_decide (kind_ t <> kPathTrie) then (None, None, t)
  else let '(node, t') := findPathNode path t in
       getOrAddNode node factoryArgs factory t'.

Definition replacePath (path : string) (value : option OSObject) (t : Trie)
    : TrieResult * Trie :=
  if bool_decide (kind_ t <> kPathTrie) then (kTrieResultFailure, t)
  else let '(node, t') := findPathNode path t in replaceNode node value t'.

Definition insertPath (path : string) (value : option OSObject) (t : Trie)
    : TrieResult * Trie :=
  if bool_decide (kind_ t <> kPathTrie) then (kTrieResultFailure, t)
  else let '(node, t') := findPathNode path t in insertNode node value t'.

Definition removePath (key : string) (t : Trie) : TrieResult * Trie :=
  if bool_decide (kind_ t <> kPathTrie) then (kTrieResultFailure, t)
  else let '(node, t') := findPathNode key t in removeNode node t'.

(** *** Methods for uint keys *)

Definition getUint (key : Z) (t : Trie) : option OSObject * Trie :=
  if bool_decide (kind_ t <> kUintTrie) then (None, t)
  else let '(node, t') := findUintNode key t in (getNode node t', t').

Definition getAsUint (isT : OSObject -> bool) (key : Z) (t : Trie)
    : option OSObject * Trie :=
  if bool_decide (kind_ t <> kUintTrie) then (None, t)
  else let '(value, t') := getUint key t in
       (match value with
        | Some v => if isT v then Some v else None
        | None => None
        end, t').

Definition getOrAddUint (key : Z) (factoryArgs : positive) (factory : factory_fn)
    (t : Trie) : option OSObject * option TrieResult * Trie :=
  if bool_decide (kind_ t <> kUintTrie) then (None, None, t)
  else let '(node, t') := findUintNode key t in
       getOrAddNode node factoryArgs factory t'.

Definition replaceUint (key : Z) (value : option OSObject) (t : Trie)
    : TrieResult * Trie :=
  if bool_decide (kind_ t <> kUintTrie) then (kTrieResultFailure, t)
  else let '(node, t') := findUintNode key t in replaceNode node value t'.

Definition insertUint (key : Z) (value : option OSObject) (t : Trie)
    : TrieResult * Trie :=
  if bool_decide (kind_ t <> kUintTrie) then (kTrieResultFailure, t)
  else let '(node, t') := findUintNode key t in insertNode node value t'.

Definition removeUint (key : Z) (t : Trie) : TrieResult * Trie :=
  if bool_decide (kind_ t <> kUintTrie) then (kTrieResultFailure, t)
  else let '(node, t') := findUintNode key t in removeNode node t'.

(** *** Whole-tree operations *)

(** The stored values with the addresses of their nodes, in pre-order:
    what a traversal of the whole trie visits. *)
Fixpoint entries (n : Node) : list (list nat * OSObject) :=
  match n with
  | mkNode r cs =>
      (match r with Some v => [([], v)] | None => [] end) ++
      (fix children (i : nat) (cs : list (option Node)) :=
         match cs with
         | [] => []
         | c :: cs' =>
             (match c with
              | Some m => (fun e => (i :: fst e, snd e)) <$> entries m
              | None => []
              end) ++ children (S i) cs'
         end) O cs
  end.

Definition recordEntry (r : option OSObject) : list (list nat * OSObject) :=
  match r with Some v => [([], v)] | None => [] end.

Definition childEntries (i : nat) (c : option Node) : list (list nat * OSObject) :=
  match c with
  | Some m => (fun e => (i :: fst e, snd e)) <$> entries m
  | None => []
  end.

Fixpoint childrenEntries (i : nat) (cs : list (option Node))
    : list (list nat * OSObject) :=
  match cs with
  | [] => []
  | c :: cs' => childEntries i c ++ childrenEntries (S i) cs'
  end.

(** Modelled from the spec: [removeMatching] (Trie.cpp) "removes all the
    entries matching a given filter"; it visits the nodes in pre-order and
    removes the record of each node whose value satisfies the filter. *)
Definition removeMatching (filter : OSObject -> bool) (t : Trie) : Trie :=
  foldl (fun t e => if filter (snd e) then snd (removeNode (Some (fst e)) t) else t)
        t (entries (root_ t)).

(** The number of sentinel nodes (nodes holding a value) below [n]. *)
Fixpoint sentinels (n : Node) : nat :=
  match n with
  | mkNode r cs =>
      ((match r with Some _ => 1 | None => 0 end) +
       (fix children (cs : list (option Node)) :=
          match cs with
          | [] => 0
          | c :: cs' =>
              (match c with Some m => sentinels m | None => 0 end) + children cs'
          end) cs)%nat
  end.

Definition hasRecord (r : option OSObject) : nat :=
  match r with Some _ => 1%nat | None => 0%nat end.

Definition childSentinels (c : option Node) : nat :=
  match c with Some m => sentinels m | None => 0%nat end.

(** Every node has the fan-out of its kind. *)
Fixpoint NodeOk (numChildren : nat) (n : Node) : bool :=
  match n with
  | mkNode r cs =>
      bool_decide (length cs = numChildren) &&
      forallb (fun c => match c with Some m => NodeOk numChildren m | None => true end) cs
  end.

Definition childOk (numChildren : nat) (c : option Node) : bool :=
  match c with Some m => NodeOk numChildren m | None => true end.

Definition inRange (k : nat) (idx : Z) : bool := (0 <=? idx) && (idx <? Z.of_nat k).

Definition childrenCount (kind : TrieKind) : nat :=
  match kind with
  | kUintTrie => s_uintNodeChildrenCount
  | kPathTrie => s_pathNodeChildrenCount
  end.

(** The invariant of a trie: nodes have the fan-out of the trie's kind,
    and the [uint] counter is the number of stored values. *)
Definition TrieOk (t : Trie) : Prop :=
  NodeOk (childrenCount (kind_ t)) (root_ t) = true /\
  size_ t = wrapu32 (Z.of_nat (sentinels (root_ t))).

Global Instance TrieOk_dec t : Decision (TrieOk t).
Proof. unfold TrieOk. apply _. Defined.

(** How a call changes the count: [t'] still satisfies the invariant,
    the number of stored values and the counter moved by [d], and the
    callback, if one is registered, was invoked once with the old and the
    new count if they differ, and not at all otherwise. *)
Definition countChange (t t' : Trie) (d : Z) : Prop :=
  TrieOk t' /\
  kind_ t' = kind_ t /\
  onChangeCallback_ t' = onChangeCallback_ t /\
  Z.of_nat (sentinels (root_ t')) = Z.of_nat (sentinels (root_ t)) + d /\
  getCount t' = wrapu32 (getCount t + d) /\
  onChangeCalls t' = onChangeCalls t ++
    match onChangeCallback_ t with
    | Some callback =>
        if bool_decide (getCount t' = getCount t) then []
        else [(callback, getCount t, getCount t')]
    | None => []
    end.

(** [t1] is [t] after a traversal: possibly more (empty) nodes, but the
    same kind, counter, callback and callback history, and the same
    stored values under the same keys. *)
Definition sameStore (t t1 : Trie) : Prop :=
  kind_ t1 = kind_ t /\ size_ t1 = size_ t /\
  onChangeCallback_ t1 = onChangeCallback_ t /\
  onChangeCalls t1 = onChangeCalls t /\
  NodeOk (childrenCount (kind_ t)) (root_ t1) = true /\
  sentinels (root_ t1) = sentinels (root_ t) /\
  (forall a, recordAt a (root_ t1) = recordAt a (root_ t)) /\
  entries (root_ t1) = entries (root_ t).

(** The address a key spells out, when every index has a slot. *)
Definition keyAddress (kind : TrieKind) (idxs : list Z) : NodePtr :=
  if forallb (inRange (childrenCount kind)) idxs then Some (Z.to_nat <$> idxs) else None.

(** The bytes a path node has a slot for. *)
Definition addressable (ch : Z) : Prop := 32 <= ch <= 122.

(** Equality of two characters up to ASCII case. *)
Definition caseEqChar (a b : Z) : Prop :=
  a = b \/ (65 <= a <= 90 /\ b = a + 32) \/ (65 <= b <= 90 /\ a = b + 32).

Definition caseEq (p q : string) : Prop := Forall2 caseEqChar (c_str p) (c_str q).

(** Further [getOrAdd] calls on one key, each with its own factory and
    argument; the values they return. *)
Fixpoint getOrAddEach {K : Type}
    (getOrAdd : K -> positive -> (positive -> OSObject) -> Trie ->
                option OSObject * option TrieResult * Trie)
    (key : K) (factories : list (positive * (positive -> OSObject))) (t : Trie)
    : list (option OSObject) :=
  match factories with
  | [] => []
  | (args, factory) :: rest =>
      let res := getOrAdd key args factory t in
      fst (fst res) :: getOrAddEach getOrAdd key rest (snd res)
  end.

(** *** Calls of the public interface *)

Inductive Call :=
  | CallGetPath (path : string)
  | CallGetOrAddPath (path : string) (factoryArgs : positive) (factory : factory_fn)
  | CallReplacePath (path : string) (value : option OSObject)
  | CallInsertPath (path : string) (value : option OSObject)
  | CallRemovePath (path : string)
  | CallGetUint (key : Z)
  | CallGetOrAddUint (key : Z) (factoryArgs : positive) (factory : factory_fn)
  | CallReplaceUint (key : Z) (value : option OSObject)
  | CallInsertUint (key : Z) (value : option OSObject)
  | CallRemoveUint (key : Z)
  | CallRemoveMatching (filter : OSObject -> bool)
  | CallOnChange (callback : on_change_fn).

(** What a call returns: a result code, a value, a value together
    with what was written to [*result], or nothing. *)
Inductive Outcome :=
  | Result (r : TrieResult)
  | Value (v : option OSObject)
  | Added (v : option OSObject) (r : option TrieResult)
  | Done.

(** The change of occupancy an outcome reports. *)
Definition delta (o : Outcome) : Z :=
  match o with
  | Result kTrieResultInserted | Added _ (Some kTrieResultInserted) => 1
  | Result kTrieResultRemoved => -1
  | _ => 0
  end.

(** The calls that address a single key. *)
Definition singleKey (c : Call) : bool :=
  match c with
  | CallRemoveMatching _ | CallOnChange _ => false
  | _ => true
  end.

Definition run (c : Call) (t : Trie) : Outcome * Trie :=
  match c with
  | CallGetPath p => let '(v, t') := getPath p t in (Value v, t')
  | CallGetOrAddPath p a f => let '(v, r, t') := getOrAddPath p a f t in (Added v r, t')
  | CallReplacePath p v => let '(r, t') := replacePath p v t in (Result r, t')
  | CallInsertPath p v => let '(r, t') := insertPath p v t in (Result r, t')
  | CallRemovePath p => let '(r, t') := removePath p t in (Result r, t')
  | CallGetUint k => let '(v, t') := getUint k t in (Value v, t')
  | CallGetOrAddUint k a f => let '(v, r, t') := getOrAddUint k a f t in (Added v r, t')
  | CallReplaceUint k v => let '(r, t') := replaceUint k v t in (Result r, t')
  | CallInsertUint k v => let '(r, t') := insertUint k v t in (Result r, t')
  | CallRemoveUint k => let '(r, t') := removeUint k t in (Result r, t')
  | CallRemoveMatching f => (Done, removeMatching f t)
  | CallOnChange cb => (Done, snd (onChange cb t))
  end.

Definition runAll (calls : list Call) (t : Trie) : Trie :=
  foldl (fun t c => snd (run c t)) t calls.

End Trie.

(** ** The size of a report queue *)

Module ReportQueue.

(** [SetReportQueueSize]: the new value of [reportQueueSize_], a
    [UInt32] number of megabytes.  The constants
    [kSharedDataQueueSizeMax] and [kSharedDataQueueSizeDefault] are
    declared outside the sources and are parameters here. *)
Definition SetReportQueueSize (kSharedDataQueueSizeMax kSharedDataQueueSizeDefault : Z)
    (reportQueueSize : Z) : Z :=
  if bool_decide (reportQueueSize = 0) || (kSharedDataQueueSizeMax <? reportQueueSize)
  then kSharedDataQueueSizeDefault
  else reportQueueSize.

(** [GetReportQueueEntryCount]:
    [(reportQueueSize_ * 1024 * 1024) / sizeof(AccessReport)].  The
    product is formed in [UInt32] arithmetic, the quotient is returned as
    a [UInt32]; [sizeofAccessReport] is the size of the record, declared
    outside the sources. *)
Definition GetReportQueueEntryCount (sizeofAccessReport : Z) (reportQueueSize_ : Z) : Z :=
  wrapu32 (wrapu32 (wrapu32 (reportQueueSize_ * 1024) * 1024) / sizeofAccessReport).

End ReportQueue.

(** ** Calls on the tracker *)

Module TrackerCalls.
Import Tracker.

(** The entry points of the tracker, as calls. *)
Inductive TrackerCall :=
  | CallWithPayload (initialTreeCount : Z) (clientPid processPid : pid_t) (pipId : pipid_t)
  | CallTrackRoot (process : loc)
  | CallTrackChild (childPid : pid_t) (rootProcess : loc)
  | CallUntrack (pid : pid_t) (expectedPipId : pipid_t)
  | CallAllocateQueue (clientPid : pid_t)
  | CallFreeQueues (clientPid : pid_t).



(** The process pointers a call is given address live objects. *)
Definition argsLive (c : TrackerCall) (s : Sandbox) : Prop :=
  match c with
  | CallTrackRoot p => is_Some (heap s !! p)
  | CallTrackChild _ root => is_Some (heap s !! root)
  | _ => True
  end.

Global Instance argsLive_dec c s : Decision (argsLive c s).
Proof. destruct c; simpl; apply _. Defined.


(** Some tracked entry belongs to the client. *)
Definition ownsTracked (s : Sandbox) (clientPid : pid_t) : Prop :=
  exists key p o,
    trackedProcesses_ s !! key = Some p /\ heap s !! p = Some o /\
    clientPid_ o = clientPid.


End TrackerCalls.

(** ** Keys of calls *)

Module TrieCalls.
Import Trie.

(** The path a call addresses, if it is a call on a path key. *)
Definition pathKey (c : Call) : option string :=
  match c with
  | CallGetPath p | CallGetOrAddPath p _ _ | CallReplacePath p _
  | CallInsertPath p _ | CallRemovePath p => Some p
  | _ => None
  end.

(** The integer a call addresses, if it is a call on an integer key. *)
Definition uintKey (c : Call) : option Z :=
  match c with
  | CallGetUint k | CallGetOrAddUint k _ _ | CallReplaceUint k _
  | CallInsertUint k _ | CallRemoveUint k => Some k
  | _ => None
  end.

(** One step of [removeMatching]: the entry is removed when its value
    satisfies the filter. *)
Definition removeStep (filter : OSObject -> bool) (t : Trie) (e : list nat * OSObject)
    : Trie :=
  if filter (snd e) then snd (removeNode (Some (fst e)) t) else t.

End TrieCalls.

(** ** Loading and unloading the extension *)

Module Lifecycle.

(** <mach/kern_return.h> *)
Definition kern_return_t := Z.
Definition KERN_SUCCESS : kern_return_t := 0.
Definition KERN_FAILURE : kern_return_t := 5.

Definition mac_policy_handle_t := Z.

Inductive Scope := KAUTH_SCOPE_VNODE | KAUTH_SCOPE_FILEOP.

Global Instance Scope_eq_dec : EqDecision Scope.
Proof. solve_decision. Defined.

(** The calls [init] and [free] make outside the class, each with what
    it returned, and the [log_error] lines.  A pointer is the address of
    its object, [None] being [nullptr].  ([log_debug] lines are
    diagnostics only and are not recorded.) *)
Inductive KernelEvent :=
  | SuperInit (ok : bool)
  | SuperFree
  | IORecursiveLockAlloc (lock : option positive)
  | IORecursiveLockFree (lock : positive)
  | CreateQueues (queues : option positive)
  | CreateDictionary (dictionary : option positive)
  | Release (object : positive)
  | mac_policy_register (status : kern_return_t) (handle : mac_policy_handle_t)
  | mac_policy_unregister (handle : mac_policy_handle_t)
  | kauth_listen_scope (scope : Scope) (listener : option positive)
  | kauth_unlisten_scope (listener : positive)
  | ErrPolicyRegistration (status : kern_return_t)
  | ErrListenScope (scope : Scope).

(** What the kernel answers during one [init]: whether [super::init]
    succeeds, the lock and the two containers allocated, the status of
    [mac_policy_register] with the value it leaves in the handle, and the
    two listeners. *)
Record Env := mkEnv {
  superInitOk : bool;
  lockAlloc : option positive;
  queuesCreate : option positive;
  dictionaryCreate : option positive;
  policyStatus : kern_return_t;
  policyHandle : mac_policy_handle_t;
  vnodeListen : option positive;
  fileOpListen : option positive
}.

(** The fields of [BuildXLSandbox] that [init] and [free] touch, and the
    history of their outside calls. *)
Record Driver := mkDriver {
  lock_ : option positive;
  reportQueueSize_ : Z;
  reportQueues_ : option positive;
  trackedProcesses_ : option positive;
  policyHandle_ : mac_policy_handle_t;
  buildxlVnodeListener_ : option positive;
  buildxlFileOpListener_ : option positive;
  events : list KernelEvent
}.

(** A newly allocated object: [OSObject::operator new] zero-fills it. *)
Definition allocated : Driver :=
  mkDriver None 0 None None 0 None None [].

Definition logEvent (e : KernelEvent) (d : Driver) : Driver :=
  mkDriver (lock_ d) (reportQueueSize_ d) (reportQueues_ d) (trackedProcesses_ d)
    (policyHandle_ d) (buildxlVnodeListener_ d) (buildxlFileOpListener_ d)
    (events d ++ [e]).

Definition setLock (l : option positive) (d : Driver) : Driver :=
  mkDriver l (reportQueueSize_ d) (reportQueues_ d) (trackedProcesses_ d)
    (policyHandle_ d) (buildxlVnodeListener_ d) (buildxlFileOpListener_ d) (events d).

Definition setReportQueueSize (n : Z) (d : Driver) : Driver :=
  mkDriver (lock_ d) n (reportQueues_ d) (trackedProcesses_ d)
    (policyHandle_ d) (buildxlVnodeListener_ d) (buildxlFileOpListener_ d) (events d).

Definition setReportQueues (q : option positive) (d : Driver) : Driver :=
  mkDriver (lock_ d) (reportQueueSize_ d) q (trackedProcesses_ d)
    (policyHandle_ d) (buildxlVnodeListener_ d) (buildxlFileOpListener_ d) (events d).

Definition setTrackedProcesses (t : option positive) (d : Driver) : Driver :=
  mkDriver (lock_ d) (reportQueueSize_ d) (reportQueues_ d) t
    (policyHandle_ d) (buildxlVnodeListener_ d) (buildxlFileOpListener_ d) (events d).

Definition setPolicyHandle (h : mac_policy_handle_t) (d : Driver) : Driver :=
  mkDriver (lock_ d) (reportQueueSize_ d) (reportQueues_ d) (trackedProcesses_ d)
    h (buildxlVnodeListener_ d) (buildxlFileOpListener_ d) (events d).

Definition setVnodeListener (l : option positive) (d : Driver) : Driver :=
  mkDriver (lock_ d) (reportQueueSize_ d) (reportQueues_ d) (trackedProcesses_ d)
    (policyHandle_ d) l (buildxlFileOpListener_ d) (events d).

Definition setFileOpListener (l : option positive) (d : Driver) : Driver :=
  mkDriver (lock_ d) (reportQueueSize_ d) (reportQueues_ d) (trackedProcesses_ d)
    (policyHandle_ d) (buildxlVnodeListener_ d) l (events d).

(** [InitializePolicyStructures]: [policyHandle_ = {0}].  (It also
    fills the tables of callbacks handed to [mac_policy_register] and sets
    [Listeners::g_dispatcher]; neither is read by [init] or [free].) *)
Definition InitializePolicyStructures (d : Driver) : Driver :=
  setPolicyHandle 0 d.

(** [InitializeListeners]: the policy, then the vnode listener, then the
    file-operation listener; the first failure returns at once. *)
Definition InitializeListeners (env : Env) (d : Driver) : kern_return_t * Driver :=
  let d := InitializePolicyStructures d in
  let status := policyStatus env in
  let d := setPolicyHandle (policyHandle env)
             (logEvent (mac_policy_register status (policyHandle env)) d) in
  if bool_decide (status <> KERN_SUCCESS) then
    (status, logEvent (ErrPolicyRegistration status) d)
  else
    let d := setVnodeListener (vnodeListen env)
               (logEvent (kauth_listen_scope KAUTH_SCOPE_VNODE (vnodeListen env)) d) in
    if bool_decide (buildxlVnodeListener_ d = None) then
      (KERN_FAILURE, logEvent (ErrListenScope KAUTH_SCOPE_VNODE) d)
    else
      let d := setFileOpListener (fileOpListen env)
                 (logEvent (kauth_listen_scope KAUTH_SCOPE_FILEOP (fileOpListen env)) d) in
      if bool_decide (buildxlFileOpListener_ d = None) then
        (KERN_FAILURE, logEvent (ErrListenScope KAUTH_SCOPE_FILEOP) d)
      else (KERN_SUCCESS, d).

(** [UninitializeListeners]: each listener that is set is removed and its
    field cleared; [mac_policy_unregister] is called in every case. *)
Definition UninitializeListeners (d : Driver) : Driver :=
  let d := match buildxlVnodeListener_ d with
           | Some l => setVnodeListener None (logEvent (kauth_unlisten_scope l) d)
           | None => d
           end in
  let d := match buildxlFileOpListener_ d with
           | Some l => setFileOpListener None (logEvent (kauth_unlisten_scope l) d)
           | None => d
           end in
  logEvent (mac_policy_unregister (policyHandle_ d)) d.

(** [init]; [kSharedDataQueueSizeDefault] is declared outside the
    sources and is a parameter here. *)
Definition init (kSharedDataQueueSizeDefault : Z) (env : Env) (d : Driver)
    : bool * Driver :=
  let d := logEvent (SuperInit (superInitOk env)) d in
  if negb (superInitOk env) then (false, d)
  else
    let d := setLock (lockAlloc env) (logEvent (IORecursiveLockAlloc (lockAlloc env)) d) in
    if bool_decide (lock_ d = None) then (false, d)
    else
      let d := setReportQueueSize kSharedDataQueueSizeDefault d in
      let d := setReportQueues (queuesCreate env)
                 (logEvent (CreateQueues (queuesCreate env)) d) in
      if bool_decide (reportQueues_ d = None) then (false, d)
      else
        let d := setTrackedProcesses (dictionaryCreate env)
                   (logEvent (CreateDictionary (dictionaryCreate env)) d) in
        if bool_decide (trackedProcesses_ d = None) then (false, d)
        else
          let '(result, d) := InitializeListeners env d in
          if bool_decide (result <> KERN_SUCCESS) then (false, d)
          else (true, d).

(** [free]: the listeners, the lock, then [OSSafeReleaseNULL] of the two
    containers: each is released if set, and its field cleared. *)
Definition free (d : Driver) : Driver :=
  let d := UninitializeListeners d in
  let d := match lock_ d with
           | Some l => setLock None (logEvent (IORecursiveLockFree l) d)
           | None => d
           end in
  let d := match trackedProcesses_ d with
           | Some o => setTrackedProcesses None (logEvent (Release o) d)
           | None => d
           end in
  let d := match reportQueues_ d with
           | Some o => setReportQueues None (logEvent (Release o) d)
           | None => d
           end in
  logEvent SuperFree d.

(** *** Resources *)

Inductive Resource :=
  | Lock (l : positive)
  | Object (o : positive)
  | Policy (h : mac_policy_handle_t)
  | Listener (l : positive).

Global Instance Resource_eq_dec : EqDecision Resource.
Proof. solve_decision. Defined.

(** What an outside call acquired. *)
Definition acquires (e : KernelEvent) : list Resource :=
  match e with
  | IORecursiveLockAlloc (Some l) => [Lock l]
  | CreateQueues (Some o) | CreateDictionary (Some o) => [Object o]
  | mac_policy_register status h =>
      if bool_decide (status = KERN_SUCCESS) then [Policy h] else []
  | kauth_listen_scope _ (Some l) => [Listener l]
  | _ => []
  end.

(** What an outside call gave back. *)
Definition releases (e : KernelEvent) : list Resource :=
  match e with
  | IORecursiveLockFree l => [Lock l]
  | Release o => [Object o]
  | mac_policy_unregister h => [Policy h]
  | kauth_unlisten_scope l => [Listener l]
  | _ => []
  end.

Definition acquired (es : list KernelEvent) : list Resource := es ≫= acquires.
Definition released (es : list KernelEvent) : list Resource := es ≫= releases.

(** Whether every step of [init] succeeds in [env]. *)
Definition allSucceed (env : Env) : bool :=
  superInitOk env && bool_decide (is_Some (lockAlloc env)) &&
  bool_decide (is_Some (queuesCreate env)) &&
  bool_decide (is_Some (dictionaryCreate env)) &&
  bool_decide (policyStatus env = KERN_SUCCESS) &&
  bool_decide (is_Some (vnodeListen env)) &&
  bool_decide (is_Some (fileOpListen env)).

(** Whether [init] gets a policy registered in [env]. *)
Definition policyRegistered (env : Env) : bool :=
  superInitOk env && bool_decide (is_Some (lockAlloc env)) &&
  bool_decide (is_Some (queuesCreate env)) &&
  bool_decide (is_Some (dictionaryCreate env)) &&
  bool_decide (policyStatus env = KERN_SUCCESS).

End Lifecycle.

(** * Facts about the process tracker *)

Module TrackerFacts.
Import Tracker.

Lemma wrap32_id z : - 2 ^ 31 <= z < 2 ^ 31 -> wrap32 z = z.
Proof. intros H. unfold wrap32. rewrite Z.mod_small; lia. Qed.

Ltac munfold :=
  unfold UntrackProcessPip, UntrackProcess, TrackRootProcess, TrackChildProcess,
    FindTrackedProcess, insertProcess, insert, removeProcess, getProcess,
    decrementProcessTreeCount, incrementProcessTreeCount, hasEmptyProcessTree,
    getPipId, getClientPid, getProcessId, getProcessTreeCount, emit, modify,
    deref, ret, mret, mbind, M_ret, M_bind, getTrace in *.

Lemma UntrackProcess_tracked pid process o s :
  is_Some (trackedProcesses_ s !! pid) ->
  heap s !! process = Some o ->
  UntrackProcess pid process s = Some (tt, untracked pid process o s).
Proof.
  intros Hpid Ho. munfold. simpl.
  rewrite bool_decide_eq_true_2 by done. simpl.
  rewrite Ho. simpl. rewrite lookup_insert_eq. simpl.
  unfold untracked. case_bool_decide; simpl; [done|].
  by rewrite app_nil_r.
Qed.


Lemma UntrackProcessPip_found pid expectedPipId process o s :
  trackedProcesses_ s !! pid = Some process ->
  heap s !! process = Some o ->
  UntrackProcessPip pid expectedPipId s =
    if bool_decide (expectedPipId = -1) || bool_decide (pipId_ o = expectedPipId)
    then Some (true, untracked pid process o s)
    else Some (false, s).
Proof.
  intros Hpid Ho.
  assert (Hu := UntrackProcess_tracked pid process o s (mk_is_Some _ _ Hpid) Ho).
  unfold UntrackProcessPip, FindTrackedProcess, getProcess, getPipId, deref,
    ret, mret, mbind, M_ret, M_bind. simpl.
  rewrite Hpid. simpl. rewrite Ho. simpl.
  destruct (bool_decide (expectedPipId = -1) || bool_decide (pipId_ o = expectedPipId));
    [|done].
  by rewrite Hu.
Qed.

Lemma UntrackProcessPip_not_found pid expectedPipId s :
  trackedProcesses_ s !! pid = None ->
  UntrackProcessPip pid expectedPipId s = Some (false, s).
Proof.
  intros Hpid.
  unfold UntrackProcessPip, FindTrackedProcess, getProcess,
    ret, mret, mbind, M_ret, M_bind. simpl.
  by rewrite Hpid.
Qed.

(** C4. [untrack(pid, expectedTreeId)] unlinks exactly when [pid] is
    tracked and either no expectation is given ([-1]) or the entity's pip
    id equals the expectation.  It then removes the mapping for [pid],
    decrements the entity's tree count and returns [true]; otherwise it
    returns [false] and leaves the state as it was. *)
Theorem UntrackProcessPip_spec pid expectedPipId s :
  wf s ->
  exists b s',
    UntrackProcessPip pid expectedPipId s = Some (b, s') /\
    (b = true <->
       exists process o,
         trackedProcesses_ s !! pid = Some process /\
         heap s !! process = Some o /\
         (expectedPipId = -1 \/ pipId_ o = expectedPipId)) /\
    (b = true ->
       exists process o,
         trackedProcesses_ s !! pid = Some process /\
         heap s !! process = Some o /\
         trackedProcesses_ s' = delete pid (trackedProcesses_ s) /\
         heap s' !! process =
           Some (setTreeCount (wrap32 (processTreeCount_ o - 1)) o) /\
         (forall q, q <> process -> heap s' !! q = heap s !! q) /\
         reportQueues_ s' = reportQueues_ s /\
         trace s' = trace s ++
           (if bool_decide (wrap32 (processTreeCount_ o - 1) = 0)
            then [ReportProcessTreeCompleted process] else [])) /\
    (b = false -> s' = s).
Proof.
  intros Hwf.
  destruct (trackedProcesses_ s !! pid) as [process|] eqn:Hpid.
  - destruct (Hwf _ _ Hpid) as [o Ho].
    rewrite (UntrackProcessPip_found _ _ _ _ _ Hpid Ho).
    destruct (bool_decide (expectedPipId = -1) || bool_decide (pipId_ o = expectedPipId)) eqn:Hc.
    + eexists _, _. split; [done|].
      apply orb_true_iff in Hc.
      rewrite !bool_decide_eq_true in Hc.
      split; [|split; [|done]].
      * split; [|done]. intros _. by exists process, o.
      * intros _. exists process, o. simpl.
        rewrite lookup_insert_eq. repeat split; try done.
        intros q Hq. by rewrite lookup_insert_ne.
    + eexists _, _. split; [done|].
      apply orb_false_iff in Hc.
      rewrite !bool_decide_eq_false in Hc.
      split; [|split; done].
      split; [done|]. intros (p' & o' & Hp' & Ho' & Hor).
      simplify_eq. tauto.
  - rewrite (UntrackProcessPip_not_found _ _ _ Hpid).
    eexists _, _. split; [done|].
    split; [|split; done].
    split; [done|]. intros (p' & o' & Hp' & _). congruence.
Qed.

Lemma insertProcess_live process o s :
  heap s !! process = Some o ->
  insertProcess process s =
    Some (true, setTracked (<[processId_ o := process]> (trackedProcesses_ s)) s).
Proof. intros Ho. munfold. simpl. by rewrite Ho. Qed.

(** C5. [trackRoot] on a pid that already has a tracked entry first
    untracks the stale entry (mapping removed, its tree count decremented,
    completion reported if the count reached zero) and only then inserts
    the new root under its own id; the result is that of the insertion. *)
Theorem TrackRootProcess_collision process o stale ostale s :
  heap s !! process = Some o ->
  trackedProcesses_ s !! processId_ o = Some stale ->
  heap s !! stale = Some ostale ->
  let s1 := untracked (processId_ o) stale ostale s in
  UntrackProcess (processId_ o) stale s = Some (tt, s1) /\
  trackedProcesses_ s1 !! processId_ o = None /\
  heap s1 !! stale =
    Some (setTreeCount (wrap32 (processTreeCount_ ostale - 1)) ostale) /\
  trace s1 = trace s ++
    (if bool_decide (wrap32 (processTreeCount_ ostale - 1) = 0)
     then [ReportProcessTreeCompleted stale] else []) /\
  TrackRootProcess process s = insertProcess process s1 /\
  exists inserted s',
    insertProcess process s1 = Some (inserted, s') /\
    inserted = true /\
    trackedProcesses_ s' = <[processId_ o := process]> (trackedProcesses_ s) /\
    heap s' = heap s1 /\ trace s' = trace s1 /\
    reportQueues_ s' = reportQueues_ s.
Proof.
  intros Ho Hstale Hos s1.
  assert (Hu : UntrackProcess (processId_ o) stale s = Some (tt, s1))
    by (apply UntrackProcess_tracked; eauto).
  assert (Ho1 : exists o1, heap s1 !! process = Some o1 /\ processId_ o1 = processId_ o).
  { subst s1. simpl. destruct (decide (process = stale)) as [->|Hne].
    - rewrite lookup_insert_eq. eexists; split; [done|]. simpl. congruence.
    - rewrite lookup_insert_ne by done. eauto. }
  destruct Ho1 as (o1 & Ho1 & Hid).
  split; [done|]. split; [apply lookup_delete_eq|].
  split; [apply lookup_insert_eq|]. split; [done|].
  split.
  - unfold TrackRootProcess, getProcessId, getProcess, deref,
      ret, mret, mbind, M_ret, M_bind. simpl.
    rewrite Ho. simpl. rewrite Hstale. simpl. by rewrite Hu.
  - rewrite (insertProcess_live _ _ _ Ho1). eexists _, _.
    split; [done|]. split; [done|]. simpl. rewrite Hid.
    by rewrite insert_delete_eq.
Qed.

(** C3 (amended).  [trackChild] on a child pid that is already tracked
    returns failure and leaves the dictionary and every tree count as they
    were; the mismatch error is logged exactly when the existing entity
    differs from the intended root in both the pip id and the client pid. *)
Theorem TrackChildProcess_already_tracked childPid root existing oe oroot s :
  trackedProcesses_ s !! childPid = Some existing ->
  heap s !! existing = Some oe ->
  heap s !! root = Some oroot ->
  exists s',
    TrackChildProcess childPid root s = Some (false, s') /\
    trackedProcesses_ s' = trackedProcesses_ s /\
    heap s' = heap s /\
    reportQueues_ s' = reportQueues_ s /\
    trace s' = trace s ++
      (if bool_decide (pipId_ oe <> pipId_ oroot /\ clientPid_ oe <> clientPid_ oroot)
       then [ErrChildMismatch existing root] else []).
Proof.
  intros Hc He Hr. munfold. simpl. rewrite Hc. simpl.
  repeat (rewrite ?He, ?Hr; simpl).
  destruct (decide (pipId_ oe = pipId_ oroot)) as [Hp|Hp];
    destruct (decide (clientPid_ oe = clientPid_ oroot)) as [Hcl|Hcl].
  all: rewrite ?(bool_decide_eq_true_2 _ Hp), ?(bool_decide_eq_false_2 _ Hp),
         ?(bool_decide_eq_true_2 _ Hcl), ?(bool_decide_eq_false_2 _ Hcl); simpl.
  all: eexists; split; [done|]; simpl.
  all: repeat split; try done.
  all: try (rewrite bool_decide_eq_false_2 by tauto; by rewrite app_nil_r).
  by rewrite bool_decide_eq_true_2 by tauto.
Qed.

Lemma TrackChildProcess_fresh childPid root o s :
  trackedProcesses_ s !! childPid = None ->
  heap s !! root = Some o ->
  TrackChildProcess childPid root s =
    Some (true,
          {| heap := <[root := setTreeCount (wrap32 (processTreeCount_ o + 1)) o]> (heap s);
             trackedProcesses_ := <[childPid := root]> (trackedProcesses_ s);
             reportQueues_ := reportQueues_ s;
             trace := trace s |}).
Proof.
  intros Hc Ho. munfold. simpl. rewrite Hc. simpl. by rewrite Ho.
Qed.

(** Linking [children] one after the other raises the root's count by
    their number and maps each of them to the root's object. *)
Lemma trackChildren_spec children : forall root o s,
  heap s !! root = Some o ->
  NoDup children ->
  (forall c, c ∈ children -> trackedProcesses_ s !! c = None) ->
  - 2 ^ 31 <= processTreeCount_ o ->
  processTreeCount_ o + Z.of_nat (length children) < 2 ^ 31 ->
  exists s',
    trackChildren children root s = Some (tt, s') /\
    heap s' !! root =
      Some (setTreeCount (processTreeCount_ o + Z.of_nat (length children)) o) /\
    (forall p, trackedProcesses_ s' !! p =
       if decide (p ∈ children) then Some root else trackedProcesses_ s !! p) /\
    trace s' = trace s.
Proof.
  induction children as [|c cs IH]; intros root o s Ho Hnd Hfresh Hlo Hhi.
  - exists s. simpl. split; [done|]. split.
    + rewrite Ho. f_equal. destruct o. unfold setTreeCount. simpl. f_equal. lia.
    + done.
  - simpl in Hhi. apply NoDup_cons in Hnd as [Hc Hnd].
    cbn [trackChildren]. unfold mbind, M_bind.
    rewrite (TrackChildProcess_fresh c root o s) by (try done; apply Hfresh; left).
    rewrite wrap32_id by lia.
    edestruct (IH root (setTreeCount (processTreeCount_ o + 1) o)) as (s' & Hrun & Hh & Ht & Htr);
      [..|exists s'; split; [exact Hrun|]].
    + simpl. apply lookup_insert_eq.
    + done.
    + intros c' Hc'. simpl. rewrite lookup_insert_ne by (intros ->; done).
      apply Hfresh. by right.
    + simpl. lia.
    + simpl. lia.
    + split; [|split; [|done]].
      * rewrite Hh. f_equal. unfold setTreeCount. simpl. f_equal. lia.
      * intros p. rewrite Ht. simpl.
        destruct (decide (p = c)) as [->|Hne].
        -- rewrite lookup_insert_eq.
           rewrite (decide_True (P := c ∈ c :: cs)) by left.
           by case_decide.
        -- rewrite lookup_insert_ne by done.
           repeat case_decide; try done.
           ++ exfalso. apply H0. by right.
           ++ exfalso. apply elem_of_cons in H0 as [?|?]; done.
Qed.

Lemma expectedReports_length root n : forall c, length (expectedReports root c n) = n.
Proof. induction n; intros c; simpl; [done|]. by rewrite IHn. Qed.

Lemma expectedReports_lookup root n : forall c j,
  (j < n)%nat ->
  expectedReports root c n !! j =
    Some (if bool_decide (Z.of_nat (S j) = c)
          then [ReportProcessTreeCompleted root] else []).
Proof.
  induction n as [|n IH]; intros c j Hj; [lia|].
  destruct j as [|j]; simpl.
  - f_equal. repeat case_bool_decide; try done; lia.
  - rewrite IH by lia. f_equal. repeat case_bool_decide; try done; lia.
Qed.

Lemma untrackEach_spec order : forall root o s,
  NoDup order ->
  (forall p, p ∈ order -> trackedProcesses_ s !! p = Some root) ->
  heap s !! root = Some o ->
  - 2 ^ 31 <= processTreeCount_ o - Z.of_nat (length order) ->
  processTreeCount_ o < 2 ^ 31 ->
  exists s',
    untrackEach order s =
      Some (expectedReports root (processTreeCount_ o) (length order), s').
Proof.
  induction order as [|pid rest IH]; intros root o s Hnd Htr Ho Hlo Hhi.
  - by exists s.
  - apply NoDup_cons in Hnd as [Hpid Hnd]. simpl in Hlo.
    cbn [untrackEach]. unfold mbind, M_bind, getTrace.
    rewrite (UntrackProcessPip_found pid (-1) root o s) by (try done; apply Htr; left).
    rewrite bool_decide_eq_true_2 by done. cbn [orb].
    edestruct (IH root (setTreeCount (processTreeCount_ o - 1) o)
                 (untracked pid root o s)) as (s' & Hrun).
    + done.
    + intros p Hp. simpl. rewrite lookup_delete_ne by (intros ->; done).
      apply Htr. by right.
    + simpl. rewrite wrap32_id by lia. apply lookup_insert_eq.
    + simpl. lia.
    + simpl. lia.
    + exists s'. rewrite Hrun. unfold ret, mret, M_ret. simpl.
      rewrite wrap32_id by lia. by rewrite drop_app_length.
Qed.

Lemma TrackRootProcess_fresh process o s :
  heap s !! process = Some o ->
  trackedProcesses_ s !! processId_ o = None ->
  TrackRootProcess process s =
    Some (true, setTracked (<[processId_ o := process]> (trackedProcesses_ s)) s).
Proof.
  intros Ho Hpid.
  unfold TrackRootProcess, getProcessId, getProcess, deref,
    ret, mret, mbind, M_ret, M_bind. simpl.
  rewrite Ho. simpl. rewrite Hpid. simpl.
  by rewrite (insertProcess_live _ _ _ Ho).
Qed.

(** C1 (amended).  A root created with tree count [c0] and linked to [K]
    children has count [c0 + K]; untracking the [K + 1] tree members one
    by one, in any order, reports tree completion on the call that brings
    the count to zero, which is call number [c0 + K], and on no other
    call.  With [c0 = 1] that is the last call, [K + 1]; with [c0 = 0] it
    is call [K]. *)
Theorem processTree_completion c0 clientPid rootPid pipId children order s :
  0 <= c0 ->
  c0 + Z.of_nat (length children) < 2 ^ 31 ->
  NoDup (rootPid :: children) ->
  order ≡ₚ rootPid :: children ->
  (forall p, p ∈ rootPid :: children -> trackedProcesses_ s !! p = None) ->
  exists reports s',
    processTree c0 clientPid rootPid pipId children order s = Some (reports, s') /\
    length reports = S (length children) /\
    forall j, (j < S (length children))%nat ->
      reports !! j =
        Some (if bool_decide (Z.of_nat (S j) = c0 + Z.of_nat (length children))
              then [ReportProcessTreeCompleted (fresh (dom (heap s)))] else []).
Proof.
  intros Hc0 Hhi Hnd Hperm Hfresh.
  set (root := fresh (dom (heap s))).
  set (o := mkProcessObject clientPid rootPid pipId c0).
  set (s0 := setHeap (<[root := o]> (heap s)) s).
  assert (Ho : heap s0 !! root = Some o) by apply lookup_insert_eq.
  assert (Hroot : TrackRootProcess root s0 =
            Some (true, setTracked (<[rootPid := root]> (trackedProcesses_ s0)) s0)).
  { apply (TrackRootProcess_fresh root o s0 Ho). simpl. apply Hfresh. left. }
  pose proof Hnd as Hnd'. apply NoDup_cons in Hnd' as [Hrc Hndc].
  destruct (trackChildren_spec children root o
              (setTracked (<[rootPid := root]> (trackedProcesses_ s0)) s0))
    as (s2 & Hrun2 & Hh2 & Ht2 & _); try done.
  { intros c Hc. simpl. rewrite lookup_insert_ne by (intros ->; done).
    apply Hfresh. by right. }
  { simpl. lia. }
  destruct (untrackEach_spec order root
              (setTreeCount (c0 + Z.of_nat (length children)) o) s2)
    as (s3 & Hrun3); try done.
  { by rewrite Hperm. }
  { intros p Hp. rewrite Hperm in Hp. rewrite Ht2.
    case_decide as Hin; [done|]. simpl.
    apply elem_of_cons in Hp as [->|Hp]; [|done]. apply lookup_insert_eq. }
  { simpl. rewrite Hperm. simpl. lia. }
  exists (expectedReports root (c0 + Z.of_nat (length children)) (S (length children))), s3.
  split.
  - unfold processTree, withPayload, mbind, M_bind. fold root o s0.
    rewrite Hroot, Hrun2, Hrun3. simpl.
    by rewrite Hperm.
  - split; [apply expectedReports_length|].
    intros j Hj. by apply expectedReports_lookup.
Qed.

Lemma processTree_completion_witness :
  exists reports s',
    processTree 1 7 100 55 [101; 102] [101; 102; 100] emptySandbox = Some (reports, s') /\
    length reports = 3%nat /\
    forall j, (j < 3)%nat ->
      reports !! j =
        Some (if bool_decide (Z.of_nat (S j) = 1 + Z.of_nat 2)
              then [ReportProcessTreeCompleted (fresh (dom (heap emptySandbox)))] else []).
Proof.
  apply (processTree_completion 1 7 100 55 [101; 102] [101; 102; 100] emptySandbox).
  - lia.
  - simpl. lia.
  - apply (bool_decide_unpack _). by vm_compute.
  - apply (bool_decide_unpack _). by vm_compute.
  - intros p _. apply lookup_empty.
Defined.

(** C1, as stated (count initialised to 0): for root 100 with children
    101 and 102, completion is reported by the second untrack call, and
    the third call reports nothing. *)
Lemma processTree_count0_counterexample :
  fst <$> processTree 0 7 100 55 [101; 102] [101; 102; 100] emptySandbox =
    Some [[]; [ReportProcessTreeCompleted 1%positive]; []] /\
  fst <$> processTree 0 7 100 55 [101; 102] [101; 102; 100] emptySandbox <>
    Some [[]; []; [ReportProcessTreeCompleted 1%positive]].
Proof. split; [by vm_compute | by vm_compute]. Qed.

Lemma sampleSandbox_reachable :
  (e ← withPayload 1 7 100 55; TrackRootProcess e;; TrackChildProcess 101 e;;
   r ← withPayload 1 7 200 66; TrackRootProcess r;;
   AllocateReportQueueForClientProcess 7;; ret (e, r)) emptySandbox =
  Some ((1%positive, 2%positive), sampleSandbox).
Proof. by vm_compute. Qed.

Lemma sampleSandbox_wf : wf sampleSandbox.
Proof. apply (bool_decide_unpack _). by vm_compute. Defined.

Lemma UntrackProcessPip_spec_witness :
  exists s', UntrackProcessPip 101 55 sampleSandbox = Some (true, s').
Proof.
  destruct (UntrackProcessPip_spec 101 55 sampleSandbox sampleSandbox_wf)
    as (b & s' & Hrun & Hiff & _).
  exists s'. rewrite Hrun. f_equal. f_equal. apply Hiff.
  exists 1%positive, (mkProcessObject 7 100 55 2).
  split; [by vm_compute|]. split; [by vm_compute|]. by right.
Defined.

Lemma TrackRootProcess_collision_witness :
  exists s',
    TrackRootProcess 3%positive nestedSandbox = Some (true, s') /\
    trackedProcesses_ s' !! 100 = Some 3%positive.
Proof.
  destruct (TrackRootProcess_collision 3%positive (mkProcessObject 8 100 77 1)
              1%positive (mkProcessObject 7 100 55 2) nestedSandbox)
    as (_ & _ & _ & _ & Heq & inserted & s' & Hins & Htrue & Ht & _).
  - by vm_compute.
  - by vm_compute.
  - by vm_compute.
  - exists s'. rewrite Heq, Hins, Htrue. split; [done|].
    rewrite Ht. apply lookup_insert_eq.
Defined.

Lemma TrackChildProcess_already_tracked_witness :
  exists s',
    TrackChildProcess 101 3%positive nestedSandbox = Some (false, s') /\
    trace s' = [ErrChildMismatch 1%positive 3%positive].
Proof.
  destruct (TrackChildProcess_already_tracked 101 3%positive 1%positive
              (mkProcessObject 7 100 55 2) (mkProcessObject 8 100 77 1) nestedSandbox)
    as (s' & Hrun & _ & _ & _ & Htr).
  - by vm_compute.
  - by vm_compute.
  - by vm_compute.
  - exists s'. split; [done|]. rewrite Htr. by vm_compute.
Defined.

(** C3, as stated: the child 101 is tracked under pip 55, the intended
    root belongs to pip 66 of the same client; the call fails and logs
    nothing (the state, trace included, is unchanged). *)
Lemma TrackChildProcess_mismatch_counterexample :
  trackedProcesses_ sampleSandbox !! 101 = Some 1%positive /\
  pipId_ <$> heap sampleSandbox !! 1%positive = Some 55 /\
  pipId_ <$> heap sampleSandbox !! 2%positive = Some 66 /\
  TrackChildProcess 101 2%positive sampleSandbox = Some (false, sampleSandbox).
Proof. repeat split; by vm_compute. Qed.

Lemma forEachEntry_releaseCallback ctxPid entries : forall s,
  (forall k p, (k, p) ∈ entries -> is_Some (heap s !! p)) ->
  exists s',
    forEachEntry (releaseCallback ctxPid) entries s = Some (tt, s') /\
    heap s' = heap s /\ trace s' = trace s /\
    reportQueues_ s' = reportQueues_ s /\
    forall k, k <> ctxPid -> trackedProcesses_ s' !! k = trackedProcesses_ s !! k.
Proof.
  induction entries as [|[key value] rest IH]; intros s Hlive.
  - by exists s.
  - destruct (Hlive key value) as [o Ho]; [left|].
    cbn [forEachEntry]. unfold mbind, M_bind.
    assert (Hcb : exists s1, releaseCallback ctxPid key value s = Some (tt, s1) /\
              heap s1 = heap s /\ trace s1 = trace s /\
              reportQueues_ s1 = reportQueues_ s /\
              forall k, k <> ctxPid -> trackedProcesses_ s1 !! k = trackedProcesses_ s !! k).
    { unfold releaseCallback, getClientPid, deref, removeProcess,
        ret, mret, mbind, M_ret, M_bind.
      rewrite Ho. simpl. case_bool_decide.
      - eexists. split; [done|]. simpl. repeat split; try done.
        intros k Hk. by rewrite lookup_delete_ne.
      - by exists s. }
    destruct Hcb as (s1 & -> & Hh & Htr & Hq & Ht).
    destruct (IH s1) as (s' & Hrun & Hh' & Htr' & Hq' & Ht').
    { intros k p Hin. rewrite Hh. apply (Hlive k p). by right. }
    exists s'. split; [done|]. repeat split; try congruence.
    intros k Hk. rewrite Ht' by done. by apply Ht.
Qed.

(** [FreeReportQueuesForClientProcess] never removes a dictionary entry
    other than the one keyed by the client's own pid, and never touches a
    tree count. *)
Lemma FreeReportQueues_other_keys pid s :
  wf s ->
  exists r s',
    FreeReportQueuesForClientProcess pid s = Some (r, s') /\
    heap s' = heap s /\ trace s' = trace s /\
    forall k, k <> pid -> trackedProcesses_ s' !! k = trackedProcesses_ s !! k.
Proof.
  intros Hwf.
  unfold FreeReportQueuesForClientProcess, removeQueues, forEach, mbind, M_bind.
  set (s0 := setQueues _ s).
  destruct (forEachEntry_releaseCallback pid (map_to_list (trackedProcesses_ s0)) s0)
    as (s' & Hrun & Hh & Htr & _ & Ht).
  { intros k p Hin. apply elem_of_map_to_list in Hin. apply (Hwf k p Hin). }
  rewrite Hrun. eexists _, s'. split; [done|]. by repeat split.
Qed.

(** C2 (where the code falls short).  Client 7 owns the tracked
    processes 100, 101 and 200; after its queues are freed all three
    entries are still in the tracker. *)
Theorem FreeReportQueues_keeps_client_entities :
  (forall p o, heap sampleSandbox !! p = Some o -> clientPid_ o = 7) /\
  exists s',
    FreeReportQueuesForClientProcess 7 sampleSandbox = Some (kIOReturnSuccess, s') /\
    reportQueues_ s' !! 7 = None /\
    trackedProcesses_ s' = trackedProcesses_ sampleSandbox /\
    trackedProcesses_ s' !! 100 = Some 1%positive /\
    heap s' = heap sampleSandbox.
Proof.
  split.
  - intros p o Hp. unfold sampleSandbox in Hp. simpl in Hp.
    apply lookup_insert_Some in Hp as [[_ <-]|[_ Hp]]; [done|].
    by apply lookup_singleton_Some in Hp as [_ <-].
  - eexists. split; [by vm_compute|]. by vm_compute.
Qed.

End TrackerFacts.

(** * Facts about the trie *)

Module TrieFacts.
Import Trie.

Lemma wrapu32_id z : 0 <= z < 2 ^ 32 -> wrapu32 z = z.
Proof. intros H. unfold wrapu32. rewrite Z.mod_small; lia. Qed.

(** *** One level of the tree *)

Lemma sentinels_unfold r cs :
  sentinels (mkNode r cs) = (hasRecord r + sum_list (childSentinels <$> cs))%nat.
Proof.
  simpl. f_equal. induction cs as [|c cs IH]; [done|].
  simpl. by rewrite IH.
Qed.

Lemma entries_unfold r cs :
  entries (mkNode r cs) = recordEntry r ++ childrenEntries 0 cs.
Proof. reflexivity. Qed.

Lemma childrenEntries_insert cs : forall i j c c',
  cs !! i = Some c ->
  childEntries (j + i) c' = childEntries (j + i) c ->
  childrenEntries j (<[i := c']> cs) = childrenEntries j cs.
Proof.
  induction cs as [|x cs IH]; intros [|i] j c c' Hi Hc; simplify_eq/=.
  - rewrite Nat.add_0_r in Hc. by rewrite Hc.
  - f_equal. apply (IH i (S j) c c' Hi).
    by replace (S j + i)%nat with (j + S i)%nat by lia.
Qed.

Lemma entries_set_child n i c c' :
  children_ n !! i = Some c ->
  childEntries i c' = childEntries i c ->
  entries (mkNode (record_ n) (<[i := c']> (children_ n))) = entries n.
Proof.
  intros Hi Hc. destruct n as [r cs]. rewrite !entries_unfold. simpl in *.
  f_equal. by apply (childrenEntries_insert cs i 0%nat c c').
Qed.

Lemma entries_create k : entries (create k) = [].
Proof.
  unfold create. rewrite entries_unfold. simpl. generalize 0%nat.
  induction k as [|k IH]; intros i; simpl; [done|]. apply IH.
Qed.

Lemma entries_createNode kind : entries (createNode kind) = [].
Proof. destruct kind; apply entries_create. Qed.

Lemma NodeOk_unfold k r cs :
  NodeOk k (mkNode r cs) = bool_decide (length cs = k) && forallb (childOk k) cs.
Proof. done. Qed.

Lemma sum_list_insert {A} (f : A -> nat) (l : list A) i x y :
  l !! i = Some x ->
  (sum_list (f <$> <[i := y]> l) + f x = sum_list (f <$> l) + f y)%nat.
Proof.
  revert i. induction l as [|a l IH]; intros [|i] Hi; simplify_eq/=; [lia|].
  specialize (IH _ Hi). lia.
Qed.

Lemma forallb_insert {A} (p : A -> bool) (l : list A) i y :
  forallb p l = true -> p y = true -> forallb p (<[i := y]> l) = true.
Proof.
  revert i. induction l as [|a l IH]; intros [|i] Hl Hy; simpl in *; try done.
  - apply andb_true_iff in Hl as [_ Hl]. by rewrite Hy, Hl.
  - apply andb_true_iff in Hl as [Ha Hl]. by rewrite Ha, IH.
Qed.

Lemma forallb_lookup {A} (p : A -> bool) (l : list A) i x :
  forallb p l = true -> l !! i = Some x -> p x = true.
Proof.
  revert i. induction l as [|a l IH]; intros [|i] Hl Hi; simplify_eq/=.
  - by apply andb_true_iff in Hl as [? _].
  - apply andb_true_iff in Hl as [_ Hl]. eauto.
Qed.

Lemma NodeOk_inv k n :
  NodeOk k n = true ->
  length (children_ n) = k /\ forallb (childOk k) (children_ n) = true.
Proof.
  destruct n as [r cs]. rewrite NodeOk_unfold. intros H.
  apply andb_true_iff in H as [H1 H2]. by apply bool_decide_eq_true in H1.
Qed.

Lemma NodeOk_child k n i c :
  NodeOk k n = true -> children_ n !! i = Some (Some c) -> NodeOk k c = true.
Proof.
  intros [_ H]%NodeOk_inv Hi. apply (forallb_lookup _ _ _ _ H Hi).
Qed.

Lemma NodeOk_set_child k n r i c :
  NodeOk k n = true -> NodeOk k c = true ->
  NodeOk k (mkNode r (<[i := Some c]> (children_ n))) = true.
Proof.
  intros [Hl Hf]%NodeOk_inv Hc. rewrite NodeOk_unfold, length_insert.
  apply andb_true_iff. split; [by apply bool_decide_eq_true|].
  by apply forallb_insert.
Qed.

Lemma sentinels_set_child n r i c c' :
  children_ n !! i = Some c ->
  (sentinels (mkNode r (<[i := c']> (children_ n))) + hasRecord (record_ n) + childSentinels c
   = sentinels n + hasRecord r + childSentinels c')%nat.
Proof.
  intros Hi. destruct n as [r0 cs]. rewrite !sentinels_unfold. simpl in *.
  pose proof (sum_list_insert childSentinels cs i c c' Hi). lia.
Qed.

Lemma NodeOk_create k : NodeOk k (create k) = true.
Proof.
  unfold create. rewrite NodeOk_unfold, length_replicate.
  apply andb_true_iff. split; [by apply bool_decide_eq_true|].
  generalize k at 2. intros n. induction n; simpl; done.
Qed.

Lemma sentinels_create k : sentinels (create k) = 0%nat.
Proof.
  unfold create. rewrite sentinels_unfold. simpl.
  induction k; simpl; done.
Qed.

Lemma NodeOk_createNode kind : NodeOk (childrenCount kind) (createNode kind) = true.
Proof. destruct kind; apply NodeOk_create. Qed.

Lemma sentinels_createNode kind : sentinels (createNode kind) = 0%nat.
Proof. destruct kind; apply sentinels_create. Qed.

Lemma recordAt_nil n : recordAt [] n = record_ n.
Proof. done. Qed.

Lemma recordAt_cons j a n :
  recordAt (j :: a) n =
    match children_ n !! j with
    | Some (Some c) => recordAt a c
    | _ => None
    end.
Proof. unfold recordAt. simpl. by destruct (children_ n !! j) as [[c|]|]. Qed.

Lemma recordAt_create a k : recordAt a (create k) = None.
Proof.
  destruct a as [|j a]; [done|]. rewrite recordAt_cons. unfold create. simpl.
  destruct (replicate k None !! j) as [[c|]|] eqn:Hj; try done.
  by apply lookup_replicate in Hj as [? _].
Qed.

Lemma recordAt_createNode a kind : recordAt a (createNode kind) = None.
Proof. destruct kind; apply recordAt_create. Qed.

(** Replacing a child by one with the same records and as many sentinels
    changes neither for the parent. *)
Lemma recordAt_set_child m i c c' :
  children_ m !! i = Some c ->
  (forall a, recordAt a (default (createNode kUintTrie) c') =
             match c with Some x => recordAt a x | None => None end) ->
  is_Some c' ->
  forall a, recordAt a (mkNode (record_ m) (<[i := c']> (children_ m))) = recordAt a m.
Proof.
  intros Hi Hrec [x ->] [|j a]; [done|]. rewrite !recordAt_cons. simpl in *.
  destruct (decide (j = i)) as [->|Hne].
  - rewrite list_lookup_insert_eq by (by eapply lookup_lt_Some).
    rewrite Hi. rewrite Hrec. by destruct c.
  - by rewrite list_lookup_insert_ne.
Qed.

(** *** [ensureChildNodeExists] *)

Lemma ensureChildNodeExists_None kind node idx :
  ensureChildNodeExists kind node idx = None <->
  ~ (0 <= idx < Z.of_nat (length (children_ node))).
Proof.
  unfold ensureChildNodeExists, childrenLength_.
  destruct (idx <? 0) eqn:H1; destruct (Z.of_nat (length (children_ node)) <=? idx) eqn:H2;
    simpl; try (split; [intros _; lia | done]).
  split; [|lia]. by destruct (children_ node !! Z.to_nat idx) as [[?|]|].
Qed.

Lemma ensureChildNodeExists_Some kind node idx node' :
  ensureChildNodeExists kind node idx = Some node' ->
  0 <= idx < Z.of_nat (length (children_ node)) /\
  record_ node' = record_ node /\
  exists c, children_ node' !! Z.to_nat idx = Some (Some c) /\
    (node' = node \/
     (children_ node !! Z.to_nat idx = Some None /\ c = createNode kind /\
      node' = mkNode (record_ node) (<[Z.to_nat idx := Some c]> (children_ node)))).
Proof.
  intros H.
  assert (Hr : 0 <= idx < Z.of_nat (length (children_ node))).
  { destruct (decide (0 <= idx < Z.of_nat (length (children_ node)))) as [|Hn]; [done|].
    apply ensureChildNodeExists_None with (kind := kind) in Hn. congruence. }
  split; [done|].
  unfold ensureChildNodeExists, childrenLength_ in H.
  destruct (idx <? 0) eqn:H1; [lia|].
  destruct (Z.of_nat (length (children_ node)) <=? idx) eqn:H2; [lia|]. simpl in H.
  destruct (children_ node !! Z.to_nat idx) as [[c|]|] eqn:Hc; simplify_eq.
  - split; [done|]. exists c. split; [done|]. by left.
  - split; [done|]. exists (createNode kind). simpl.
    split; [apply list_lookup_insert_eq; lia|]. right. done.
  - apply lookup_ge_None in Hc. lia.
Qed.

Lemma ensureChildNodeExists_facts kind node idx node' :
  ensureChildNodeExists kind node idx = Some node' ->
  sentinels node' = sentinels node /\
  (NodeOk (childrenCount kind) node = true -> NodeOk (childrenCount kind) node' = true) /\
  (forall a, recordAt a node' = recordAt a node) /\
  entries node' = entries node.
Proof.
  intros (Hr & Hrec & c & Hc & [->|(Hnone & -> & ->)])%ensureChildNodeExists_Some; [done|].
  split; [|split; [|split]].
  - pose proof (sentinels_set_child node (record_ node) _ None
                  (Some (createNode kind)) Hnone) as H.
    cbn [childSentinels] in H. rewrite sentinels_createNode in H. lia.
  - intros Hok. apply NodeOk_set_child; [done|apply NodeOk_createNode].
  - apply (recordAt_set_child node _ None); [done| |done].
    intros a. simpl. apply recordAt_createNode.
  - apply (entries_set_child node _ None); [done|].
    simpl. by rewrite entries_createNode.
Qed.

(** *** Traversal *)

(** A traversal may create nodes, but it keeps every record, the number
    of sentinels and the fan-out; a node it returns is in the tree, at
    the address spelled by the key. *)
Lemma findNode_facts kind idxs : forall n n' found,
  findNode kind idxs n = (n', found) ->
  sentinels n' = sentinels n /\
  (NodeOk (childrenCount kind) n = true -> NodeOk (childrenCount kind) n' = true) /\
  (forall a, recordAt a n' = recordAt a n) /\
  entries n' = entries n /\
  (forall a, found = Some a -> a = Z.to_nat <$> idxs /\ is_Some (nodeAt a n')).
Proof.
  induction idxs as [|idx rest IH]; intros n n' found H; simpl in H.
  - simplify_eq. split; [done|]. split; [done|]. split; [done|]. split; [done|].
    intros a [= <-]. split; [done|]. by eexists.
  - destruct (ensureChildNodeExists kind n idx) as [node'|] eqn:He.
    2:{ simplify_eq. repeat split; done. }
    destruct (ensureChildNodeExists_facts _ _ _ _ He) as (Hs1 & Hok1 & Hrec1 & Hent1).
    destruct (ensureChildNodeExists_Some _ _ _ _ He) as (Hr & _ & c & Hc & _).
    rewrite Hc in H.
    destruct (findNode kind rest c) as [child' found'] eqn:Hf.
    destruct (IH _ _ _ Hf) as (Hs2 & Hok2 & Hrec2 & Hent2 & Hfound2).
    simplify_eq. split; [|split; [|split; [|split]]].
    + pose proof (sentinels_set_child node' (record_ node') _ (Some c) (Some child') Hc) as H.
      cbn [childSentinels] in H. lia.
    + intros Hok. specialize (Hok1 Hok).
      apply NodeOk_set_child; [done|]. apply Hok2.
      exact (NodeOk_child _ _ _ _ Hok1 Hc).
    + intros a. rewrite <- Hrec1.
      by apply (recordAt_set_child node' _ (Some c)).
    + rewrite <- Hent1.
      apply (entries_set_child node' _ (Some c)); [done|].
      simpl. by rewrite Hent2.
    + intros a Ha. destruct found' as [a'|]; simplify_eq/=.
      destruct (Hfound2 a' eq_refl) as [-> Hn]. split; [done|].
      rewrite list_lookup_insert_eq by (by eapply lookup_lt_Some). done.
Qed.

(** On a tree with fan-out [k] the traversal succeeds exactly when every
    index is below [k]. *)
Lemma findNode_found kind idxs : forall n,
  NodeOk (childrenCount kind) n = true ->
  snd (findNode kind idxs n) =
    if forallb (inRange (childrenCount kind)) idxs then Some (Z.to_nat <$> idxs) else None.
Proof.
  induction idxs as [|idx rest IH]; intros n Hok; [done|].
  cbn [findNode forallb fmap list_fmap].
  destruct (NodeOk_inv _ _ Hok) as [Hlen _].
  destruct (ensureChildNodeExists kind n idx) as [node'|] eqn:He.
  - destruct (ensureChildNodeExists_facts _ _ _ _ He) as (_ & Hok1 & _).
    destruct (ensureChildNodeExists_Some _ _ _ _ He) as (Hr & _ & c & Hc & _).
    rewrite Hc. specialize (IH c (NodeOk_child _ _ _ _ (Hok1 Hok) Hc)).
    destruct (findNode kind rest c) as [child' found']. cbn [snd] in *.
    rewrite IH. rewrite Hlen in Hr.
    assert (Hin : inRange (childrenCount kind) idx = true)
      by (unfold inRange; apply andb_true_iff; lia).
    rewrite Hin. cbn [andb].
    by destruct (forallb _ rest).
  - apply ensureChildNodeExists_None in He. rewrite Hlen in He.
    assert (Hin : inRange (childrenCount kind) idx = false).
    { unfold inRange. apply andb_false_iff. lia. }
    by rewrite Hin.
Qed.

(** *** Storing a record *)

Lemma setRecordAt_facts a r : forall n m,
  nodeAt a n = Some m ->
  recordAt a (setRecordAt a r n) = r /\
  (sentinels (setRecordAt a r n) + hasRecord (record_ m) = sentinels n + hasRecord r)%nat /\
  (forall k, NodeOk k n = true -> NodeOk k (setRecordAt a r n) = true).
Proof.
  induction a as [|i a IH]; intros n m Hm; simpl in Hm.
  - simplify_eq. cbn [setRecordAt]. split; [done|]. split.
    + destruct m as [r0 cs]. rewrite !sentinels_unfold. cbn [record_ children_]. lia.
    + intros k. destruct m as [r0 cs]. by rewrite !NodeOk_unfold.
  - destruct (children_ n !! i) as [[c|]|] eqn:Hc; try done.
    destruct (IH c m Hm) as (Hrec & Hs & Hok).
    cbn [setRecordAt]. rewrite Hc. split; [|split].
    + rewrite recordAt_cons. simpl.
      rewrite list_lookup_insert_eq by (by eapply lookup_lt_Some). done.
    + pose proof (sentinels_set_child n (record_ n) _ (Some c)
                    (Some (setRecordAt a r c)) Hc) as H.
      cbn [childSentinels] in H. lia.
    + intros k Hk. apply NodeOk_set_child; [done|].
      apply Hok. exact (NodeOk_child _ _ _ _ Hk Hc).
Qed.

Lemma recordAt_Some_nodeAt a n v :
  recordAt a n = Some v -> exists m, nodeAt a n = Some m /\ record_ m = Some v.
Proof. unfold recordAt. destruct (nodeAt a n) as [m|]; [eauto|done]. Qed.

Lemma recordAt_None_nodeAt a n m :
  nodeAt a n = Some m -> recordAt a n = None -> record_ m = None.
Proof. unfold recordAt. by intros ->. Qed.

(** *** The counter *)

Lemma TrieOk_size t : TrieOk t -> wrapu32 (getCount t) = getCount t.
Proof.
  intros [_ Hs]. unfold getCount. rewrite Hs. unfold wrapu32.
  by rewrite Z.mod_mod.
Qed.

Lemma countChange_refl t : TrieOk t -> countChange t t 0.
Proof.
  intros Hok. unfold countChange. rewrite !Z.add_0_r, (TrieOk_size t Hok).
  rewrite bool_decide_eq_true_2 by done.
  assert (Hnil : forall l : list (on_change_fn * Z * Z),
            l = l ++ match onChangeCallback_ t with Some _ => [] | None => [] end)
    by (intros l; destruct (onChangeCallback_ t); by rewrite app_nil_r).
  destruct Hok. repeat split; done.
Qed.

Lemma TrieOk_createTrie kind : TrieOk (createTrie kind).
Proof.
  split; simpl; [apply NodeOk_createNode|]. by rewrite sentinels_createNode.
Qed.

(** Setting the counter of [t1], which differs from [t] in its root only. *)
Lemma setSize_countChange t t1 d :
  TrieOk t ->
  kind_ t1 = kind_ t -> size_ t1 = size_ t ->
  onChangeCallback_ t1 = onChangeCallback_ t -> onChangeCalls t1 = onChangeCalls t ->
  NodeOk (childrenCount (kind_ t)) (root_ t1) = true ->
  Z.of_nat (sentinels (root_ t1)) = Z.of_nat (sentinels (root_ t)) + d ->
  countChange t (setSize (wrapu32 (size_ t1 + d)) t1) d.
Proof.
  intros [Hok Hs] Hk Hsz Hcb Hcalls Hok1 Hsent.
  unfold setSize, triggerOnChange, countChange, TrieOk, getCount. simpl.
  rewrite Hcb, Hsz.
  assert (Hnew : wrapu32 (size_ t + d) = wrapu32 (Z.of_nat (sentinels (root_ t1)))).
  { rewrite Hsent, Hs. unfold wrapu32. by rewrite Zplus_mod_idemp_l. }
  destruct (onChangeCallback_ t) as [cb|]; [case_bool_decide|]; simpl;
    rewrite ?Hk, ?Hcb, ?Hcalls; repeat split; try done.
  - rewrite bool_decide_eq_true_2 by done. by rewrite app_nil_r.
  - by rewrite bool_decide_eq_false_2.
  - by rewrite app_nil_r.
Qed.

(** Changing the tree without changing what it stores. *)
Lemma setRoot_countChange t t1 :
  TrieOk t ->
  kind_ t1 = kind_ t -> size_ t1 = size_ t ->
  onChangeCallback_ t1 = onChangeCallback_ t -> onChangeCalls t1 = onChangeCalls t ->
  NodeOk (childrenCount (kind_ t)) (root_ t1) = true ->
  sentinels (root_ t1) = sentinels (root_ t) ->
  countChange t t1 0.
Proof.
  intros Hok Hk Hsz Hcb Hcalls Hok1 Hsent.
  pose proof (TrieOk_size t Hok) as Hw. destruct Hok as [Hok Hs].
  unfold countChange, TrieOk, getCount in *.
  rewrite Hk, Hsz, Hcb, Hcalls, Hsent, !Z.add_0_r, Hw.
  rewrite bool_decide_eq_true_2 by done.
  assert (Hnil : forall l : list (on_change_fn * Z * Z),
            l = l ++ match onChangeCallback_ t with Some _ => [] | None => [] end)
    by (intros l; destruct (onChangeCallback_ t); by rewrite app_nil_r).
  repeat split; done.
Qed.

Lemma sameStore_refl t : TrieOk t -> sameStore t t.
Proof. intros [Hok _]. by repeat split. Qed.

Lemma sameStore_countChange t t1 : TrieOk t -> sameStore t t1 -> countChange t t1 0.
Proof.
  intros Hok (Hk & Hsz & Hcb & Hcalls & Hok1 & Hsent & _).
  by apply setRoot_countChange.
Qed.

Lemma findNode_sameStore t idxs root' found :
  TrieOk t ->
  findNode (kind_ t) idxs (root_ t) = (root', found) ->
  sameStore t (setRoot root' t) /\
  (forall a, found = Some a -> is_Some (nodeAt a root')) /\
  found = if forallb (inRange (childrenCount (kind_ t))) idxs
          then Some (Z.to_nat <$> idxs) else None.
Proof.
  intros [Hok _] Hf.
  destruct (findNode_facts _ _ _ _ _ Hf) as (Hs & Hok' & Hrec & Hent & Hfound).
  pose proof (findNode_found (kind_ t) idxs _ Hok) as Hsnd. rewrite Hf in Hsnd.
  split; [|split; [|done]].
  - unfold sameStore. simpl. repeat split; try done. by apply Hok'.
  - intros a Ha. by destruct (Hfound a Ha).
Qed.

Lemma store_countChange t t1 a m r d :
  TrieOk t -> sameStore t t1 ->
  nodeAt a (root_ t1) = Some m ->
  Z.of_nat (hasRecord r) = Z.of_nat (hasRecord (record_ m)) + d ->
  countChange t (setSize (wrapu32 (size_ t1 + d)) (storeRecord a r t1)) d.
Proof.
  intros Hok (Hk & Hsz & Hcb & Hcalls & Hok1 & Hsent & _) Hm Hd.
  destruct (setRecordAt_facts a r _ _ Hm) as (_ & Hs & Hok2).
  apply (setSize_countChange t (storeRecord a r t1) d); try done.
  - simpl. by apply Hok2.
  - simpl. lia.
Qed.

Lemma store_same_countChange t t1 a m v :
  TrieOk t -> sameStore t t1 ->
  nodeAt a (root_ t1) = Some m -> is_Some (record_ m) ->
  countChange t (storeRecord a (Some v) t1) 0.
Proof.
  intros Hok (Hk & Hsz & Hcb & Hcalls & Hok1 & Hsent & _) Hm [w Hw].
  destruct (setRecordAt_facts a (Some v) _ _ Hm) as (_ & Hs & Hok2).
  apply setRoot_countChange; try done.
  - simpl. by apply Hok2.
  - simpl. rewrite Hw in Hs. simpl in Hs. lia.
Qed.

(** *** Node-level operations and the counter *)

Lemma insertNode_countChange t t1 node value :
  TrieOk t -> sameStore t t1 ->
  (forall a, node = Some a -> is_Some (nodeAt a (root_ t1))) ->
  countChange t (snd (insertNode node value t1))
    (delta (Result (fst (insertNode node value t1)))).
Proof.
  intros Hok Hsame Hnode. unfold insertNode.
  destruct node as [a|]; [|by apply sameStore_countChange].
  destruct value as [v|]; [|by apply sameStore_countChange].
  destruct (Hnode a eq_refl) as [m Hm].
  destruct (recordAt a (root_ t1)) eqn:Hr; [by apply sameStore_countChange|].
  simpl. apply (store_countChange t t1 a m); try done.
  by rewrite (recordAt_None_nodeAt _ _ _ Hm Hr).
Qed.

Lemma replaceNode_countChange t t1 node value :
  TrieOk t -> sameStore t t1 ->
  (forall a, node = Some a -> is_Some (nodeAt a (root_ t1))) ->
  countChange t (snd (replaceNode node value t1))
    (delta (Result (fst (replaceNode node value t1)))).
Proof.
  intros Hok Hsame Hnode. unfold replaceNode.
  destruct node as [a|]; [|by apply sameStore_countChange].
  destruct value as [v|]; [|by apply sameStore_countChange].
  destruct (Hnode a eq_refl) as [m Hm].
  destruct (recordAt a (root_ t1)) eqn:Hr; simpl.
  - apply (store_same_countChange t t1 a m); try done.
    unfold recordAt in Hr. rewrite Hm in Hr. by rewrite Hr.
  - apply (store_countChange t t1 a m); try done.
    by rewrite (recordAt_None_nodeAt _ _ _ Hm Hr).
Qed.

Lemma removeNode_countChange t t1 node :
  TrieOk t -> sameStore t t1 ->
  countChange t (snd (removeNode node t1)) (delta (Result (fst (removeNode node t1)))).
Proof.
  intros Hok Hsame. unfold removeNode.
  destruct node as [a|]; [|by apply sameStore_countChange].
  destruct (recordAt a (root_ t1)) eqn:Hr; [|by apply sameStore_countChange].
  destruct (recordAt_Some_nodeAt _ _ _ Hr) as (m & Hm & Hrec).
  simpl. apply (store_countChange t t1 a m None (-1)); try done.
  by rewrite Hrec.
Qed.

Lemma getOrAddNode_countChange t t1 node args factory :
  TrieOk t -> sameStore t t1 ->
  (forall a, node = Some a -> is_Some (nodeAt a (root_ t1))) ->
  countChange t (snd (getOrAddNode node args factory t1))
    (delta (Added (fst (fst (getOrAddNode node args factory t1)))
                  (snd (fst (getOrAddNode node args factory t1))))).
Proof.
  intros Hok Hsame Hnode. unfold getOrAddNode, makeSentinel.
  destruct node as [a|]; [|by apply sameStore_countChange].
  destruct (Hnode a eq_refl) as [m Hm].
  destruct (recordAt a (root_ t1)) eqn:Hr; [by apply sameStore_countChange|].
  simpl. apply (store_countChange t t1 a m); try done.
  by rewrite (recordAt_None_nodeAt _ _ _ Hm Hr).
Qed.

(** *** Traversal followed by a node-level operation *)

Lemma root_setSize n t : root_ (setSize n t) = root_ t.
Proof.
  unfold setSize, triggerOnChange. simpl.
  destruct (onChangeCallback_ t); [case_bool_decide|]; done.
Qed.

Lemma find_get t idxs root' found :
  TrieOk t ->
  findNode (kind_ t) idxs (root_ t) = (root', found) ->
  found = keyAddress (kind_ t) idxs /\
  getNode found (setRoot root' t) = getNode found t.
Proof.
  intros Hok Hf.
  destruct (findNode_sameStore _ _ _ _ Hok Hf) as (Hsame & _ & Hfound).
  split; [done|]. destruct found as [a|]; [|done]. simpl.
  destruct Hsame as (_ & _ & _ & _ & _ & _ & Hrec & _). apply Hrec.
Qed.

Lemma find_getOrAdd t idxs root' found args factory :
  TrieOk t ->
  findNode (kind_ t) idxs (root_ t) = (root', found) ->
  let res := getOrAddNode found args factory (setRoot root' t) in
  TrieOk (snd res) /\ kind_ (snd res) = kind_ t /\
  match found with
  | Some a =>
      fst (fst res) = Some (default (factory args) (recordAt a (root_ t))) /\
      recordAt a (root_ (snd res)) = fst (fst res)
  | None => fst (fst res) = None
  end /\
  (is_Some (getNode found t) -> sameStore t (snd res)).
Proof.
  intros Hok Hf res.
  destruct (findNode_sameStore _ _ _ _ Hok Hf) as (Hsame & Hnode & _).
  pose proof (getOrAddNode_countChange t (setRoot root' t) found args factory
                Hok Hsame Hnode) as (Hok2 & Hk2 & _).
  split; [done|]. split; [done|]. subst res.
  destruct Hsame as (? & ? & ? & ? & ? & ? & Hrec & ?).
  unfold getOrAddNode, makeSentinel in *.
  destruct found as [a|]; [|split; [done|]; intros [x Hx]; simpl in Hx; done].
  destruct (Hnode a eq_refl) as [m Hm]. simpl in *.
  rewrite <- (Hrec a).
  destruct (recordAt a root') as [w|] eqn:Hr; simpl.
  - rewrite Hr. split; [done|]. intros _. by repeat split.
  - destruct (setRecordAt_facts a (Some (factory args)) _ _ Hm) as (Hst & _).
    split; [|intros [x Hx]; congruence].
    unfold incrementSize. rewrite root_setSize. simpl. by rewrite Hst.
Qed.

Lemma find_insert t idxs root' found v :
  TrieOk t ->
  findNode (kind_ t) idxs (root_ t) = (root', found) ->
  let res := insertNode found (Some v) (setRoot root' t) in
  TrieOk (snd res) /\ kind_ (snd res) = kind_ t /\
  match found with
  | Some a =>
      fst res = match recordAt a (root_ t) with
                | Some _ => kTrieResultAlreadyExists
                | None => kTrieResultInserted
                end /\
      recordAt a (root_ (snd res)) = Some (default v (recordAt a (root_ t)))
  | None => fst res = kTrieResultFailure
  end.
Proof.
  intros Hok Hf res.
  destruct (findNode_sameStore _ _ _ _ Hok Hf) as (Hsame & Hnode & _).
  pose proof (insertNode_countChange t (setRoot root' t) found (Some v)
                Hok Hsame Hnode) as (Hok2 & Hk2 & _).
  split; [done|]. split; [done|]. subst res.
  destruct Hsame as (? & ? & ? & ? & ? & ? & Hrec & ?).
  unfold insertNode in *.
  destruct found as [a|]; [|done].
  destruct (Hnode a eq_refl) as [m Hm]. simpl in *.
  rewrite <- (Hrec a).
  destruct (recordAt a root') as [w|] eqn:Hr; simpl; [done|].
  destruct (setRecordAt_facts a (Some v) _ _ Hm) as (Hst & _).
  split; [done|].
  unfold incrementSize. rewrite root_setSize. simpl. by rewrite Hst.
Qed.

(** *** The counter invariant over the public interface *)

Lemma removeMatching_TrieOk filter t : TrieOk t -> TrieOk (removeMatching filter t).
Proof.
  unfold removeMatching. generalize (entries (root_ t)). intros l. revert t.
  induction l as [|e l IH]; intros t Hok; simpl; [done|].
  apply IH. destruct (filter (snd e)); [|done].
  by destruct (removeNode_countChange t t (Some (fst e)) Hok (sameStore_refl t Hok)).
Qed.

Ltac traverse Hok :=
  match goal with
  | |- context [findNode ?k ?idxs ?n] =>
      let root' := fresh "root'" in
      let found := fresh "found" in
      let Hf := fresh "Hf" in
      let Hsame := fresh "Hsame" in
      let Hnode := fresh "Hnode" in
      destruct (findNode k idxs n) as [root' found] eqn:Hf;
      destruct (findNode_sameStore _ _ _ _ Hok Hf) as (Hsame & Hnode & _)
  end.

Lemma run_singleKey t c :
  TrieOk t -> singleKey c = true ->
  countChange t (snd (run c t)) (delta (fst (run c t))).
Proof.
  intros Hok Hc. destruct c; try done; simpl;
    unfold getPath, getOrAddPath, replacePath, insertPath, removePath,
      getUint, getOrAddUint, replaceUint, insertUint, removeUint,
      findPathNode, findUintNode;
    (case_bool_decide; [by apply countChange_refl|]); traverse Hok.
  - by apply sameStore_countChange.
  - pose proof (getOrAddNode_countChange t _ found factoryArgs factory Hok Hsame Hnode) as H'.
    by destruct (getOrAddNode _ _ _ _) as [[? ?] ?].
  - pose proof (replaceNode_countChange t _ found value Hok Hsame Hnode) as H'.
    by destruct (replaceNode _ _ _).
  - pose proof (insertNode_countChange t _ found value Hok Hsame Hnode) as H'.
    by destruct (insertNode _ _ _).
  - pose proof (removeNode_countChange t _ found Hok Hsame) as H'.
    by destruct (removeNode _ _).
  - by apply sameStore_countChange.
  - pose proof (getOrAddNode_countChange t _ found factoryArgs factory Hok Hsame Hnode) as H'.
    by destruct (getOrAddNode _ _ _ _) as [[? ?] ?].
  - pose proof (replaceNode_countChange t _ found value Hok Hsame Hnode) as H'.
    by destruct (replaceNode _ _ _).
  - pose proof (insertNode_countChange t _ found value Hok Hsame Hnode) as H'.
    by destruct (insertNode _ _ _).
  - pose proof (removeNode_countChange t _ found Hok Hsame) as H'.
    by destruct (removeNode _ _).
Qed.

Lemma run_TrieOk t c : TrieOk t -> TrieOk (snd (run c t)).
Proof.
  intros Hok. destruct (singleKey c) eqn:Hc.
  - by destruct (run_singleKey t c Hok Hc).
  - destruct c; try done; simpl. by apply removeMatching_TrieOk.
Qed.

Lemma runAll_TrieOk calls : forall t, TrieOk t -> TrieOk (runAll calls t).
Proof.
  induction calls as [|c calls IH]; intros t Hok; [done|].
  apply IH, run_TrieOk, Hok.
Qed.

(** C7 (amended).  Whatever calls were made on a trie since it was
    created, after one more call the counter is the number of stored
    values (as a [uint]: modulo 2^32), and [getCount] returns it.  A call
    on a single key moves both by the [delta] of its outcome: +1 when
    [insert], [replace] or [getOrAdd] stored a value under a free key
    ([kTrieResultInserted]), -1 when [remove] deleted one
    ([kTrieResultRemoved]), 0 otherwise, in particular when [replace]
    overwrote a value; the registered callback is invoked with the old
    and the new count exactly when they differ. *)
Theorem counter_counts_values kind calls c :
  let t := runAll calls (createTrie kind) in
  let t' := snd (run c t) in
  getCount t' = wrapu32 (Z.of_nat (sentinels (root_ t'))) /\
  (Z.of_nat (sentinels (root_ t')) < 2 ^ 32 ->
   getCount t' = Z.of_nat (sentinels (root_ t'))) /\
  (singleKey c = true -> countChange t t' (delta (fst (run c t)))).
Proof.
  intros t t'.
  assert (Hok : TrieOk t) by apply runAll_TrieOk, TrieOk_createTrie.
  assert (Hok' : TrieOk t') by apply run_TrieOk, Hok.
  split; [apply Hok'|]. split.
  - intros Hlt. destruct Hok' as [_ Hs]. unfold getCount.
    rewrite Hs. apply wrapu32_id. lia.
  - intros Hc. by apply run_singleKey.
Qed.

Lemma counter_counts_values_witness :
  let t := runAll [CallOnChange 3%nat; CallInsertPath "/a" (Some 5%positive)]
             (createTrie kPathTrie) in
  let t' := snd (run (CallRemovePath "/A") t) in
  getCount t = 1 /\ getCount t' = 0 /\
  onChangeCalls t' = [(3%nat, 0, 1); (3%nat, 1, 0)].
Proof.
  intros t t'.
  destruct (counter_counts_values kPathTrie
              [CallOnChange 3%nat; CallInsertPath "/a" (Some 5%positive)]
              (CallRemovePath "/A")) as (_ & _ & Hchange).
  destruct (Hchange eq_refl) as (_ & _ & _ & _ & Hcount & Hcalls).
  fold t t' in Hcount, Hcalls.
  split; [by vm_compute|]. split; [rewrite Hcount; by vm_compute|].
  rewrite Hcalls. by vm_compute.
Defined.

(** C7, as stated: [replace] on a key that holds no value stores the
    value and raises the count from 0 to 1. *)
Lemma replace_changes_count_counterexample :
  fst (replacePath "/a" (Some 5%positive) createPathTrie) = kTrieResultInserted /\
  getCount createPathTrie = 0 /\
  getCount (snd (replacePath "/a" (Some 5%positive) createPathTrie)) = 1.
Proof. by vm_compute. Qed.

(** *** Path characters *)

Lemma inRange_pathIndex ch :
  inRange s_pathNodeChildrenCount (pathIndex ch) = true <-> addressable ch.
Proof.
  unfold inRange, pathIndex, toupper, addressable, s_pathNodeChildrenCount.
  change (Z.of_nat 65) with 65. rewrite andb_true_iff.
  destruct ((97 <=? ch) && (ch <=? 122)) eqn:Hl.
  - apply andb_true_iff in Hl. lia.
  - apply andb_false_iff in Hl. lia.
Qed.

Lemma pathIndex_caseEqChar a b : caseEqChar a b -> pathIndex a = pathIndex b.
Proof.
  unfold caseEqChar, pathIndex, toupper.
  intros [->|[[Ha ->]|[Hb ->]]]; [done| |].
  - replace ((97 <=? a) && (a <=? 122)) with false by lia.
    replace ((97 <=? a + 32) && (a + 32 <=? 122)) with true by lia. lia.
  - replace ((97 <=? b) && (b <=? 122)) with false by lia.
    replace ((97 <=? b + 32) && (b + 32 <=? 122)) with true by lia. lia.
Qed.

Lemma pathIndex_caseEq p q :
  caseEq p q -> pathIndex <$> c_str p = pathIndex <$> c_str q.
Proof.
  unfold caseEq. generalize (c_str p) (c_str q). intros l k H.
  induction H as [|a b l k Hab _ IH]; [done|].
  cbn [fmap list_fmap]. f_equal; [by apply pathIndex_caseEqChar|exact IH].
Qed.

Lemma forallb_pathIndex_true chars :
  Forall addressable chars ->
  forallb (inRange (childrenCount kPathTrie)) (pathIndex <$> chars) = true.
Proof.
  induction 1 as [|ch l Hch _ IH]; [done|].
  cbn [fmap list_fmap forallb]. apply andb_true_iff. split; [|exact IH].
  by apply inRange_pathIndex.
Qed.

Lemma forallb_pathIndex_false chars :
  Exists (fun ch => ~ addressable ch) chars ->
  forallb (inRange (childrenCount kPathTrie)) (pathIndex <$> chars) = false.
Proof.
  induction 1 as [ch l Hch|ch l _ IH]; cbn [fmap list_fmap forallb];
    apply andb_false_iff.
  - left. destruct (inRange _ (pathIndex ch)) eqn:Hin; [|done].
    by apply inRange_pathIndex in Hin.
  - by right.
Qed.

Lemma keyAddress_path_Some chars :
  Forall addressable chars ->
  keyAddress kPathTrie (pathIndex <$> chars) = Some (Z.to_nat <$> (pathIndex <$> chars)).
Proof. intros H. unfold keyAddress. by rewrite forallb_pathIndex_true. Qed.

Lemma keyAddress_path_None chars :
  Exists (fun ch => ~ addressable ch) chars ->
  keyAddress kPathTrie (pathIndex <$> chars) = None.
Proof. intros H. unfold keyAddress. by rewrite forallb_pathIndex_false. Qed.

(** *** The public operations as traversal plus node-level operation *)

Lemma surjective_find kind idxs n :
  findNode kind idxs n = (fst (findNode kind idxs n), snd (findNode kind idxs n)).
Proof. by destruct (findNode kind idxs n). Qed.

Lemma getPath_unfold path t :
  kind_ t = kPathTrie ->
  getPath path t =
    (getNode (snd (findNode (kind_ t) (pathIndex <$> c_str path) (root_ t)))
       (setRoot (fst (findNode (kind_ t) (pathIndex <$> c_str path) (root_ t))) t),
     setRoot (fst (findNode (kind_ t) (pathIndex <$> c_str path) (root_ t))) t).
Proof.
  intros Hk. unfold getPath, findPathNode.
  rewrite bool_decide_eq_false_2 by (by rewrite Hk; intros []).
  by destruct (findNode _ _ _).
Qed.

Lemma getOrAddPath_unfold path args factory t :
  kind_ t = kPathTrie ->
  getOrAddPath path args factory t =
    getOrAddNode (snd (findNode (kind_ t) (pathIndex <$> c_str path) (root_ t))) args factory
      (setRoot (fst (findNode (kind_ t) (pathIndex <$> c_str path) (root_ t))) t).
Proof.
  intros Hk. unfold getOrAddPath, findPathNode.
  rewrite bool_decide_eq_false_2 by (by rewrite Hk; intros []).
  by destruct (findNode _ _ _).
Qed.

Lemma insertPath_unfold path value t :
  kind_ t = kPathTrie ->
  insertPath path value t =
    insertNode (snd (findNode (kind_ t) (pathIndex <$> c_str path) (root_ t))) value
      (setRoot (fst (findNode (kind_ t) (pathIndex <$> c_str path) (root_ t))) t).
Proof.
  intros Hk. unfold insertPath, findPathNode.
  rewrite bool_decide_eq_false_2 by (by rewrite Hk; intros []).
  by destruct (findNode _ _ _).
Qed.

Lemma replacePath_unfold path value t :
  kind_ t = kPathTrie ->
  replacePath path value t =
    replaceNode (snd (findNode (kind_ t) (pathIndex <$> c_str path) (root_ t))) value
      (setRoot (fst (findNode (kind_ t) (pathIndex <$> c_str path) (root_ t))) t).
Proof.
  intros Hk. unfold replacePath, findPathNode.
  rewrite bool_decide_eq_false_2 by (by rewrite Hk; intros []).
  by destruct (findNode _ _ _).
Qed.

Lemma removePath_unfold path t :
  kind_ t = kPathTrie ->
  removePath path t =
    removeNode (snd (findNode (kind_ t) (pathIndex <$> c_str path) (root_ t)))
      (setRoot (fst (findNode (kind_ t) (pathIndex <$> c_str path) (root_ t))) t).
Proof.
  intros Hk. unfold removePath, findPathNode.
  rewrite bool_decide_eq_false_2 by (by rewrite Hk; intros []).
  by destruct (findNode _ _ _).
Qed.

Lemma getUint_unfold key t :
  kind_ t = kUintTrie ->
  getUint key t =
    (getNode (snd (findNode (kind_ t) (uintDigits 20 key) (root_ t)))
       (setRoot (fst (findNode (kind_ t) (uintDigits 20 key) (root_ t))) t),
     setRoot (fst (findNode (kind_ t) (uintDigits 20 key) (root_ t))) t).
Proof.
  intros Hk. unfold getUint, findUintNode.
  rewrite bool_decide_eq_false_2 by (by rewrite Hk; intros []).
  by destruct (findNode _ _ _).
Qed.

Lemma getOrAddUint_unfold key args factory t :
  kind_ t = kUintTrie ->
  getOrAddUint key args factory t =
    getOrAddNode (snd (findNode (kind_ t) (uintDigits 20 key) (root_ t))) args factory
      (setRoot (fst (findNode (kind_ t) (uintDigits 20 key) (root_ t))) t).
Proof.
  intros Hk. unfold getOrAddUint, findUintNode.
  rewrite bool_decide_eq_false_2 by (by rewrite Hk; intros []).
  by destruct (findNode _ _ _).
Qed.

(** The value a key holds, read without touching the tree. *)
Lemma find_get_value t idxs :
  TrieOk t ->
  let f := findNode (kind_ t) idxs (root_ t) in
  getNode (snd f) (setRoot (fst f) t) = getNode (keyAddress (kind_ t) idxs) t /\
  sameStore t (setRoot (fst f) t).
Proof.
  intros Hok f. pose proof (surjective_find (kind_ t) idxs (root_ t)) as Hf.
  destruct (find_get t idxs _ _ Hok Hf) as [Hfound Hget].
  destruct (findNode_sameStore _ _ _ _ Hok Hf) as (Hsame & _).
  subst f. rewrite Hget. by rewrite Hfound at 1.
Qed.

(** [getOrAdd] on a key: the value it returns is the one the key held,
    or else the factory's product, and the key holds it afterwards; a
    second [getOrAdd] on the same key returns the same value. *)
Lemma find_getOrAdd_value t idxs args factory :
  TrieOk t ->
  let f := findNode (kind_ t) idxs (root_ t) in
  let res := getOrAddNode (snd f) args factory (setRoot (fst f) t) in
  TrieOk (snd res) /\ kind_ (snd res) = kind_ t /\
  fst (fst res) =
    match keyAddress (kind_ t) idxs with
    | Some a => Some (default (factory args) (recordAt a (root_ t)))
    | None => None
    end /\
  getNode (keyAddress (kind_ t) idxs) (snd res) = fst (fst res) /\
  (is_Some (getNode (keyAddress (kind_ t) idxs) t) -> sameStore t (snd res)).
Proof.
  intros Hok f res. pose proof (surjective_find (kind_ t) idxs (root_ t)) as Hf.
  destruct (find_get t idxs _ _ Hok Hf) as [Hfound _].
  destruct (find_getOrAdd t idxs _ _ args factory Hok Hf) as (Hok1 & Hk1 & Hval & Hsame).
  fold f in Hfound, Hok1, Hk1, Hval, Hsame. fold res in Hok1, Hk1, Hval, Hsame.
  rewrite <- Hfound. clearbody res f.
  split; [done|]. split; [done|].
  destruct (snd f) as [a|]; [|done].
  destruct Hval as [Hv Hr]. simpl. by rewrite Hr.
Qed.

Lemma find_getOrAdd_twice t idxs a1 f1 a2 f2 :
  TrieOk t ->
  let g := findNode (kind_ t) idxs (root_ t) in
  let r1 := getOrAddNode (snd g) a1 f1 (setRoot (fst g) t) in
  let g' := findNode (kind_ (snd r1)) idxs (root_ (snd r1)) in
  let r2 := getOrAddNode (snd g') a2 f2 (setRoot (fst g') (snd r1)) in
  fst (fst r2) = fst (fst r1).
Proof.
  intros Hok g r1 g' r2.
  destruct (find_getOrAdd_value t idxs a1 f1 Hok) as (Hok1 & Hk1 & Hv1 & Hget1 & _).
  fold g in Hok1, Hk1, Hv1, Hget1. fold r1 in Hok1, Hk1, Hv1, Hget1.
  destruct (find_getOrAdd_value (snd r1) idxs a2 f2 Hok1) as (_ & _ & Hv2 & _).
  fold g' in Hv2. fold r2 in Hv2.
  rewrite Hv2, Hk1. rewrite Hv1 in Hget1 |- *.
  destruct (keyAddress (kind_ t) idxs) as [a|]; [|done].
  simpl in Hget1. by rewrite Hget1.
Qed.

Lemma find_insert_value t idxs v :
  TrieOk t ->
  let f := findNode (kind_ t) idxs (root_ t) in
  let res := insertNode (snd f) (Some v) (setRoot (fst f) t) in
  TrieOk (snd res) /\ kind_ (snd res) = kind_ t /\
  match keyAddress (kind_ t) idxs with
  | Some a =>
      fst res = match recordAt a (root_ t) with
                | Some _ => kTrieResultAlreadyExists
                | None => kTrieResultInserted
                end /\
      recordAt a (root_ (snd res)) = Some (default v (recordAt a (root_ t)))
  | None => fst res = kTrieResultFailure
  end.
Proof.
  intros Hok f res. pose proof (surjective_find (kind_ t) idxs (root_ t)) as Hf.
  destruct (find_get t idxs _ _ Hok Hf) as [Hfound _].
  destruct (find_insert t idxs _ _ v Hok Hf) as (Hok1 & Hk1 & Hval).
  fold f in Hfound, Hok1, Hk1, Hval. fold res in Hok1, Hk1, Hval.
  by rewrite <- Hfound.
Qed.

(** *** Invalid path bytes *)

(** C6.  When a path key contains a byte outside the addressable range
    32..122, every path-keyed operation fails: [insert], [replace] and
    [remove] return [kTrieResultFailure], [get], [getAs] and [getOrAdd]
    return no value; the count, every stored record, the number of stored
    values and the callback history are as before ([sameStore]). *)
Theorem invalid_path_byte_fails t path :
  TrieOk t ->
  Exists (fun ch => ~ addressable ch) (c_str path) ->
  forall value args factory isT,
    (fst (insertPath path value t) = kTrieResultFailure /\
     sameStore t (snd (insertPath path value t))) /\
    (fst (replacePath path value t) = kTrieResultFailure /\
     sameStore t (snd (replacePath path value t))) /\
    (fst (removePath path t) = kTrieResultFailure /\
     sameStore t (snd (removePath path t))) /\
    (fst (getPath path t) = None /\ sameStore t (snd (getPath path t))) /\
    (fst (getAsPath isT path t) = None /\ sameStore t (snd (getAsPath isT path t))) /\
    (fst (getOrAddPath path args factory t) = (None, None) /\
     sameStore t (snd (getOrAddPath path args factory t))).
Proof.
  intros Hok Hbad value args factory isT.
  destruct (kind_ t) eqn:Hk.
  - unfold insertPath, replacePath, removePath, getAsPath, getPath, getOrAddPath.
    rewrite Hk. simpl. pose proof (sameStore_refl t Hok). done.
  - pose proof (surjective_find (kind_ t) (pathIndex <$> c_str path) (root_ t)) as Hf.
    destruct (find_get t _ _ _ Hok Hf) as [Hfound _].
    destruct (findNode_sameStore _ _ _ _ Hok Hf) as (Hsame & _).
    rewrite Hk in Hfound at 2. rewrite (keyAddress_path_None _ Hbad) in Hfound.
    unfold getAsPath. rewrite Hk. simpl.
    rewrite insertPath_unfold, replacePath_unfold, removePath_unfold,
      getPath_unfold, getOrAddPath_unfold by done.
    cbv zeta. rewrite Hfound. simpl. done.
Qed.

Lemma invalid_path_byte_fails_witness :
  fst (insertPath (String (ascii_of_nat 1) "a") (Some 5%positive) createPathTrie)
    = kTrieResultFailure /\
  fst (getPath (String (ascii_of_nat 1) "a") createPathTrie) = None /\
  getCount (snd (insertPath (String (ascii_of_nat 1) "a") (Some 5%positive) createPathTrie))
    = getCount createPathTrie.
Proof.
  destruct (invalid_path_byte_fails createPathTrie (String (ascii_of_nat 1) "a")
              (TrieOk_createTrie kPathTrie)) with
    (value := Some 5%positive) (args := 1%positive)
    (factory := fun x : positive => x) (isT := fun _ : OSObject => true)
    as ((Hi & Hsi) & _ & _ & (Hg & _) & _).
  - replace (c_str _) with [1; 97] by (by vm_compute).
    left. unfold addressable. lia.
  - split; [done|]. split; [done|]. by destruct Hsi as (_ & Hsz & _).
Defined.

(** *** [getOrAdd] *)

Lemma getNode_Some_default (x : OSObject) node t v :
  getNode node t = Some v ->
  match node with
  | Some a => Some (default x (recordAt a (root_ t)))
  | None => None
  end = Some v.
Proof. destruct node as [a|]; simpl; [|done]. by intros ->. Qed.

Lemma getOrAddPath_existing t path v args factory :
  TrieOk t ->
  fst (getPath path t) = Some v ->
  fst (fst (getOrAddPath path args factory t)) = Some v /\
  sameStore t (snd (getOrAddPath path args factory t)).
Proof.
  intros Hok Hget.
  destruct (kind_ t) eqn:Hk.
  { unfold getPath in Hget. by rewrite Hk in Hget. }
  rewrite getPath_unfold in Hget by done. cbn [fst] in Hget.
  destruct (find_get_value t (pathIndex <$> c_str path) Hok) as [Hval _].
  cbv zeta in Hval. rewrite Hval in Hget.
  destruct (find_getOrAdd_value t (pathIndex <$> c_str path) args factory Hok)
    as (_ & _ & Hv & _ & Hsame).
  rewrite getOrAddPath_unfold by done. cbv zeta in *.
  split; [|apply Hsame; by rewrite Hget].
  rewrite Hv. by apply getNode_Some_default.
Qed.

Lemma getOrAddPath_twice t path a1 f1 a2 f2 :
  TrieOk t ->
  fst (fst (getOrAddPath path a2 f2 (snd (getOrAddPath path a1 f1 t)))) =
  fst (fst (getOrAddPath path a1 f1 t)).
Proof.
  intros Hok.
  destruct (kind_ t) eqn:Hk.
  { unfold getOrAddPath. rewrite Hk. simpl. by rewrite Hk. }
  destruct (find_getOrAdd_value t (pathIndex <$> c_str path) a1 f1 Hok)
    as (_ & Hk1 & _).
  pose proof (find_getOrAdd_twice t (pathIndex <$> c_str path) a1 f1 a2 f2 Hok) as H2.
  cbv zeta in *.
  rewrite (getOrAddPath_unfold path a1 f1 t) by done.
  rewrite getOrAddPath_unfold by (by rewrite Hk1). done.
Qed.

Lemma getOrAddUint_existing t key v args factory :
  TrieOk t ->
  fst (getUint key t) = Some v ->
  fst (fst (getOrAddUint key args factory t)) = Some v /\
  sameStore t (snd (getOrAddUint key args factory t)).
Proof.
  intros Hok Hget.
  destruct (kind_ t) eqn:Hk.
  2:{ unfold getUint in Hget. by rewrite Hk in Hget. }
  rewrite getUint_unfold in Hget by done. cbn [fst] in Hget.
  destruct (find_get_value t (uintDigits 20 key) Hok) as [Hval _].
  cbv zeta in Hval. rewrite Hval in Hget.
  destruct (find_getOrAdd_value t (uintDigits 20 key) args factory Hok)
    as (_ & _ & Hv & _ & Hsame).
  rewrite getOrAddUint_unfold by done. cbv zeta in *.
  split; [|apply Hsame; by rewrite Hget].
  rewrite Hv. by apply getNode_Some_default.
Qed.

Lemma getOrAddUint_twice t key a1 f1 a2 f2 :
  TrieOk t ->
  fst (fst (getOrAddUint key a2 f2 (snd (getOrAddUint key a1 f1 t)))) =
  fst (fst (getOrAddUint key a1 f1 t)).
Proof.
  intros Hok.
  destruct (kind_ t) eqn:Hk.
  2:{ unfold getOrAddUint. rewrite Hk. simpl. by rewrite Hk. }
  destruct (find_getOrAdd_value t (uintDigits 20 key) a1 f1 Hok)
    as (_ & Hk1 & _).
  pose proof (find_getOrAdd_twice t (uintDigits 20 key) a1 f1 a2 f2 Hok) as H2.
  cbv zeta in *.
  rewrite (getOrAddUint_unfold key a1 f1 t) by done.
  rewrite getOrAddUint_unfold by (by rewrite Hk1). done.
Qed.

Lemma getOrAddPath_TrieOk t path args factory :
  TrieOk t -> TrieOk (snd (getOrAddPath path args factory t)).
Proof.
  intros Hok. pose proof (run_TrieOk t (CallGetOrAddPath path args factory) Hok) as H.
  simpl in H. by destruct (getOrAddPath path args factory t) as [[? ?] ?].
Qed.

Lemma getOrAddUint_TrieOk t key args factory :
  TrieOk t -> TrieOk (snd (getOrAddUint key args factory t)).
Proof.
  intros Hok. pose proof (run_TrieOk t (CallGetOrAddUint key args factory) Hok) as H.
  simpl in H. by destruct (getOrAddUint key args factory t) as [[? ?] ?].
Qed.

(** Any number of further [getOrAdd] calls on the key return what the
    first one returned. *)
Lemma getOrAddEach_all {K} (getOrAdd : K -> positive -> factory_fn -> Trie ->
                                      option OSObject * option TrieResult * Trie)
    (key : K) :
  (forall t a f, TrieOk t -> TrieOk (snd (getOrAdd key a f t))) ->
  (forall t a1 f1 a2 f2, TrieOk t ->
     fst (fst (getOrAdd key a2 f2 (snd (getOrAdd key a1 f1 t)))) =
     fst (fst (getOrAdd key a1 f1 t))) ->
  forall factories t a f, TrieOk t ->
    Forall (fun v => v = fst (fst (getOrAdd key a f t)))
           (getOrAddEach getOrAdd key factories (snd (getOrAdd key a f t))).
Proof.
  intros Hpres Htwice factories.
  induction factories as [|[a' f'] rest IH]; intros t a f Hok; [constructor|].
  cbn [getOrAddEach]. cbv zeta. constructor; [by apply Htwice|].
  specialize (IH (snd (getOrAdd key a f t)) a' f' (Hpres t a f Hok)).
  rewrite Htwice in IH by done. exact IH.
Qed.

(** C8.  If a key already holds a value, [getOrAdd] returns that value
    and stores nothing (the tree holds the same values under the same
    keys and the count is unchanged); and after a first [getOrAdd] on a
    key, every further [getOrAdd] on that key, whatever its factory,
    returns the value the first one returned.  This holds for path keys
    and for integer keys. *)
Theorem getOrAdd_idempotent t :
  TrieOk t ->
  (forall path v args factory,
     fst (getPath path t) = Some v ->
     fst (fst (getOrAddPath path args factory t)) = Some v /\
     sameStore t (snd (getOrAddPath path args factory t))) /\
  (forall path args factory factories,
     Forall (fun v => v = fst (fst (getOrAddPath path args factory t)))
       (getOrAddEach getOrAddPath path factories
          (snd (getOrAddPath path args factory t)))) /\
  (forall key v args factory,
     fst (getUint key t) = Some v ->
     fst (fst (getOrAddUint key args factory t)) = Some v /\
     sameStore t (snd (getOrAddUint key args factory t))) /\
  (forall key args factory factories,
     Forall (fun v => v = fst (fst (getOrAddUint key args factory t)))
       (getOrAddEach getOrAddUint key factories
          (snd (getOrAddUint key args factory t)))).
Proof.
  intros Hok. split; [|split; [|split]].
  - intros path v args factory. by apply getOrAddPath_existing.
  - intros path args factory factories.
    apply (getOrAddEach_all getOrAddPath path); [|intros; apply getOrAddPath_twice|]; try done.
    intros; by apply getOrAddPath_TrieOk.
  - intros key v args factory. by apply getOrAddUint_existing.
  - intros key args factory factories.
    apply (getOrAddEach_all getOrAddUint key); [|intros; apply getOrAddUint_twice|]; try done.
    intros; by apply getOrAddUint_TrieOk.
Qed.

Lemma getOrAdd_idempotent_witness :
  let t1 := snd (getOrAddPath "/usr/lib" 1%positive (fun _ => 11%positive) createPathTrie) in
  Forall (fun v => v = Some 11%positive)
    (getOrAddEach getOrAddPath "/usr/lib"
       [(2%positive, fun _ => 22%positive); (3%positive, fun _ => 33%positive)] t1) /\
  fst (fst (getOrAddPath "/usr/lib" 2%positive (fun _ => 22%positive) t1))
    = Some 11%positive /\
  getCount (snd (getOrAddPath "/usr/lib" 2%positive (fun _ => 22%positive) t1)) = 1.
Proof.
  intros t1.
  destruct (getOrAdd_idempotent createPathTrie (TrieOk_createTrie kPathTrie))
    as (_ & Hall & _).
  destruct (getOrAdd_idempotent t1) as (Hexisting & _).
  { apply (bool_decide_unpack _). by vm_compute. }
  destruct (Hexisting "/usr/lib" 11%positive 2%positive (fun _ => 22%positive))
    as [Hv (_ & Hsz & _)]; [by vm_compute|].
  split; [|split; [exact Hv|]].
  - exact (Hall "/usr/lib" 1%positive (fun _ => 11%positive)
             [(2%positive, fun _ => 22%positive); (3%positive, fun _ => 33%positive)]).
  - unfold getCount. rewrite Hsz. by vm_compute.
Defined.

(** *** Case-insensitive path keys *)

(** C9.  Two paths made of addressable bytes that are equal up to ASCII
    case address the same entry: [get] returns the same for both, and
    after [insert p v] a [get q] returns the value stored under the key,
    which is [v] whenever the key was free (the insert then reports
    [kTrieResultInserted]) and the value already there otherwise. *)
Theorem path_keys_case_insensitive t p q v :
  TrieOk t ->
  kind_ t = kPathTrie ->
  Forall addressable (c_str p) ->
  caseEq p q ->
  fst (getPath q t) = fst (getPath p t) /\
  fst (getPath q (snd (insertPath p (Some v) t))) =
    Some (default v (fst (getPath p t))) /\
  (fst (getPath p t) = None ->
   fst (insertPath p (Some v) t) = kTrieResultInserted /\
   fst (getPath q (snd (insertPath p (Some v) t))) = Some v).
Proof.
  intros Hok Hk Haddr Hcase.
  pose proof (pathIndex_caseEq p q Hcase) as Hidx.
  assert (Hka : keyAddress (kind_ t) (pathIndex <$> c_str p) =
            Some (Z.to_nat <$> (pathIndex <$> c_str p)))
    by (rewrite Hk; by apply keyAddress_path_Some).
  assert (Hgetp : fst (getPath p t) =
            recordAt (Z.to_nat <$> (pathIndex <$> c_str p)) (root_ t)).
  { rewrite getPath_unfold by done. cbv zeta. cbn [fst].
    destruct (find_get_value t (pathIndex <$> c_str p) Hok) as [-> _].
    by rewrite Hka. }
  assert (Hgetq : fst (getPath q t) = fst (getPath p t)).
  { rewrite !getPath_unfold by done. cbv zeta. by rewrite Hidx. }
  destruct (find_insert_value t (pathIndex <$> c_str p) v Hok) as (Hok1 & Hk1 & Hins).
  cbv zeta in Hok1, Hk1, Hins.
  rewrite Hka in Hins. destruct Hins as [Hres Hrec].
  rewrite <- (insertPath_unfold p (Some v) t Hk) in Hok1, Hk1, Hres, Hrec.
  assert (Hafter : fst (getPath q (snd (insertPath p (Some v) t))) =
            Some (default v (fst (getPath p t)))).
  { rewrite getPath_unfold by congruence. cbv zeta. cbn [fst].
    destruct (find_get_value (snd (insertPath p (Some v) t)) (pathIndex <$> c_str q) Hok1)
      as [-> _].
    rewrite <- Hidx, Hk1, Hka.
    simpl. by rewrite Hrec, Hgetp. }
  split; [done|]. split; [done|].
  intros Hfree. rewrite Hafter, Hfree. split; [|done].
  rewrite Hres. by rewrite <- Hgetp, Hfree.
Qed.

Lemma path_keys_case_insensitive_witness :
  fst (getPath "/foo/bar" (snd (insertPath "/Foo/BAR" (Some 5%positive) createPathTrie)))
    = Some 5%positive.
Proof.
  destruct (path_keys_case_insensitive createPathTrie "/Foo/BAR" "/foo/bar" 5%positive)
    as (_ & _ & Hfree).
  - apply TrieOk_createTrie.
  - done.
  - replace (c_str "/Foo/BAR") with [47; 70; 111; 111; 47; 66; 65; 82] by (by vm_compute).
    repeat (constructor; [unfold addressable; lia|]). constructor.
  - unfold caseEq.
    replace (c_str "/Foo/BAR") with [47; 70; 111; 111; 47; 66; 65; 82] by (by vm_compute).
    replace (c_str "/foo/bar") with [47; 102; 111; 111; 47; 98; 97; 114] by (by vm_compute).
    repeat (constructor; [unfold caseEqChar; lia|]). constructor.
  - apply Hfree. by vm_compute.
Defined.

(** *** Key-kind mismatch *)

(** C10.  On an integer-keyed trie every path-keyed operation, and on a
    path-keyed trie every integer-keyed operation, returns
    [kTrieResultFailure] or no value and leaves the trie exactly as it
    was. *)
Theorem kind_mismatch_noop t path key value args factory isT :
  match kind_ t with
  | kUintTrie =>
      getPath path t = (None, t) /\
      getAsPath isT path t = (None, t) /\
      getOrAddPath path args factory t = (None, None, t) /\
      replacePath path value t = (kTrieResultFailure, t) /\
      insertPath path value t = (kTrieResultFailure, t) /\
      removePath path t = (kTrieResultFailure, t)
  | kPathTrie =>
      getUint key t = (None, t) /\
      getAsUint isT key t = (None, t) /\
      getOrAddUint key args factory t = (None, None, t) /\
      replaceUint key value t = (kTrieResultFailure, t) /\
      insertUint key value t = (kTrieResultFailure, t) /\
      removeUint key t = (kTrieResultFailure, t)
  end.
Proof.
  destruct (kind_ t) eqn:Hk.
  - unfold getPath, getAsPath, getOrAddPath, replacePath, insertPath, removePath.
    rewrite Hk. by rewrite bool_decide_eq_true_2.
  - unfold getUint, getAsUint, getOrAddUint, replaceUint, insertUint, removeUint.
    rewrite Hk. by rewrite bool_decide_eq_true_2.
Qed.

End TrieFacts.

(** * Further facts about the process tracker *)

Module TrackerLaws.
Import Tracker TrackerFacts.

(** ** Queue size *)

(** X1.  Whatever [UInt32] size is requested, [SetReportQueueSize] leaves
    a size between 1 and the maximum: a request of 0 or above the maximum
    gives the default, any other request is kept.  The entry count that
    [GetReportQueueEntryCount] computes from it is the number of whole
    records that fit into that many megabytes, at least one when a record
    is no larger than a megabyte. *)
Theorem SetReportQueueSize_entry_count
    (sizeMax sizeDefault sizeofAccessReport reportQueueSize : Z) :
  0 < sizeDefault <= sizeMax ->
  sizeMax < 4096 ->
  0 < sizeofAccessReport <= 2 ^ 20 ->
  0 <= reportQueueSize < 2 ^ 32 ->
  let size := ReportQueue.SetReportQueueSize sizeMax sizeDefault reportQueueSize in
  let count := ReportQueue.GetReportQueueEntryCount sizeofAccessReport size in
  0 < size <= sizeMax /\
  (0 < reportQueueSize <= sizeMax -> size = reportQueueSize) /\
  (reportQueueSize = 0 \/ sizeMax < reportQueueSize -> size = sizeDefault) /\
  0 < count /\
  count * sizeofAccessReport <= size * 2 ^ 20 < (count + 1) * sizeofAccessReport.
Proof.
  intros Hd Hmax Hsz Hin size count.
  assert (Hsize : 0 < size <= sizeMax /\
            (0 < reportQueueSize <= sizeMax -> size = reportQueueSize) /\
            (reportQueueSize = 0 \/ sizeMax < reportQueueSize -> size = sizeDefault)).
  { subst size. unfold ReportQueue.SetReportQueueSize.
    case_bool_decide as H0; simpl; [lia|].
    destruct (sizeMax <? reportQueueSize) eqn:H1; lia. }
  destruct Hsize as (Hrange & Hkeep & Hdef).
  split; [done|]. split; [done|]. split; [done|].
  assert (Hcount : count = size * 2 ^ 20 / sizeofAccessReport).
  { subst count. unfold ReportQueue.GetReportQueueEntryCount.
    rewrite (TrieFacts.wrapu32_id (size * 1024)) by lia.
    rewrite (TrieFacts.wrapu32_id (size * 1024 * 1024)) by lia.
    replace (size * 1024 * 1024) with (size * 2 ^ 20) by lia.
    apply TrieFacts.wrapu32_id. split; [apply Z.div_pos; lia|].
    apply Z.div_lt_upper_bound; nia. }
  rewrite Hcount. clear Hcount count.
  pose proof (Z.div_mod (size * 2 ^ 20) sizeofAccessReport ltac:(lia)) as Hdm.
  pose proof (Z.mod_pos_bound (size * 2 ^ 20) sizeofAccessReport ltac:(lia)) as Hmod.
  assert (1 <= size * 2 ^ 20 / sizeofAccessReport).
  { apply Z.div_le_lower_bound; lia. }
  nia.
Qed.

Lemma SetReportQueueSize_entry_count_witness :
  ReportQueue.SetReportQueueSize 2048 256 0 = 256 /\
  ReportQueue.SetReportQueueSize 2048 256 9999 = 256 /\
  ReportQueue.SetReportQueueSize 2048 256 16 = 16 /\
  0 < ReportQueue.GetReportQueueEntryCount 1100
        (ReportQueue.SetReportQueueSize 2048 256 16).
Proof.
  destruct (SetReportQueueSize_entry_count 2048 256 1100 16) as (_ & Hkeep & _ & Hpos & _);
    [lia | lia | lia | lia |].
  destruct (SetReportQueueSize_entry_count 2048 256 1100 0) as (_ & _ & Hdef0 & _);
    [lia | lia | lia | lia |].
  destruct (SetReportQueueSize_entry_count 2048 256 1100 9999) as (_ & _ & Hdef1 & _);
    [lia | lia | lia | lia |].
  split; [apply Hdef0; lia|]. split; [apply Hdef1; lia|].
  split; [apply Hkeep; lia|]. exact Hpos.
Defined.

(** ** Tracking and finding *)

Lemma wf_lookup s pid p :
  wf s -> trackedProcesses_ s !! pid = Some p -> is_Some (heap s !! p).
Proof. intros Hwf Hp. exact (Hwf pid p Hp). Qed.

Lemma TrackRootProcess_tracked process o stale ostale s :
  heap s !! process = Some o ->
  trackedProcesses_ s !! processId_ o = Some stale ->
  heap s !! stale = Some ostale ->
  TrackRootProcess process s =
    Some (true,
          setTracked (<[processId_ o := process]> (trackedProcesses_ s))
            (untracked (processId_ o) stale ostale s)).
Proof.
  intros Ho Hstale Hos.
  unfold TrackRootProcess, getProcessId, getProcess, deref,
    ret, mret, mbind, M_ret, M_bind. simpl.
  rewrite Ho. simpl. rewrite Hstale. simpl.
  rewrite (UntrackProcess_tracked _ _ ostale) by eauto.
  assert (Ho1 : exists o1, heap (untracked (processId_ o) stale ostale s) !! process = Some o1
                 /\ processId_ o1 = processId_ o).
  { simpl. destruct (decide (process = stale)) as [->|Hne].
    - rewrite lookup_insert_eq. eexists; split; [done|]. simpl. congruence.
    - rewrite lookup_insert_ne by done. eauto. }
  destruct Ho1 as (o1 & Ho1 & Hid).
  rewrite (insertProcess_live _ _ _ Ho1), Hid. simpl.
  by rewrite insert_delete_eq.
Qed.

(** X2.  [TrackRootProcess] on a live process always succeeds, and
    afterwards [FindTrackedProcess] on the process's own id returns that
    process, whether or not the id was tracked before; the entries of all
    other ids are as before. *)
Theorem TrackRootProcess_then_find process o s :
  wf s ->
  heap s !! process = Some o ->
  exists s',
    TrackRootProcess process s = Some (true, s') /\
    FindTrackedProcess (processId_ o) s' = Some (Some process, s') /\
    (forall pid, pid <> processId_ o ->
       trackedProcesses_ s' !! pid = trackedProcesses_ s !! pid) /\
    wf s'.
Proof.
  intros Hwf Ho.
  destruct (trackedProcesses_ s !! processId_ o) as [stale|] eqn:Hpid.
  - destruct (wf_lookup _ _ _ Hwf Hpid) as [ostale Hos].
    rewrite (TrackRootProcess_tracked _ _ _ _ _ Ho Hpid Hos).
    eexists. split; [done|].
    unfold FindTrackedProcess, getProcess. simpl. rewrite lookup_insert_eq.
    split; [done|]. split.
    + intros pid Hne. by rewrite lookup_insert_ne.
    + intros pid p. simpl. intros Hp.
      destruct (decide (processId_ o = pid)) as [<-|Hne].
      * rewrite lookup_insert_eq in Hp. simplify_eq.
        destruct (decide (p = stale)) as [->|Hps].
        -- rewrite lookup_insert_eq. eauto.
        -- rewrite lookup_insert_ne by done. eauto.
      * rewrite lookup_insert_ne in Hp by done.
        destruct (decide (p = stale)) as [->|Hps].
        -- rewrite lookup_insert_eq. eauto.
        -- rewrite lookup_insert_ne by done. exact (Hwf pid p Hp).
  - rewrite (TrackRootProcess_fresh _ _ _ Ho Hpid).
    eexists. split; [done|].
    unfold FindTrackedProcess, getProcess. simpl. rewrite lookup_insert_eq.
    split; [done|]. split.
    + intros pid Hne. by rewrite lookup_insert_ne.
    + intros pid p. simpl. intros Hp.
      destruct (decide (processId_ o = pid)) as [<-|Hne].
      * rewrite lookup_insert_eq in Hp. simplify_eq. eauto.
      * rewrite lookup_insert_ne in Hp by done. exact (Hwf pid p Hp).
Qed.

Lemma TrackRootProcess_then_find_witness :
  exists s',
    TrackRootProcess 3%positive nestedSandbox = Some (true, s') /\
    FindTrackedProcess 100 s' = Some (Some 3%positive, s').
Proof.
  destruct (TrackRootProcess_then_find 3%positive (mkProcessObject 8 100 77 1) nestedSandbox)
    as (s' & Hrun & Hfind & _).
  - apply (bool_decide_unpack _). by vm_compute.
  - by vm_compute.
  - by exists s'.
Defined.

Lemma TrackChildProcess_existing childPid root existing oe oroot s :
  trackedProcesses_ s !! childPid = Some existing ->
  heap s !! existing = Some oe ->
  heap s !! root = Some oroot ->
  exists s',
    TrackChildProcess childPid root s = Some (false, s') /\
    trackedProcesses_ s' = trackedProcesses_ s /\ heap s' = heap s.
Proof.
  intros Hc He Hr. munfold. simpl. rewrite Hc. simpl.
  repeat (rewrite ?He, ?Hr; simpl).
  destruct (negb _ && negb _); simpl; eexists; split; done.
Qed.

(** X3.  [TrackChildProcess] returns [true] exactly when the child pid
    was not tracked.  It then maps the child pid to the root's own object
    (so [FindTrackedProcess] on the child returns the root's entity) and
    adds one to that object's tree count; otherwise the child stays with
    the entity it had and no count changes.  Either way the child pid is
    tracked afterwards and nothing is reported. *)
Theorem TrackChildProcess_tracks childPid root oroot s :
  wf s ->
  heap s !! root = Some oroot ->
  exists b s',
    TrackChildProcess childPid root s = Some (b, s') /\
    (b = true <-> trackedProcesses_ s !! childPid = None) /\
    (b = true ->
       FindTrackedProcess childPid s' = Some (Some root, s') /\
       heap s' !! root =
         Some (setTreeCount (wrap32 (processTreeCount_ oroot + 1)) oroot) /\
       (forall p, p <> root -> heap s' !! p = heap s !! p) /\
       trace s' = trace s) /\
    (b = false ->
       trackedProcesses_ s' = trackedProcesses_ s /\ heap s' = heap s) /\
    (forall pid, pid <> childPid ->
       trackedProcesses_ s' !! pid = trackedProcesses_ s !! pid) /\
    is_Some (trackedProcesses_ s' !! childPid).
Proof.
  intros Hwf Hr.
  destruct (trackedProcesses_ s !! childPid) as [existing|] eqn:Hc.
  - destruct (wf_lookup _ _ _ Hwf Hc) as [oe He].
    destruct (TrackChildProcess_existing _ _ _ _ _ _ Hc He Hr) as (s' & Hrun & Ht & Hh).
    exists false, s'. split; [done|]. split; [done|]. split; [done|].
    split; [done|]. rewrite Ht. split; [done|]. by rewrite Hc.
  - rewrite (TrackChildProcess_fresh _ _ _ _ Hc Hr).
    eexists true, _. split; [done|]. split; [done|]. split; [|split; [done|]].
    + intros _. unfold FindTrackedProcess, getProcess. simpl.
      rewrite !lookup_insert_eq. repeat split; try done.
      intros p Hp. by rewrite lookup_insert_ne.
    + simpl. split.
      * intros pid Hp. by rewrite lookup_insert_ne.
      * rewrite lookup_insert_eq. eauto.
Qed.

Lemma TrackChildProcess_tracks_witness :
  exists s',
    TrackChildProcess 102 1%positive sampleSandbox = Some (true, s') /\
    FindTrackedProcess 102 s' = Some (Some 1%positive, s') /\
    heap s' !! 1%positive = Some (mkProcessObject 7 100 55 3).
Proof.
  destruct (TrackChildProcess_tracks 102 1%positive (mkProcessObject 7 100 55 2)
              sampleSandbox sampleSandbox_wf)
    as (b & s' & Hrun & Hiff & Htrue & _); [by vm_compute|].
  assert (Hb : b = true) by (apply Hiff; by vm_compute).
  destruct (Htrue Hb) as (Hfind & Hheap & _).
  exists s'. rewrite Hrun, Hb. split; [done|]. split; [done|]. exact Hheap.
Defined.

Lemma setTreeCount_same o : setTreeCount (processTreeCount_ o) o = o.
Proof. by destruct o. Qed.

Lemma wrap32_succ_pred c : wrap32 (wrap32 (c + 1) - 1) = wrap32 c.
Proof.
  unfold wrap32.
  replace ((c + 1 + 2 ^ 31) mod 2 ^ 32 - 2 ^ 31 - 1 + 2 ^ 31)
    with ((c + 1 + 2 ^ 31) mod 2 ^ 32 - 1) by lia.
  rewrite Zminus_mod_idemp_l. f_equal. f_equal. lia.
Qed.

(** X4.  Linking a child and then untracking it restores the dictionary
    and every tree count (also when the increment overflows the [int]);
    the untrack reports tree completion exactly when the root's count was
    0 before the child was linked. *)
Theorem TrackChild_then_Untrack childPid root oroot s :
  trackedProcesses_ s !! childPid = None ->
  heap s !! root = Some oroot ->
  - 2 ^ 31 <= processTreeCount_ oroot < 2 ^ 31 ->
  exists s',
    (TrackChildProcess childPid root;; UntrackProcessPip childPid (-1)) s =
      Some (true, s') /\
    trackedProcesses_ s' = trackedProcesses_ s /\
    heap s' = heap s /\
    reportQueues_ s' = reportQueues_ s /\
    trace s' = trace s ++
      (if bool_decide (processTreeCount_ oroot = 0)
       then [ReportProcessTreeCompleted root] else []).
Proof.
  intros Hc Hr Hrange.
  unfold mbind at 1. unfold M_bind.
  rewrite (TrackChildProcess_fresh _ _ _ _ Hc Hr).
  erewrite UntrackProcessPip_found;
    [|simpl; apply lookup_insert_eq|simpl; apply lookup_insert_eq].
  rewrite bool_decide_eq_true_2 by done. cbn [orb].
  eexists. split; [done|].
  destruct oroot as [client pid pip c]. unfold untracked, setTreeCount. simpl in *.
  rewrite wrap32_succ_pred, (wrap32_id c) by done.
  rewrite delete_insert_id by done.
  rewrite insert_insert_eq. rewrite (insert_id (heap s)) by done.
  done.
Qed.

Lemma TrackChild_then_Untrack_witness :
  exists s',
    (TrackChildProcess 102 1%positive;; UntrackProcessPip 102 (-1)) sampleSandbox =
      Some (true, s') /\
    trackedProcesses_ s' = trackedProcesses_ sampleSandbox /\
    heap s' = heap sampleSandbox /\ trace s' = [].
Proof.
  destruct (TrackChild_then_Untrack 102 1%positive (mkProcessObject 7 100 55 2) sampleSandbox)
    as (s' & Hrun & Ht & Hh & _ & Htr).
  - by vm_compute.
  - by vm_compute.
  - simpl. lia.
  - exists s'. by repeat split.
Defined.

(** ** Untracking *)



(** ** Freeing a client's queues *)

Lemma forEachEntry_releaseCallback_exact ctxPid entries : forall s,
  (forall k p, (k, p) ∈ entries -> is_Some (heap s !! p)) ->
  exists s',
    forEachEntry (releaseCallback ctxPid) entries s = Some (tt, s') /\
    heap s' = heap s /\ trace s' = trace s /\
    reportQueues_ s' = reportQueues_ s /\
    trackedProcesses_ s' =
      if existsb (fun e => match heap s !! snd e with
                           | Some o => bool_decide (clientPid_ o = ctxPid)
                           | None => false
                           end) entries
      then delete ctxPid (trackedProcesses_ s) else trackedProcesses_ s.
Proof.
  induction entries as [|[key value] rest IH]; intros s Hlive.
  - by exists s.
  - destruct (Hlive key value) as [o Ho]; [left|].
    cbn [forEachEntry existsb snd]. unfold mbind, M_bind.
    unfold releaseCallback at 1. unfold getClientPid, deref, removeProcess,
      ret, mret, mbind, M_ret, M_bind.
    rewrite Ho. simpl. case_bool_decide as Hown; simpl.
    + destruct (IH (setTracked (delete ctxPid (trackedProcesses_ s)) s))
        as (s' & Hrun & Hh & Htr & Hq & Ht).
      { intros k p Hin. simpl. apply (Hlive k p). by right. }
      exists s'. split; [done|]. simpl in *. repeat split; try done.
      rewrite Ht. destruct (existsb _ rest); [apply delete_delete_eq|done].
    + destruct (IH s) as (s' & Hrun & Hh & Htr & Hq & Ht).
      { intros k p Hin. apply (Hlive k p). by right. }
      exists s'. by repeat split.
Qed.

Lemma FreeReportQueues_run clientPid s :
  wf s ->
  exists s',
    FreeReportQueuesForClientProcess clientPid s =
      Some (if bool_decide (is_Some (reportQueues_ s !! clientPid))
            then kIOReturnSuccess else kIOReturnError, s') /\
    reportQueues_ s' = delete clientPid (reportQueues_ s) /\
    heap s' = heap s /\ trace s' = trace s /\
    trackedProcesses_ s' =
      if existsb (fun e => match heap s !! snd e with
                           | Some o => bool_decide (clientPid_ o = clientPid)
                           | None => false
                           end) (map_to_list (trackedProcesses_ s))
      then delete clientPid (trackedProcesses_ s) else trackedProcesses_ s.
Proof.
  intros Hwf.
  unfold FreeReportQueuesForClientProcess, removeQueues, forEach, mbind, M_bind.
  set (s0 := setQueues _ s).
  destruct (forEachEntry_releaseCallback_exact clientPid
              (map_to_list (trackedProcesses_ s0)) s0)
    as (s' & Hrun & Hh & Htr & Hq & Ht).
  { intros k p Hin. apply elem_of_map_to_list in Hin. apply (Hwf k p Hin). }
  rewrite Hrun. exists s'. by repeat split.
Qed.

(** X6.  What [FreeReportQueuesForClientProcess] does to the state: the
    client's queues are removed and the result is [kIOReturnSuccess]
    exactly when it had some; no object, tree count or trace entry
    changes; and the only dictionary entry that can disappear is the one
    keyed by the client's own pid, which is removed exactly when some
    tracked process belongs to the client. *)
Theorem FreeReportQueues_effect clientPid s :
  wf s ->
  exists r s',
    FreeReportQueuesForClientProcess clientPid s = Some (r, s') /\
    (r = kIOReturnSuccess <-> is_Some (reportQueues_ s !! clientPid)) /\
    reportQueues_ s' = delete clientPid (reportQueues_ s) /\
    heap s' = heap s /\ trace s' = trace s /\
    (TrackerCalls.ownsTracked s clientPid ->
     trackedProcesses_ s' = delete clientPid (trackedProcesses_ s)) /\
    (~ TrackerCalls.ownsTracked s clientPid ->
     trackedProcesses_ s' = trackedProcesses_ s).
Proof.
  intros Hwf.
  destruct (FreeReportQueues_run clientPid s Hwf) as (s' & Hrun & Hq & Hh & Htr & Ht).
  rewrite Hrun. eexists _, s'. split; [done|].
  split.
  { case_bool_decide; split; done. }
  split; [done|]. split; [done|]. split; [done|].
  destruct (existsb _ _) eqn:Hex.
  - split; [done|]. intros Hnone. exfalso. apply Hnone.
    apply existsb_exists in Hex as ([k p] & Hin & Hown). simpl in Hown.
    apply list_elem_of_In, elem_of_map_to_list in Hin.
    destruct (heap s !! p) as [o|] eqn:Ho; [|done].
    apply bool_decide_eq_true in Hown. by exists k, p, o.
  - split; [|done]. intros (k & p & o & Hk & Ho & Hc).
    assert (Htrue : existsb (fun e => match heap s !! snd e with
                                      | Some o => bool_decide (clientPid_ o = clientPid)
                                      | None => false
                                      end)
                      (map_to_list (trackedProcesses_ s)) = true).
    { apply existsb_exists. exists (k, p). split.
      - by apply list_elem_of_In, elem_of_map_to_list.
      - simpl. rewrite Ho. by apply bool_decide_eq_true. }
    congruence.
Qed.

Lemma FreeReportQueues_effect_witness :
  exists s',
    FreeReportQueuesForClientProcess 7 sampleSandbox = Some (kIOReturnSuccess, s') /\
    trackedProcesses_ s' = delete 7 (trackedProcesses_ sampleSandbox).
Proof.
  destruct (FreeReportQueues_effect 7 sampleSandbox sampleSandbox_wf)
    as (r & s' & Hrun & Hr & _ & _ & _ & Hyes & _).
  exists s'. split.
  - rewrite Hrun. f_equal. f_equal. apply Hr. exists 1%nat. by vm_compute.
  - apply Hyes. exists 100, 1%positive, (mkProcessObject 7 100 55 2).
    split; [by vm_compute|]. split; [by vm_compute|done].
Defined.

(** ** Invariants *)

Import TrackerCalls.










End TrackerLaws.

(** * Further facts about the trie *)

Module TrieLaws.
Import Trie TrieFacts TrieCalls.

#[local] Arguments uintDigits : simpl never.

(** ** Records of other nodes *)

Lemma setRecordAt_other a r : forall a' n,
  a <> a' -> recordAt a' (setRecordAt a r n) = recordAt a' n.
Proof.
  induction a as [|i a IH]; intros a' n Hne.
  - destruct a' as [|j a']; [done|]. by rewrite !recordAt_cons.
  - cbn [setRecordAt].
    destruct (children_ n !! i) as [[c|]|] eqn:Hc; try done.
    destruct a' as [|j a']; [done|]. rewrite !recordAt_cons. simpl.
    destruct (decide (j = i)) as [->|Hji].
    + rewrite list_lookup_insert_eq by (by eapply lookup_lt_Some).
      rewrite Hc. apply IH. congruence.
    + by rewrite list_lookup_insert_ne.
Qed.

Lemma storeRecord_other a r t a' :
  a <> a' -> recordAt a' (root_ (storeRecord a r t)) = recordAt a' (root_ t).
Proof. intros Hne. simpl. by apply setRecordAt_other. Qed.

(** A node-level operation changes no record but that of its node. *)
Lemma insertNode_other node value t a' :
  node <> Some a' ->
  recordAt a' (root_ (snd (insertNode node value t))) = recordAt a' (root_ t).
Proof.
  intros Hne. unfold insertNode. destruct node as [a|]; [|done].
  destruct value as [v|]; [|done].
  destruct (recordAt a (root_ t)); [done|]. simpl.
  unfold incrementSize. rewrite root_setSize. apply storeRecord_other. congruence.
Qed.

Lemma replaceNode_other node value t a' :
  node <> Some a' ->
  recordAt a' (root_ (snd (replaceNode node value t))) = recordAt a' (root_ t).
Proof.
  intros Hne. unfold replaceNode. destruct node as [a|]; [|done].
  destruct value as [v|]; [|done].
  destruct (recordAt a (root_ t)); simpl.
  - apply setRecordAt_other. congruence.
  - unfold incrementSize. rewrite root_setSize. apply storeRecord_other. congruence.
Qed.

Lemma removeNode_other node t a' :
  node <> Some a' ->
  recordAt a' (root_ (snd (removeNode node t))) = recordAt a' (root_ t).
Proof.
  intros Hne. unfold removeNode. destruct node as [a|]; [|done].
  destruct (recordAt a (root_ t)); [|done]. simpl.
  unfold decrementSize. rewrite root_setSize. apply storeRecord_other. congruence.
Qed.

Lemma getOrAddNode_other node args factory t a' :
  node <> Some a' ->
  recordAt a' (root_ (snd (getOrAddNode node args factory t))) = recordAt a' (root_ t).
Proof.
  intros Hne. unfold getOrAddNode, makeSentinel. destruct node as [a|]; [|done].
  destruct (recordAt a (root_ t)); [done|]. simpl.
  unfold incrementSize. rewrite root_setSize. apply storeRecord_other. congruence.
Qed.

(** ** What a node-level operation leaves in its node *)

Lemma replaceNode_value a m v t :
  nodeAt a (root_ t) = Some m ->
  fst (replaceNode (Some a) (Some v) t) =
    match recordAt a (root_ t) with
    | Some _ => kTrieResultReplaced
    | None => kTrieResultInserted
    end /\
  recordAt a (root_ (snd (replaceNode (Some a) (Some v) t))) = Some v.
Proof.
  intros Hm. unfold replaceNode.
  destruct (setRecordAt_facts a (Some v) _ _ Hm) as (Hst & _).
  destruct (recordAt a (root_ t)); simpl; (split; [done|]).
  - done.
  - unfold incrementSize. by rewrite root_setSize.
Qed.

Lemma removeNode_value a t :
  fst (removeNode (Some a) t) =
    match recordAt a (root_ t) with
    | Some _ => kTrieResultRemoved
    | None => kTrieResultAlreadyEmpty
    end /\
  recordAt a (root_ (snd (removeNode (Some a) t))) = None.
Proof.
  unfold removeNode. destruct (recordAt a (root_ t)) as [w|] eqn:Hr; simpl; (split; [done|]).
  - destruct (recordAt_Some_nodeAt _ _ _ Hr) as (m & Hm & _).
    destruct (setRecordAt_facts a None _ _ Hm) as (Hst & _).
    unfold decrementSize. by rewrite root_setSize.
  - done.
Qed.

(** ** Path keys and addresses *)

Lemma getPath_value t p :
  TrieOk t -> kind_ t = kPathTrie ->
  fst (getPath p t) = getNode (keyAddress kPathTrie (pathIndex <$> c_str p)) t.
Proof.
  intros Hok Hk. rewrite getPath_unfold by done. cbn [fst].
  destruct (find_get_value t (pathIndex <$> c_str p) Hok) as [-> _].
  by rewrite Hk.
Qed.

Lemma caseEqChar_pathIndex a b :
  addressable b -> pathIndex a = pathIndex b -> caseEqChar a b.
Proof.
  unfold addressable, pathIndex, toupper, caseEqChar. intros Hb.
  destruct ((97 <=? a) && (a <=? 122)) eqn:Ha;
    destruct ((97 <=? b) && (b <=? 122)) eqn:Hb'; intros Heq;
    rewrite ?andb_true_iff, ?andb_false_iff in Ha, Hb'; lia.
Qed.

Lemma caseEq_pathIndex p q :
  Forall addressable (c_str q) ->
  pathIndex <$> c_str p = pathIndex <$> c_str q -> caseEq p q.
Proof.
  unfold caseEq. generalize (c_str p) (c_str q). intros l k Hk. revert l.
  induction Hk as [|b k Hb _ IH]; intros [|a l] Heq; simplify_eq/=; constructor.
  - by apply caseEqChar_pathIndex.
  - by apply IH.
Qed.

Lemma to_nat_inj_inRange n l : forall k,
  forallb (inRange n) l = true -> forallb (inRange n) k = true ->
  Z.to_nat <$> l = Z.to_nat <$> k -> l = k.
Proof.
  induction l as [|a l IH]; intros [|b k] Hl Hk Heq; simplify_eq/=; [done|].
  apply andb_true_iff in Hl as [Ha Hl]. apply andb_true_iff in Hk as [Hb Hk].
  unfold inRange in Ha, Hb. apply andb_true_iff in Ha as [Ha _].
  apply andb_true_iff in Hb as [Hb _].
  f_equal; [lia|]. by apply IH.
Qed.

Lemma keyAddress_inj kind l k a :
  keyAddress kind l = Some a -> keyAddress kind k = Some a -> l = k.
Proof.
  unfold keyAddress.
  destruct (forallb _ l) eqn:Hl; [|done]. destruct (forallb _ k) eqn:Hk; [|done].
  intros [= <-] [= Heq]. symmetry. by eapply to_nat_inj_inRange.
Qed.

(** Paths that are not equal up to case have different addresses. *)
Lemma keyAddress_path_ne p q :
  Forall addressable (c_str q) ->
  ~ caseEq p q ->
  keyAddress kPathTrie (pathIndex <$> c_str p) <>
  keyAddress kPathTrie (pathIndex <$> c_str q).
Proof.
  intros Hq Hne Heq. apply Hne. apply caseEq_pathIndex; [done|].
  rewrite (keyAddress_path_Some _ Hq) in Heq.
  eapply keyAddress_inj; [exact Heq|]. by apply keyAddress_path_Some.
Qed.

(** ** A call and the other keys *)

Lemma traversal_records t idxs :
  TrieOk t ->
  snd (findNode (kind_ t) idxs (root_ t)) = keyAddress (kind_ t) idxs /\
  sameStore t (setRoot (fst (findNode (kind_ t) idxs (root_ t))) t).
Proof.
  intros Hok. pose proof (surjective_find (kind_ t) idxs (root_ t)) as Hf.
  destruct (find_get t idxs _ _ Hok Hf) as [Hfound _].
  by destruct (findNode_sameStore _ _ _ _ Hok Hf) as (Hsame & _).
Qed.

Lemma sameStore_records t t1 a : sameStore t t1 -> recordAt a (root_ t1) = recordAt a (root_ t).
Proof. intros (_ & _ & _ & _ & _ & _ & Hrec & _). apply Hrec. Qed.

Lemma getUint_value t key :
  TrieOk t -> kind_ t = kUintTrie ->
  fst (getUint key t) = getNode (keyAddress kUintTrie (uintDigits 20 key)) t.
Proof.
  intros Hok Hk. rewrite getUint_unfold by done. cbn [fst].
  destruct (find_get_value t (uintDigits 20 key) Hok) as [-> _].
  by rewrite Hk.
Qed.

Lemma insertUint_unfold key value t :
  kind_ t = kUintTrie ->
  insertUint key value t =
    insertNode (snd (findNode (kind_ t) (uintDigits 20 key) (root_ t))) value
      (setRoot (fst (findNode (kind_ t) (uintDigits 20 key) (root_ t))) t).
Proof.
  intros Hk. unfold insertUint, findUintNode.
  rewrite bool_decide_eq_false_2 by (by rewrite Hk; intros []).
  by destruct (findNode _ _ _).
Qed.

Lemma replaceUint_unfold key value t :
  kind_ t = kUintTrie ->
  replaceUint key value t =
    replaceNode (snd (findNode (kind_ t) (uintDigits 20 key) (root_ t))) value
      (setRoot (fst (findNode (kind_ t) (uintDigits 20 key) (root_ t))) t).
Proof.
  intros Hk. unfold replaceUint, findUintNode.
  rewrite bool_decide_eq_false_2 by (by rewrite Hk; intros []).
  by destruct (findNode _ _ _).
Qed.

Lemma removeUint_unfold key t :
  kind_ t = kUintTrie ->
  removeUint key t =
    removeNode (snd (findNode (kind_ t) (uintDigits 20 key) (root_ t)))
      (setRoot (fst (findNode (kind_ t) (uintDigits 20 key) (root_ t))) t).
Proof.
  intros Hk. unfold removeUint, findUintNode.
  rewrite bool_decide_eq_false_2 by (by rewrite Hk; intros []).
  by destruct (findNode _ _ _).
Qed.

(** The state a call leaves, as a function of the call. *)
Lemma snd_run_path t c :
  kind_ t = kPathTrie ->
  snd (run c t) =
    match c with
    | CallGetPath p => snd (getPath p t)
    | CallGetOrAddPath p a f => snd (getOrAddPath p a f t)
    | CallReplacePath p v => snd (replacePath p v t)
    | CallInsertPath p v => snd (insertPath p v t)
    | CallRemovePath p => snd (removePath p t)
    | _ => snd (run c t)
    end.
Proof.
  intros Hk. destruct c; try done; simpl.
  - by destruct (getPath _ _).
  - by destruct (getOrAddPath _ _ _ _) as [[? ?] ?].
  - by destruct (replacePath _ _ _).
  - by destruct (insertPath _ _ _).
  - by destruct (removePath _ _).
Qed.

Lemma snd_run_uint t c :
  kind_ t = kUintTrie ->
  snd (run c t) =
    match c with
    | CallGetUint k => snd (getUint k t)
    | CallGetOrAddUint k a f => snd (getOrAddUint k a f t)
    | CallReplaceUint k v => snd (replaceUint k v t)
    | CallInsertUint k v => snd (insertUint k v t)
    | CallRemoveUint k => snd (removeUint k t)
    | _ => snd (run c t)
    end.
Proof.
  intros Hk. destruct c; try done; simpl.
  - by destruct (getUint _ _).
  - by destruct (getOrAddUint _ _ _ _) as [[? ?] ?].
  - by destruct (replaceUint _ _ _).
  - by destruct (insertUint _ _ _).
  - by destruct (removeUint _ _).
Qed.

Lemma run_path_other t c p a' :
  TrieOk t -> kind_ t = kPathTrie ->
  pathKey c = Some p ->
  keyAddress kPathTrie (pathIndex <$> c_str p) <> Some a' ->
  recordAt a' (root_ (snd (run c t))) = recordAt a' (root_ t).
Proof.
  intros Hok Hk Hc Hne. rewrite snd_run_path by done.
  destruct (traversal_records t (pathIndex <$> c_str p) Hok) as [Hfound Hsame].
  rewrite Hk in Hfound at 2.
  destruct c; simplify_eq/=.
  - rewrite getPath_unfold by done. exact (sameStore_records _ _ a' Hsame).
  - rewrite getOrAddPath_unfold by done.
    rewrite getOrAddNode_other by (by rewrite Hfound).
    exact (sameStore_records _ _ a' Hsame).
  - rewrite replacePath_unfold by done.
    rewrite replaceNode_other by (by rewrite Hfound).
    exact (sameStore_records _ _ a' Hsame).
  - rewrite insertPath_unfold by done.
    rewrite insertNode_other by (by rewrite Hfound).
    exact (sameStore_records _ _ a' Hsame).
  - rewrite removePath_unfold by done.
    rewrite removeNode_other by (by rewrite Hfound).
    exact (sameStore_records _ _ a' Hsame).
Qed.

Lemma run_uint_other t c k a' :
  TrieOk t -> kind_ t = kUintTrie ->
  uintKey c = Some k ->
  keyAddress kUintTrie (uintDigits 20 k) <> Some a' ->
  recordAt a' (root_ (snd (run c t))) = recordAt a' (root_ t).
Proof.
  intros Hok Hk Hc Hne. rewrite snd_run_uint by done.
  destruct (traversal_records t (uintDigits 20 k) Hok) as [Hfound Hsame].
  rewrite Hk in Hfound at 2.
  destruct c; cbn [uintKey] in Hc; try done; injection Hc as ->.
  - rewrite getUint_unfold by done. exact (sameStore_records _ _ a' Hsame).
  - rewrite getOrAddUint_unfold by done.
    rewrite getOrAddNode_other by (by rewrite Hfound).
    exact (sameStore_records _ _ a' Hsame).
  - rewrite replaceUint_unfold by done.
    rewrite replaceNode_other by (by rewrite Hfound).
    exact (sameStore_records _ _ a' Hsame).
  - rewrite insertUint_unfold by done.
    rewrite insertNode_other by (by rewrite Hfound).
    exact (sameStore_records _ _ a' Hsame).
  - rewrite removeUint_unfold by done.
    rewrite removeNode_other by (by rewrite Hfound).
    exact (sameStore_records _ _ a' Hsame).
Qed.

Lemma run_kind t c : TrieOk t -> kind_ (snd (run c t)) = kind_ t.
Proof.
  intros Hok. destruct (singleKey c) eqn:Hs.
  - by destruct (run_singleKey t c Hok Hs) as (_ & Hk & _).
  - destruct c; try done; simpl.
    unfold removeMatching. generalize (entries (root_ t)). intros l.
    clear Hok. revert t. induction l as [|e l IH]; intros t; simpl; [done|].
    rewrite IH. destruct (filter (snd e)); [|done].
    unfold removeNode. destruct (recordAt _ _); [|done]. simpl.
    unfold decrementSize, setSize, triggerOnChange. simpl.
    destruct (onChangeCallback_ t); [case_bool_decide|]; done.
Qed.

(** X8.  A call on one path key never changes what another key holds:
    whatever [get], [getOrAdd], [insert], [replace] or [remove] does under
    path [p], a [get] of a path [q] that differs from [p] by more than
    ASCII case returns afterwards what it returned before. *)
Theorem path_keys_independent t c p q :
  TrieOk t ->
  kind_ t = kPathTrie ->
  pathKey c = Some p ->
  Forall addressable (c_str q) ->
  ~ caseEq p q ->
  fst (getPath q (snd (run c t))) = fst (getPath q t).
Proof.
  intros Hok Hk Hc Hq Hne.
  rewrite !getPath_value; try done;
    [|by apply run_TrieOk|by rewrite run_kind].
  rewrite (keyAddress_path_Some _ Hq). simpl.
  apply (run_path_other t c p); try done.
  rewrite <- (keyAddress_path_Some _ Hq). by apply keyAddress_path_ne.
Qed.

Lemma path_keys_independent_witness :
  let t := snd (insertPath "/bin/sh" (Some 5%positive) createPathTrie) in
  fst (getPath "/bin/sh" (snd (run (CallRemovePath "/bin/ls") t))) = Some 5%positive.
Proof.
  intros t.
  rewrite (path_keys_independent t (CallRemovePath "/bin/ls") "/bin/ls" "/bin/sh").
  - by vm_compute.
  - apply (bool_decide_unpack _). by vm_compute.
  - done.
  - done.
  - replace (c_str "/bin/sh") with [47; 98; 105; 110; 47; 115; 104] by (by vm_compute).
    repeat (constructor; [unfold addressable; lia|]). constructor.
  - unfold caseEq.
    replace (c_str "/bin/sh") with [47; 98; 105; 110; 47; 115; 104] by (by vm_compute).
    replace (c_str "/bin/ls") with [47; 98; 105; 110; 47; 108; 115] by (by vm_compute).
    intros H. do 5 (apply Forall2_cons in H as [_ H]).
    apply Forall2_cons in H as [H _]. unfold caseEqChar in H. lia.
Defined.

(** ** Storing, replacing and removing under a path *)

Lemma path_traversal t p :
  TrieOk t -> kind_ t = kPathTrie ->
  Forall addressable (c_str p) ->
  let a := Z.to_nat <$> (pathIndex <$> c_str p) in
  let f := findNode (kind_ t) (pathIndex <$> c_str p) (root_ t) in
  snd f = Some a /\
  sameStore t (setRoot (fst f) t) /\
  is_Some (nodeAt a (fst f)) /\
  recordAt a (fst f) = fst (getPath p t).
Proof.
  intros Hok Hk Hp a f.
  pose proof (surjective_find (kind_ t) (pathIndex <$> c_str p) (root_ t)) as Hf.
  destruct (findNode_sameStore _ _ _ _ Hok Hf) as (Hsame & Hnode & Hfound).
  fold f in Hsame, Hnode, Hfound.
  assert (Ha : snd f = Some a).
  { rewrite Hfound, Hk. by rewrite forallb_pathIndex_true. }
  split; [done|]. split; [done|]. split; [by apply Hnode|].
  rewrite getPath_value, (keyAddress_path_Some _ Hp) by done.
  exact (sameStore_records _ _ a Hsame).
Qed.

Lemma path_ops_TrieOk t p :
  TrieOk t -> kind_ t = kPathTrie ->
  forall v,
    (TrieOk (snd (replacePath p v t)) /\ kind_ (snd (replacePath p v t)) = kPathTrie) /\
    (TrieOk (snd (insertPath p v t)) /\ kind_ (snd (insertPath p v t)) = kPathTrie) /\
    (TrieOk (snd (removePath p t)) /\ kind_ (snd (removePath p t)) = kPathTrie).
Proof.
  intros Hok Hk v.
  pose proof (run_TrieOk t (CallReplacePath p v) Hok) as H1.
  pose proof (run_kind t (CallReplacePath p v) Hok) as K1.
  pose proof (run_TrieOk t (CallInsertPath p v) Hok) as H2.
  pose proof (run_kind t (CallInsertPath p v) Hok) as K2.
  pose proof (run_TrieOk t (CallRemovePath p) Hok) as H3.
  pose proof (run_kind t (CallRemovePath p) Hok) as K3.
  rewrite snd_run_path in H1, K1, H2, K2, H3, K3 by done.
  rewrite Hk in K1, K2, K3. done.
Qed.

(** X9.  [replace] stores its value whatever the key held: on a path of
    addressable bytes it reports [kTrieResultReplaced] when the key held a
    value and [kTrieResultInserted] when it held none, and a [get] of any
    path equal up to case then returns the new value. *)
Theorem replace_then_get t p q v :
  TrieOk t ->
  kind_ t = kPathTrie ->
  Forall addressable (c_str p) ->
  caseEq p q ->
  fst (replacePath p (Some v) t) =
    match fst (getPath p t) with
    | Some _ => kTrieResultReplaced
    | None => kTrieResultInserted
    end /\
  fst (getPath q (snd (replacePath p (Some v) t))) = Some v.
Proof.
  intros Hok Hk Hp Hcase.
  destruct (path_traversal t p Hok Hk Hp) as (Ha & Hsame & [m Hm] & Hprior).
  destruct (path_ops_TrieOk t p Hok Hk (Some v)) as ((Hok' & Hk') & _).
  rewrite (getPath_value _ q Hok' Hk').
  rewrite <- (pathIndex_caseEq p q Hcase), (keyAddress_path_Some _ Hp).
  clear Hok' Hk'. rewrite replacePath_unfold by done. cbv zeta in *.
  rewrite Ha.
  destruct (replaceNode_value _ m v (setRoot _ t) Hm) as [Hres Hrec].
  cbn [root_ setRoot] in Hres. rewrite Hprior in Hres.
  split; [exact Hres|exact Hrec].
Qed.

Lemma replace_then_get_witness :
  let t := snd (insertPath "/Foo" (Some 5%positive) createPathTrie) in
  fst (replacePath "/foo" (Some 6%positive) t) = kTrieResultReplaced /\
  fst (getPath "/FOO" (snd (replacePath "/foo" (Some 6%positive) t))) = Some 6%positive.
Proof.
  intros t.
  destruct (replace_then_get t "/foo" "/FOO" 6%positive) as [Hres Hget].
  - apply (bool_decide_unpack _). by vm_compute.
  - done.
  - replace (c_str "/foo") with [47; 102; 111; 111] by (by vm_compute).
    repeat (constructor; [unfold addressable; lia|]). constructor.
  - unfold caseEq.
    replace (c_str "/foo") with [47; 102; 111; 111] by (by vm_compute).
    replace (c_str "/FOO") with [47; 70; 79; 79] by (by vm_compute).
    repeat (constructor; [unfold caseEqChar; lia|]). constructor.
  - split; [|done]. etrans; [exact Hres|]. by vm_compute.
Defined.

(** X10.  [remove] empties the key: on a path of addressable bytes it
    reports [kTrieResultRemoved] when the key held a value and
    [kTrieResultAlreadyEmpty] when it held none, a [get] of any path equal
    up to case then returns nothing, and when the key held none the trie
    stores exactly what it stored and counts what it counted. *)
Theorem remove_then_get t p q :
  TrieOk t ->
  kind_ t = kPathTrie ->
  Forall addressable (c_str p) ->
  caseEq p q ->
  fst (removePath p t) =
    match fst (getPath p t) with
    | Some _ => kTrieResultRemoved
    | None => kTrieResultAlreadyEmpty
    end /\
  fst (getPath q (snd (removePath p t))) = None /\
  (fst (getPath p t) = None -> sameStore t (snd (removePath p t))).
Proof.
  intros Hok Hk Hp Hcase.
  destruct (path_traversal t p Hok Hk Hp) as (Ha & Hsame & [m Hm] & Hprior).
  destruct (path_ops_TrieOk t p Hok Hk None) as (_ & _ & (Hok' & Hk')).
  rewrite (getPath_value _ q Hok' Hk').
  rewrite <- (pathIndex_caseEq p q Hcase), (keyAddress_path_Some _ Hp).
  clear Hok' Hk'. rewrite removePath_unfold by done. cbv zeta in *.
  rewrite Ha.
  destruct (removeNode_value (Z.to_nat <$> (pathIndex <$> c_str p))
              (setRoot (fst (findNode (kind_ t) (pathIndex <$> c_str p) (root_ t))) t))
    as [Hres Hrec].
  cbn [root_ setRoot] in Hres. rewrite Hprior in Hres.
  split; [exact Hres|]. split; [exact Hrec|].
  intros Hfree. unfold removeNode. cbn [root_ setRoot]. by rewrite Hprior, Hfree.
Qed.

Lemma remove_then_get_witness :
  let t := snd (insertPath "/Foo" (Some 5%positive) createPathTrie) in
  fst (removePath "/foo" t) = kTrieResultRemoved /\
  fst (getPath "/FOO" (snd (removePath "/foo" t))) = None.
Proof.
  intros t.
  destruct (remove_then_get t "/foo" "/FOO") as (Hres & Hget & _).
  - apply (bool_decide_unpack _). by vm_compute.
  - done.
  - replace (c_str "/foo") with [47; 102; 111; 111] by (by vm_compute).
    repeat (constructor; [unfold addressable; lia|]). constructor.
  - unfold caseEq.
    replace (c_str "/foo") with [47; 102; 111; 111] by (by vm_compute).
    replace (c_str "/FOO") with [47; 70; 79; 79] by (by vm_compute).
    repeat (constructor; [unfold caseEqChar; lia|]). constructor.
  - split; [|done]. etrans; [exact Hres|]. by vm_compute.
Defined.

Lemma caseEq_addressable p q :
  caseEq p q -> Forall addressable (c_str p) -> Forall addressable (c_str q).
Proof.
  unfold caseEq. generalize (c_str p) (c_str q). intros l k H.
  induction H as [|a b l k Hab _ IH]; intros Hl; [constructor|].
  apply Forall_cons in Hl as [Ha Hl]. constructor; [|by apply IH].
  unfold caseEqChar, addressable in *. lia.
Qed.

Lemma run_insertPath t p v :
  run (CallInsertPath p v) t = (Result (fst (insertPath p v t)), snd (insertPath p v t)).
Proof. simpl. by destruct (insertPath p v t). Qed.

Lemma run_removePath t p :
  run (CallRemovePath p) t = (Result (fst (removePath p t)), snd (removePath p t)).
Proof. simpl. by destruct (removePath p t). Qed.

Lemma run_getOrAddPath t p a f :
  run (CallGetOrAddPath p a f) t =
    (Added (fst (fst (getOrAddPath p a f t))) (snd (fst (getOrAddPath p a f t))),
     snd (getOrAddPath p a f t)).
Proof. simpl. by destruct (getOrAddPath p a f t) as [[? ?] ?]. Qed.

Lemma insertPath_free t p v :
  TrieOk t -> kind_ t = kPathTrie ->
  Forall addressable (c_str p) ->
  fst (getPath p t) = None ->
  fst (insertPath p (Some v) t) = kTrieResultInserted /\
  recordAt (Z.to_nat <$> (pathIndex <$> c_str p)) (root_ (snd (insertPath p (Some v) t)))
    = Some v.
Proof.
  intros Hok Hk Hp Hfree.
  destruct (find_insert_value t (pathIndex <$> c_str p) v Hok) as (_ & _ & Hins).
  assert (Hka : keyAddress (kind_ t) (pathIndex <$> c_str p) =
                Some (Z.to_nat <$> (pathIndex <$> c_str p))).
  { rewrite Hk. by apply keyAddress_path_Some. }
  rewrite Hka in Hins.
  cbv zeta in Hins. rewrite <- insertPath_unfold in Hins by done.
  rewrite getPath_value, (keyAddress_path_Some _ Hp) in Hfree by done.
  simpl in Hfree. rewrite Hfree in Hins. done.
Qed.

(** X11.  Inserting under a free key and then removing the key (by any
    spelling equal up to case) is a round trip: the insert reports
    [kTrieResultInserted], the remove [kTrieResultRemoved], and afterwards
    the count, the number of stored values and the record under every
    address are what they were before the insert. *)
Theorem insert_then_remove t p q v :
  TrieOk t ->
  kind_ t = kPathTrie ->
  Forall addressable (c_str p) ->
  caseEq p q ->
  fst (getPath p t) = None ->
  let t1 := snd (insertPath p (Some v) t) in
  let t2 := snd (removePath q t1) in
  fst (insertPath p (Some v) t) = kTrieResultInserted /\
  fst (removePath q t1) = kTrieResultRemoved /\
  getCount t2 = getCount t /\
  sentinels (root_ t2) = sentinels (root_ t) /\
  forall a, recordAt a (root_ t2) = recordAt a (root_ t).
Proof.
  intros Hok Hk Hp Hcase Hfree t1 t2.
  pose proof (caseEq_addressable p q Hcase Hp) as Hq.
  pose proof (pathIndex_caseEq p q Hcase) as Hidx.
  destruct (insertPath_free t p v Hok Hk Hp Hfree) as [Hins Hrec1].
  destruct (path_ops_TrieOk t p Hok Hk (Some v)) as (_ & (Hok1 & Hk1) & _).
  fold t1 in Hrec1, Hok1, Hk1.
  assert (Hget1 : fst (getPath q t1) = Some v).
  { rewrite getPath_value, (keyAddress_path_Some _ Hq) by done.
    simpl. by rewrite <- Hidx. }
  destruct (path_traversal t1 q Hok1 Hk1 Hq) as (Ha & Hsame & _ & Hprior).
  assert (Hrem : fst (removePath q t1) = kTrieResultRemoved /\
            recordAt (Z.to_nat <$> (pathIndex <$> c_str q)) (root_ t2) = None).
  { subst t2. rewrite removePath_unfold by done. cbv zeta in *. rewrite Ha.
    destruct (removeNode_value (Z.to_nat <$> (pathIndex <$> c_str q))
                (setRoot (fst (findNode (kind_ t1) (pathIndex <$> c_str q) (root_ t1))) t1))
      as [Hres Hrec].
    cbn [root_ setRoot] in Hres. rewrite Hprior, Hget1 in Hres.
    split; [exact Hres|exact Hrec]. }
  destruct Hrem as [Hrem Hrec2].
  split; [done|]. split; [done|].
  pose proof (run_singleKey t (CallInsertPath p (Some v)) Hok eq_refl) as Hc1.
  rewrite run_insertPath in Hc1. cbn [fst snd] in Hc1. rewrite Hins in Hc1.
  pose proof (run_singleKey t1 (CallRemovePath q) Hok1 eq_refl) as Hc2.
  rewrite run_removePath in Hc2. cbn [fst snd] in Hc2. rewrite Hrem in Hc2.
  fold t1 in Hc1. fold t2 in Hc2.
  destruct Hc1 as (_ & _ & _ & Hs1 & Hn1 & _).
  destruct Hc2 as (_ & _ & _ & Hs2 & Hn2 & _).
  simpl in Hs1, Hn1, Hs2, Hn2.
  split; [|split; [lia|]].
  - rewrite Hn2, Hn1. unfold wrapu32. rewrite Zplus_mod_idemp_l.
    replace (getCount t + 1 + -1) with (getCount t) by lia.
    apply (TrieOk_size t Hok).
  - intros a.
    destruct (decide (a = Z.to_nat <$> (pathIndex <$> c_str q))) as [->|Hne].
    + rewrite Hrec2. symmetry.
      rewrite getPath_value, (keyAddress_path_Some _ Hp), Hidx in Hfree by done.
      exact Hfree.
    + assert (Hq' : keyAddress kPathTrie (pathIndex <$> c_str q) <> Some a).
      { rewrite (keyAddress_path_Some _ Hq). congruence. }
      assert (Hp' : keyAddress kPathTrie (pathIndex <$> c_str p) <> Some a).
      { by rewrite Hidx. }
      pose proof (run_path_other t1 (CallRemovePath q) q a Hok1 Hk1 eq_refl Hq') as H2.
      pose proof (run_path_other t (CallInsertPath p (Some v)) p a Hok Hk eq_refl Hp') as H1.
      rewrite run_removePath in H2. rewrite run_insertPath in H1.
      etrans; [exact H2|exact H1].
Qed.

Lemma insert_then_remove_witness :
  let t1 := snd (insertPath "/Foo" (Some 5%positive) createPathTrie) in
  fst (removePath "/foo" t1) = kTrieResultRemoved /\
  getCount (snd (removePath "/foo" t1)) = 0.
Proof.
  intros t1.
  destruct (insert_then_remove createPathTrie "/Foo" "/foo" 5%positive)
    as (_ & Hrem & Hcount & _).
  - apply TrieOk_createTrie.
  - done.
  - replace (c_str "/Foo") with [47; 70; 111; 111] by (by vm_compute).
    repeat (constructor; [unfold addressable; lia|]). constructor.
  - unfold caseEq.
    replace (c_str "/Foo") with [47; 70; 111; 111] by (by vm_compute).
    replace (c_str "/foo") with [47; 102; 111; 111] by (by vm_compute).
    repeat (constructor; [unfold caseEqChar; lia|]). constructor.
  - by vm_compute.
  - by split.
Defined.

(** ** Integer keys *)

Lemma uintDigits_inRange fuel : forall key,
  0 <= key -> forallb (inRange s_uintNodeChildrenCount) (uintDigits fuel key) = true.
Proof.
  induction fuel as [|fuel IH]; intros key Hkey; [done|].
  cbn [uintDigits forallb]. apply andb_true_iff. split.
  - unfold inRange, s_uintNodeChildrenCount.
    change (Z.of_nat 10) with 10.
    pose proof (Z.mod_pos_bound key 10 ltac:(lia)). apply andb_true_iff. lia.
  - destruct (key <? 10); [done|]. apply IH. apply Z.div_pos; lia.
Qed.

Lemma uintDigits_inj fuel : forall k k',
  0 <= k < 10 ^ Z.of_nat fuel -> 0 <= k' < 10 ^ Z.of_nat fuel ->
  uintDigits fuel k = uintDigits fuel k' -> k = k'.
Proof.
  induction fuel as [|fuel IH]; intros k k' Hk Hk' Heq.
  - change (10 ^ Z.of_nat 0) with 1 in *. lia.
  - rewrite Nat2Z.inj_succ, Z.pow_succ_r in Hk, Hk' by lia.
    cbn [uintDigits] in Heq. injection Heq as Hd Hrest.
    pose proof (Z.div_mod k 10 ltac:(lia)) as Ek.
    pose proof (Z.div_mod k' 10 ltac:(lia)) as Ek'.
    destruct (Z.ltb_spec k 10) as [Hlt|Hge]; destruct (Z.ltb_spec k' 10) as [Hlt'|Hge'].
    + rewrite Z.mod_small in Hd by lia. rewrite Z.mod_small in Hd by lia. done.
    + destruct fuel; [simpl in *; lia|done].
    + destruct fuel; [simpl in *; lia|done].
    + assert (k / 10 = k' / 10); [|lia].
      apply IH; [| |done].
      * split; [apply Z.div_pos; lia|]. apply Z.div_lt_upper_bound; lia.
      * split; [apply Z.div_pos; lia|]. apply Z.div_lt_upper_bound; lia.
Qed.

Lemma keyAddress_uint_Some key :
  0 <= key ->
  keyAddress kUintTrie (uintDigits 20 key) = Some (Z.to_nat <$> uintDigits 20 key).
Proof. intros Hkey. unfold keyAddress. simpl childrenCount. by rewrite uintDigits_inRange. Qed.

(** Different 64-bit keys have different addresses. *)
Lemma keyAddress_uint_ne k k' :
  0 <= k < 2 ^ 64 -> 0 <= k' < 2 ^ 64 -> k <> k' ->
  keyAddress kUintTrie (uintDigits 20 k) <> keyAddress kUintTrie (uintDigits 20 k').
Proof.
  intros Hk Hk' Hne Heq. apply Hne.
  apply (uintDigits_inj 20); [lia|lia|].
  rewrite (keyAddress_uint_Some k') in Heq by lia.
  eapply keyAddress_inj; [exact Heq|]. apply keyAddress_uint_Some. lia.
Qed.

Lemma insertUint_value t k v :
  TrieOk t -> kind_ t = kUintTrie -> 0 <= k ->
  let a := Z.to_nat <$> uintDigits 20 k in
  TrieOk (snd (insertUint k (Some v) t)) /\
  kind_ (snd (insertUint k (Some v) t)) = kUintTrie /\
  fst (insertUint k (Some v) t) =
    match recordAt a (root_ t) with
    | Some _ => kTrieResultAlreadyExists
    | None => kTrieResultInserted
    end /\
  recordAt a (root_ (snd (insertUint k (Some v) t))) =
    Some (default v (recordAt a (root_ t))).
Proof.
  intros Hok Hk Hkey a.
  destruct (find_insert_value t (uintDigits 20 k) v Hok) as (Hok1 & Hk1 & Hins).
  assert (Hka : keyAddress (kind_ t) (uintDigits 20 k) = Some a).
  { rewrite Hk. by apply keyAddress_uint_Some. }
  rewrite Hka in Hins.
  cbv zeta in Hok1, Hk1, Hins. rewrite <- insertUint_unfold in Hok1, Hk1, Hins by done.
  rewrite Hk in Hk1. destruct Hins as [Hres Hrec]. done.
Qed.

Lemma run_insertUint t k v :
  run (CallInsertUint k v) t = (Result (fst (insertUint k v t)), snd (insertUint k v t)).
Proof. simpl. by destruct (insertUint k v t). Qed.

(** X12.  A call on one integer key never changes what another key
    holds: whatever [get], [getOrAdd], [insert], [replace] or [remove]
    does under a 64-bit key [k], a [get] of a different 64-bit key
    returns afterwards what it returned before. *)
Theorem uint_keys_independent t c k k' :
  TrieOk t ->
  kind_ t = kUintTrie ->
  uintKey c = Some k ->
  0 <= k < 2 ^ 64 ->
  0 <= k' < 2 ^ 64 ->
  k <> k' ->
  fst (getUint k' (snd (run c t))) = fst (getUint k' t).
Proof.
  intros Hok Hk Hc Hr Hr' Hne.
  rewrite !getUint_value; try done;
    [|by apply run_TrieOk|by rewrite run_kind].
  assert (Hne' : keyAddress kUintTrie (uintDigits 20 k) <>
                 Some (Z.to_nat <$> uintDigits 20 k')).
  { rewrite <- (keyAddress_uint_Some k') by lia. by apply keyAddress_uint_ne. }
  rewrite (keyAddress_uint_Some k') by lia. cbn [getNode].
  exact (run_uint_other t c k _ Hok Hk Hc Hne').
Qed.

Lemma uint_keys_independent_witness :
  let t := snd (insertUint 21 (Some 5%positive) createUintTrie) in
  fst (getUint 21 (snd (run (CallRemoveUint 12) t))) = Some 5%positive.
Proof.
  intros t.
  rewrite (uint_keys_independent t (CallRemoveUint 12) 12 21).
  - by vm_compute.
  - apply (bool_decide_unpack _). by vm_compute.
  - done.
  - done.
  - lia.
  - lia.
  - lia.
Defined.

(** X13.  [insert] under an integer key never fails for a key of 64 bits
    and never overwrites: it reports [kTrieResultInserted] when the key
    held no value and [kTrieResultAlreadyExists] when it held one, a
    [get] of the key then returns the value held before if there was one
    and the inserted value otherwise, and the count grows by one exactly
    in the first case. *)
Theorem insertUint_then_get t k v :
  TrieOk t ->
  kind_ t = kUintTrie ->
  0 <= k < 2 ^ 64 ->
  let t' := snd (insertUint k (Some v) t) in
  fst (insertUint k (Some v) t) =
    match fst (getUint k t) with
    | Some _ => kTrieResultAlreadyExists
    | None => kTrieResultInserted
    end /\
  fst (getUint k t') = Some (default v (fst (getUint k t))) /\
  getCount t' =
    match fst (getUint k t) with
    | Some _ => getCount t
    | None => wrapu32 (getCount t + 1)
    end.
Proof.
  intros Hok Hk Hr t'.
  destruct (insertUint_value t k v Hok Hk ltac:(lia)) as (Hok' & Hk' & Hres & Hrec).
  fold t' in Hok', Hk', Hrec.
  rewrite !getUint_value by done.
  rewrite (keyAddress_uint_Some k) by lia. cbn [getNode].
  split; [exact Hres|]. split; [exact Hrec|].
  pose proof (run_singleKey t (CallInsertUint k (Some v)) Hok eq_refl) as Hc.
  rewrite run_insertUint in Hc. cbn [fst snd] in Hc. fold t' in Hc.
  destruct Hc as (_ & _ & _ & _ & Hn & _). rewrite Hres in Hn.
  destruct (recordAt _ (root_ t)); simpl in Hn; [|done].
  rewrite Hn, Z.add_0_r. apply (TrieOk_size t Hok).
Qed.

Lemma insertUint_then_get_witness :
  let t := snd (insertUint 18446744073709551615 (Some 5%positive) createUintTrie) in
  fst (insertUint 18446744073709551615 (Some 6%positive) t) = kTrieResultAlreadyExists /\
  fst (getUint 18446744073709551615
         (snd (insertUint 18446744073709551615 (Some 6%positive) t))) = Some 5%positive.
Proof.
  intros t.
  destruct (insertUint_then_get t 18446744073709551615 6%positive) as (Hres & Hget & _).
  - apply (bool_decide_unpack _). by vm_compute.
  - done.
  - lia.
  - assert (E : fst (getUint 18446744073709551615 t) = Some 5%positive)
      by (by vm_compute).
    rewrite E in Hres, Hget. exact (conj Hres Hget).
Defined.

(** ** [getOrAdd] *)

Lemma getOrAddNode_value a m args factory t :
  nodeAt a (root_ t) = Some m ->
  fst (fst (getOrAddNode (Some a) args factory t)) =
    Some (default (factory args) (recordAt a (root_ t))) /\
  snd (fst (getOrAddNode (Some a) args factory t)) =
    Some match recordAt a (root_ t) with
         | Some _ => kTrieResultAlreadyExists
         | None => kTrieResultInserted
         end /\
  recordAt a (root_ (snd (getOrAddNode (Some a) args factory t))) =
    Some (default (factory args) (recordAt a (root_ t))).
Proof.
  intros Hm. unfold getOrAddNode, makeSentinel.
  destruct (setRecordAt_facts a (Some (factory args)) _ _ Hm) as (Hst & _).
  destruct (recordAt a (root_ t)) as [w|] eqn:Hr; cbn [fst snd default].
  - by rewrite Hr.
  - unfold incrementSize. rewrite root_setSize. cbn [root_ storeRecord setRoot].
    by rewrite Hst.
Qed.

Lemma run_getOrAddPath_delta t p a f :
  delta (fst (run (CallGetOrAddPath p a f) t)) =
    match snd (fst (getOrAddPath p a f t)) with
    | Some kTrieResultInserted => 1
    | _ => 0
    end.
Proof. rewrite run_getOrAddPath. cbn [fst delta]. by destruct (snd _) as [[]|]. Qed.

(** X14.  [getOrAdd] on a path of addressable bytes stores the product
    of the factory only under a key that holds nothing: it then returns
    that product, writes [kTrieResultInserted] and the count grows by one;
    under a key that holds a value it returns that value, writes
    [kTrieResultAlreadyExists] and the count stays.  In both cases a
    [get] of any path equal up to case returns the value [getOrAdd]
    returned. *)
Theorem getOrAdd_then_get t p q args factory :
  TrieOk t ->
  kind_ t = kPathTrie ->
  Forall addressable (c_str p) ->
  caseEq p q ->
  let res := getOrAddPath p args factory t in
  fst (fst res) = Some (default (factory args) (fst (getPath p t))) /\
  snd (fst res) =
    Some match fst (getPath p t) with
         | Some _ => kTrieResultAlreadyExists
         | None => kTrieResultInserted
         end /\
  fst (getPath q (snd res)) = fst (fst res) /\
  getCount (snd res) =
    match fst (getPath p t) with
    | Some _ => getCount t
    | None => wrapu32 (getCount t + 1)
    end.
Proof.
  intros Hok Hk Hp Hcase res.
  destruct (path_traversal t p Hok Hk Hp) as (Ha & Hsame & [m Hm] & Hprior).
  pose proof (run_singleKey t (CallGetOrAddPath p args factory) Hok eq_refl) as Hc.
  rewrite run_getOrAddPath_delta in Hc. rewrite run_getOrAddPath in Hc.
  cbn [fst snd] in Hc. fold res in Hc.
  destruct Hc as (Hok' & Hk' & _ & _ & Hn & _). rewrite Hk in Hk'.
  rewrite (getPath_value _ q Hok' Hk').
  rewrite <- (pathIndex_caseEq p q Hcase), (keyAddress_path_Some _ Hp).
  cbn [getNode]. revert Hn. clear Hok' Hk'. subst res.
  rewrite getOrAddPath_unfold by done. rewrite Ha.
  destruct (getOrAddNode_value _ m args factory (setRoot _ t) Hm) as (Hv & Hr & Hrec).
  cbn [root_ setRoot] in Hv, Hr, Hrec. rewrite Hprior in Hv, Hr, Hrec.
  rewrite Hv, Hr, Hrec. intros Hn.
  split; [done|]. split; [done|]. split; [done|].
  rewrite Hn. destruct (fst (getPath p t)); [|done].
  rewrite Z.add_0_r. apply (TrieOk_size t Hok).
Qed.

Lemma getOrAdd_then_get_witness :
  let res := getOrAddPath "/Foo" 1%positive (fun _ => 7%positive) createPathTrie in
  fst (fst res) = Some 7%positive /\
  fst (getPath "/foo" (snd res)) = Some 7%positive /\
  getCount (snd res) = 1.
Proof.
  intros res.
  destruct (getOrAdd_then_get createPathTrie "/Foo" "/foo" 1%positive (fun _ => 7%positive))
    as (Hv & _ & Hget & Hn).
  - apply TrieOk_createTrie.
  - done.
  - replace (c_str "/Foo") with [47; 70; 111; 111] by (by vm_compute).
    repeat (constructor; [unfold addressable; lia|]). constructor.
  - unfold caseEq.
    replace (c_str "/Foo") with [47; 70; 111; 111] by (by vm_compute).
    replace (c_str "/foo") with [47; 102; 111; 111] by (by vm_compute).
    repeat (constructor; [unfold caseEqChar; lia|]). constructor.
  - assert (E : fst (getPath "/Foo" createPathTrie) = None) by (by vm_compute).
    rewrite E in Hv, Hn. fold res in Hv, Hget, Hn.
    split; [exact Hv|]. split; [by rewrite Hget|exact Hn].
Defined.

(** ** The entries of a trie and [removeMatching] *)

Lemma childrenEntries_elem cs : forall j i a v,
  (i :: a, v) ∈ childrenEntries j cs <->
  exists m, (j <= i)%nat /\ cs !! (i - j)%nat = Some (Some m) /\ (a, v) ∈ entries m.
Proof.
  induction cs as [|c cs IH]; intros j i a v; cbn [childrenEntries].
  - split; [by intros ?%elem_of_nil|]. by intros (m & _ & ? & _).
  - rewrite elem_of_app, IH. split.
    + intros [Hc|(m & Hle & Hm & He)].
      * destruct c as [m|]; [|by apply elem_of_nil in Hc].
        cbn [childEntries] in Hc. apply list_elem_of_fmap in Hc as ([a' v'] & Heq & He).
        simplify_eq/=. exists m. by rewrite Nat.sub_diag.
      * exists m. split; [lia|]. split; [|done].
        replace (i - j)%nat with (S (i - S j)) by lia. done.
    + intros (m & Hle & Hm & He).
      destruct (decide (i = j)) as [->|Hne].
      * left. rewrite Nat.sub_diag in Hm. simplify_eq/=.
        apply list_elem_of_fmap. by exists (a, v).
      * right. exists m. split; [lia|]. split; [|done].
        replace (i - j)%nat with (S (i - S j)) in Hm by lia. done.
Qed.

Lemma childrenEntries_nil cs : forall j v, ([], v) ∉ childrenEntries j cs.
Proof.
  induction cs as [|c cs IH]; intros j v; cbn [childrenEntries].
  - apply not_elem_of_nil.
  - rewrite elem_of_app. intros [Hc|Hc]; [|by eapply IH].
    destruct c as [m|]; [|by apply elem_of_nil in Hc].
    cbn [childEntries] in Hc. by apply list_elem_of_fmap in Hc as ([a' v'] & Heq & _).
Qed.

(** The entries of a node are its stored values with their addresses. *)
Lemma entries_recordAt a : forall n v,
  (a, v) ∈ entries n <-> recordAt a n = Some v.
Proof.
  induction a as [|i a IH]; intros [r cs] v; rewrite entries_unfold, elem_of_app.
  - rewrite recordAt_nil. cbn [record_]. split.
    + intros [Hr|Hc]; [|by apply childrenEntries_nil in Hc].
      destruct r as [w|]; [|by apply elem_of_nil in Hr].
      apply list_elem_of_singleton in Hr. by simplify_eq.
    + intros ->. left. apply list_elem_of_singleton. done.
  - rewrite recordAt_cons, childrenEntries_elem. cbn [children_].
    rewrite Nat.sub_0_r. split.
    + intros [Hr|(m & _ & Hm & He)].
      * destruct r as [w|]; [|by apply elem_of_nil in Hr].
        by apply list_elem_of_singleton in Hr.
      * rewrite Hm. by apply IH.
    + intros Hrec. right. destruct (cs !! i) as [[m|]|]; try done.
      exists m. split; [lia|]. split; [done|]. by apply IH.
Qed.

Lemma removeSteps_records filter l : forall t a,
  recordAt a (root_ (foldl (removeStep filter) t l)) =
    if existsb (fun e => bool_decide (fst e = a) && filter (snd e)) l then None
    else recordAt a (root_ t).
Proof.
  induction l as [|e l IH]; intros t a; [done|].
  cbn [foldl existsb]. rewrite IH.
  destruct (existsb _ l); [by rewrite orb_true_r|]. rewrite orb_false_r.
  unfold removeStep. destruct (filter (snd e)); [|by rewrite andb_false_r].
  rewrite andb_true_r. case_bool_decide as Ha.
  - subst a. by destruct (removeNode_value (fst e) t) as [_ ->].
  - apply removeNode_other. congruence.
Qed.

(** X15.  [removeMatching] removes exactly the values that satisfy the
    filter: afterwards a key whose value satisfied the filter holds
    nothing, every other key holds what it held, and the count is again
    the number of stored values. *)
Theorem removeMatching_spec filter t :
  TrieOk t ->
  TrieOk (removeMatching filter t) /\
  forall a,
    recordAt a (root_ (removeMatching filter t)) =
      match recordAt a (root_ t) with
      | Some v => if filter v then None else Some v
      | None => None
      end.
Proof.
  intros Hok. split; [by apply removeMatching_TrieOk|]. intros a.
  change (removeMatching filter t)
    with (foldl (removeStep filter) t (entries (root_ t))).
  rewrite removeSteps_records.
  destruct (existsb _ _) eqn:Hex.
  - apply existsb_exists in Hex as ([a' v] & Hin & Hm).
    apply andb_true_iff in Hm as [Ha Hf]. apply bool_decide_eq_true in Ha.
    cbn [fst snd] in Ha, Hf. subst a'.
    apply list_elem_of_In, entries_recordAt in Hin. by rewrite Hin, Hf.
  - destruct (recordAt a (root_ t)) as [v|] eqn:Hr; [|done].
    destruct (filter v) eqn:Hf; [|done].
    apply entries_recordAt, list_elem_of_In in Hr.
    assert (existsb (fun e => bool_decide (fst e = a) && filter (snd e))
              (entries (root_ t)) = true) as Hex'; [|congruence].
    apply existsb_exists. exists (a, v). split; [done|].
    cbn [fst snd]. by rewrite bool_decide_eq_true_2, Hf.
Qed.

Lemma removeMatching_spec_witness :
  let t := snd (insertPath "/b" (Some 4%positive)
                  (snd (insertPath "/a" (Some 3%positive) createPathTrie))) in
  let t' := removeMatching (Pos.eqb 3) t in
  fst (getPath "/a" t') = None /\ fst (getPath "/b" t') = Some 4%positive /\
  getCount t' = 1 /\ TrieOk t'.
Proof.
  intros t t'.
  destruct (removeMatching_spec (Pos.eqb 3) t) as [Hok _].
  - apply (bool_decide_unpack _). by vm_compute.
  - split; [by vm_compute|]. split; [by vm_compute|]. split; [by vm_compute|exact Hok].
Defined.

(** ** The slots of a path node *)

(** X19.  The fan-out [s_pathNodeChildrenCount] = 65 of a path node is
    exact for the index [toupper(ch) - 32]: a byte has a slot exactly
    when it lies between 32 and 122, two bytes share a slot exactly when
    they are equal up to ASCII case, and each of the 65 slots is the slot
    of some byte. *)
Theorem path_slots_exact :
  (forall ch, inRange s_pathNodeChildrenCount (pathIndex ch) = true <-> addressable ch) /\
  (forall a b, addressable b -> (pathIndex a = pathIndex b <-> caseEqChar a b)) /\
  (forall i, 0 <= i < Z.of_nat s_pathNodeChildrenCount ->
     addressable (i + 32) /\ pathIndex (i + 32) = i).
Proof.
  split; [exact inRange_pathIndex|]. split.
  - intros a b Hb. split; [by apply caseEqChar_pathIndex|apply pathIndex_caseEqChar].
  - intros i. unfold s_pathNodeChildrenCount. change (Z.of_nat 65) with 65. intros Hi.
    unfold addressable, pathIndex, toupper. split; [lia|].
    replace ((97 <=? i + 32) && (i + 32 <=? 122)) with false by lia. lia.
Qed.

End TrieLaws.
(** * Facts about loading and unloading *)

Module LifecycleLaws.
Import Lifecycle.

Lemma events_logEvent e d : events (logEvent e d) = events d ++ [e].
Proof. done. Qed.

Lemma released_app es es' : released (es ++ es') = released es ++ released es'.
Proof. unfold released. by rewrite bind_app. Qed.

Lemma acquired_app es es' : acquired (es ++ es') = acquired es ++ acquired es'.
Proof. unfold acquired. by rewrite bind_app. Qed.

(** X16.  Whatever the kernel answers during [init], and wherever
    [init] stops, a following [free] gives back every resource [init]
    acquired, each once: the lock, the two containers, the registered
    policy and the listeners.  The only release that matches no
    acquisition is the [mac_policy_unregister] that [free] issues although
    no policy was registered.  Afterwards every pointer field is null. *)
Theorem init_then_free kSharedDataQueueSizeDefault env :
  let d1 := snd (init kSharedDataQueueSizeDefault env allocated) in
  let d2 := free d1 in
  released (events d2) ≡ₚ
    acquired (events d2) ++
    (if policyRegistered env then [] else [Policy (policyHandle_ d1)]) /\
  lock_ d2 = None /\ reportQueues_ d2 = None /\ trackedProcesses_ d2 = None /\
  buildxlVnodeListener_ d2 = None /\ buildxlFileOpListener_ d2 = None.
Proof.
  destruct env as [si la qc dc ps ph vl fl].
  destruct si; [|vm_compute; split; [solve_Permutation|done]].
  destruct la as [l|]; [|vm_compute; split; [solve_Permutation|done]].
  destruct qc as [q|]; [|vm_compute; split; [solve_Permutation|done]].
  destruct dc as [c|]; [|vm_compute; split; [solve_Permutation|done]].
  destruct ps as [|p|p]; [destruct vl as [v|]; [destruct fl as [f|]|]| |];
    vm_compute; (split; [solve_Permutation|done]).
Qed.

(** X17.  [InitializeListeners] returns [KERN_SUCCESS] exactly when the
    policy and both listeners were registered.  When the policy is
    refused it returns the kernel's status without asking for a listener.
    In no case does it give anything back: what was registered before a
    failure stays registered. *)
Theorem InitializeListeners_result env d :
  let res := InitializeListeners env d in
  (fst res = KERN_SUCCESS <->
     policyStatus env = KERN_SUCCESS /\
     is_Some (vnodeListen env) /\ is_Some (fileOpListen env)) /\
  (policyStatus env <> KERN_SUCCESS ->
     fst res = policyStatus env /\
     events (snd res) =
       events d ++ [mac_policy_register (policyStatus env) (policyHandle env);
                    ErrPolicyRegistration (policyStatus env)]) /\
  released (events (snd res)) = released (events d).
Proof.
  destruct env as [si la qc dc ps ph vl fl]. unfold InitializeListeners.
  cbn [policyStatus policyHandle vnodeListen fileOpListen].
  unfold InitializePolicyStructures.
  destruct (decide (ps = KERN_SUCCESS)) as [->|Hps].
  - rewrite (bool_decide_eq_false_2 (KERN_SUCCESS <> KERN_SUCCESS)) by (by intros []).
    split; [|split; [done|]].
    + destruct vl as [v|]; [destruct fl as [f|]|]; cbn [fst snd buildxlVnodeListener_
        buildxlFileOpListener_ setVnodeListener setFileOpListener logEvent setPolicyHandle].
      * rewrite !bool_decide_eq_false_2 by done. cbn [fst]. by repeat split.
      * rewrite (bool_decide_eq_false_2 (Some v = None)) by done.
        rewrite bool_decide_eq_true_2 by done. cbn [fst].
        split; [done|]. by intros (_ & _ & [? ?]).
      * rewrite bool_decide_eq_true_2 by done. cbn [fst].
        split; [done|]. by intros (_ & [? ?] & _).
    + destruct vl as [v|]; [destruct fl as [f|]|]; cbn [fst snd buildxlVnodeListener_
        buildxlFileOpListener_ setVnodeListener setFileOpListener logEvent setPolicyHandle].
      * rewrite !bool_decide_eq_false_2 by done. cbn [snd events logEvent setFileOpListener setVnodeListener setPolicyHandle].
        rewrite !released_app. cbn. by rewrite !app_nil_r.
      * rewrite (bool_decide_eq_false_2 (Some v = None)) by done.
        rewrite bool_decide_eq_true_2 by done. cbn [snd events logEvent setFileOpListener setVnodeListener setPolicyHandle].
        rewrite !released_app. cbn. by rewrite !app_nil_r.
      * rewrite bool_decide_eq_true_2 by done. cbn [snd events logEvent setFileOpListener setVnodeListener setPolicyHandle].
        rewrite !released_app. cbn. by rewrite !app_nil_r.
  - rewrite (bool_decide_eq_true_2 (ps <> KERN_SUCCESS)) by done.
    cbn [fst snd events logEvent setPolicyHandle].
    split; [split; [done|by intros [? _]]|]. split.
    + intros _. split; [done|]. by rewrite <- app_assoc.
    + rewrite !released_app. cbn. by rewrite !app_nil_r.
Qed.

Lemma InitializeListeners_result_witness :
  let env := mkEnv true (Some 1%positive) (Some 2%positive) (Some 3%positive)
               KERN_FAILURE 0 (Some 4%positive) (Some 5%positive) in
  fst (InitializeListeners env allocated) = KERN_FAILURE /\
  events (snd (InitializeListeners env allocated)) =
    [mac_policy_register KERN_FAILURE 0; ErrPolicyRegistration KERN_FAILURE].
Proof.
  intros env.
  destruct (InitializeListeners_result env allocated) as (_ & Hfail & _).
  apply Hfail. done.
Defined.

(** X18.  [free] clears every field it releases, so that a second
    [free] gives nothing back twice: it removes no listener, frees no
    lock and releases no container, and only repeats
    [mac_policy_unregister] and [super::free]. *)
Theorem free_twice d :
  events (free (free d)) =
    events (free d) ++ [mac_policy_unregister (policyHandle_ d); SuperFree].
Proof.
  destruct d as [l n q t h v f es].
  destruct l, q, t, v, f; cbv -[app]; by rewrite <- ?app_assoc.
Qed.

End LifecycleLaws.
